(** * Perion-Assignment: rate limiter and batch orchestration

  A shallow embedding of the admission-control layer
  ([internal/ratelimit]: [TokenBucket], [TwoTierRateLimiter]), of the
  batch orchestrator ([internal/domainAnalysis]: [AnalyzeDomain],
  [AnalyzeDomains], [aggregateResults]) and of the batch HTTP handler
  ([internal/http]: [AnalyzeBatchDomains]), followed by the properties
  the specification states about them.

  Conventions.
  - Go's [int64] and [int] (64 bit) are [Z] with the wrap-around written
    out ([Int64.wrap]).
  - Go's [float64] is IEEE 754 binary64, taken from the Standard
    Library's executable specification [SpecFloat] (precision 53,
    exponent bound 1024, round to nearest even).
  - [time.Now()] is a reading of the monotonic clock in nanoseconds, and
    every function that reads the clock takes the reading as an argument.
  - A mutex-protected object is a value threaded through the calls: the
    model is of sequential calls, one critical section after another. *)

From Stdlib Require Import ZArith Lia Bool.
From Stdlib Require Import Floats.SpecFloat.
From Stdlib Require OrdersEx.
From Stdlib Require Reals Lra.
From stdpp Require Import gmap strings list sorting.

Local Open Scope Z_scope.

Set Warnings "-register-all".

(* ===================================================================== *)
(** * Machine integers *)
(* ===================================================================== *)

Module Int64.

Definition MinInt64 : Z := - 2 ^ 63.
Definition MaxInt64 : Z := 2 ^ 63 - 1.

(** Two's complement wrap-around of a mathematical integer. *)
Definition wrap (z : Z) : Z := (z + 2 ^ 63) mod 2 ^ 64 - 2 ^ 63.

Definition in_range (z : Z) : Prop := MinInt64 <= z <= MaxInt64.

Definition in_rangeb (z : Z) : bool := (MinInt64 <=? z) && (z <=? MaxInt64).

Definition add (a b : Z) : Z := wrap (a + b).
Definition sub (a b : Z) : Z := wrap (a - b).

End Int64.

(* ===================================================================== *)
(** * Floating point (binary64) *)
(* ===================================================================== *)

Module Float64.

Definition prec : Z := 53.
Definition emax : Z := 1024.

Definition float64 : Type := spec_float.

(** [float64(z)] for an integer [z]: the nearest binary64 value. *)
Definition of_int (z : Z) : float64 := binary_normalize prec emax z 0 false.

Definition add (x y : float64) : float64 := SFadd prec emax x y.
Definition mul (x y : float64) : float64 := SFmul prec emax x y.
Definition div (x y : float64) : float64 := SFdiv prec emax x y.

(** The integer part of a finite value, rounding toward zero. *)
Definition trunc (x : float64) : option Z :=
  match x with
  | S754_zero _ => Some 0
  | S754_finite s m e =>
      let a := if 0 <=? e then Z.pos m * 2 ^ e else Z.pos m / 2 ^ (- e) in
      Some (if s then - a else a)
  | _ => None
  end.

(** [int64(x)]: Go truncates toward zero.  When the value does not fit
    (or is not a number) the language leaves the result to the
    implementation; the model takes the one of amd64, whose conversion
    instruction yields the "integer indefinite" value [- 2 ^ 63]. *)
Definition to_int64 (x : float64) : Z :=
  match trunc x with
  | Some z => if Int64.in_rangeb z then z else Int64.MinInt64
  | None => Int64.MinInt64
  end.

(** The mathematical floor of a finite value (the specification's
    reading of the conversion). *)
Definition floor (x : float64) : option Z :=
  match x with
  | S754_zero _ => Some 0
  | S754_finite s m e =>
      let n := if s then Z.neg m else Z.pos m in
      Some (if 0 <=? e then n * 2 ^ e else n / 2 ^ (- e))
  | _ => None
  end.

(** A finite value whose integer part is an [int64]. *)
Definition fits_int64 (x : float64) : Prop :=
  exists z, trunc x = Some z /\ Int64.in_range z.

End Float64.

(* ===================================================================== *)
(** * Package [time] (the part the limiter uses) *)
(* ===================================================================== *)

Module time.

(** A monotonic clock reading, in nanoseconds. *)
Definition Time : Type := Z.
(** [time.Duration]: an [int64] count of nanoseconds. *)
Definition Duration : Type := Z.

Definition Nanosecond : Duration := 1.
Definition Millisecond : Duration := 1000000.
Definition Second : Duration := 1000000000.
Definition Minute : Duration := 60 * Second.

(** [t.Sub(u)] on two readings of the monotonic clock: the difference,
    saturated to the range of [Duration]. *)
Definition Sub (t u : Time) : Duration :=
  let d := Int64.sub t u in
  if (d <? 0) && (u <? t) then Int64.MaxInt64
  else if (0 <? d) && (t <? u) then Int64.MinInt64
  else d.

(** [d.Seconds()]: whole seconds plus the fraction, as a [float64]. *)
Definition Seconds (d : Duration) : Float64.float64 :=
  let sec := Z.quot d Second in
  let nsec := Z.rem d Second in
  Float64.add (Float64.of_int sec)
              (Float64.div (Float64.of_int nsec) (Float64.of_int (10 ^ 9))).

(** [t.Before(u)]. *)
Definition Before (t u : Time) : bool := t <? u.

(** [t.After(u)]. *)
Definition After (t u : Time) : bool := u <? t.

(** [t.Add(d)] on a reading of the monotonic clock.  (When the sum leaves
    the range of the reading Go falls back to the wall clock; the
    properties below are stated for sums that stay in range.) *)
Definition Add (t : Time) (d : Duration) : Time := Int64.add t d.

End time.

(* ===================================================================== *)
(** * Package [ratelimit] *)
(* ===================================================================== *)

Module ratelimit.

(** ** TokenBucket *)

Record TokenBucket : Type := mkTokenBucket {
  capacity : Z;
  tokens : Z;
  refillRate : Z;            (* tokens per second *)
  lastRefill : time.Time
}.

Definition set_tokens (n : Z) (tb : TokenBucket) : TokenBucket :=
  mkTokenBucket (capacity tb) n (refillRate tb) (lastRefill tb).

(** [NewTokenBucket(capacity, refillRate)], created at clock reading
    [now]. *)
Definition NewTokenBucket (now : time.Time) (capacity refillRate : Z)
  : TokenBucket :=
  mkTokenBucket capacity capacity refillRate now.

Definition min (a b : Z) : Z := if a <? b then a else b.

(** [elapsed * float64(tb.refillRate)] of [refill]. *)
Definition accrued (now : time.Time) (tb : TokenBucket) : Float64.float64 :=
  let elapsed := time.Seconds (time.Sub now (lastRefill tb)) in
  Float64.mul elapsed (Float64.of_int (refillRate tb)).

(** [tokensToAdd] of [refill]. *)
Definition tokensToAdd (now : time.Time) (tb : TokenBucket) : Z :=
  Float64.to_int64 (accrued now tb).

Definition refill (now : time.Time) (tb : TokenBucket) : TokenBucket :=
  let n := tokensToAdd now tb in
  if 0 <? n then
    mkTokenBucket (capacity tb)
                  (min (capacity tb) (Int64.add (tokens tb) n))
                  (refillRate tb)
                  now
  else tb.

(** [tb.Allow()] at clock reading [now]: the answer and the bucket
    afterwards. *)
Definition Allow (now : time.Time) (tb : TokenBucket) : bool * TokenBucket :=
  let tb := refill now tb in
  if 0 <? tokens tb then (true, set_tokens (Int64.sub (tokens tb) 1) tb)
  else (false, tb).

(** ** TwoTierRateLimiter *)

Record TwoTierRateLimiter : Type := mkTwoTier {
  globalBucket : TokenBucket;
  ipBuckets : gmap string TokenBucket;
  perIPCapacity : Z;
  perIPRate : Z
}.

Definition set_global (g : TokenBucket) (trl : TwoTierRateLimiter)
  : TwoTierRateLimiter :=
  mkTwoTier g (ipBuckets trl) (perIPCapacity trl) (perIPRate trl).

Definition set_ipBuckets (m : gmap string TokenBucket)
    (trl : TwoTierRateLimiter) : TwoTierRateLimiter :=
  mkTwoTier (globalBucket trl) m (perIPCapacity trl) (perIPRate trl).

Definition NewTwoTierRateLimiter (now : time.Time)
    (globalCapacity globalRate perIPCapacity perIPRate : Z)
  : TwoTierRateLimiter :=
  mkTwoTier (NewTokenBucket now globalCapacity globalRate) ∅
            perIPCapacity perIPRate.

(** The clock readings of one [TwoTierRateLimiter.Allow]: in the global
    bucket's [refill], in [NewTokenBucket] (when the bucket is created)
    and in the per-IP bucket's [refill]. *)
Record Clock : Type := mkClock {
  atGlobal : time.Time;
  atCreate : time.Time;
  atIP : time.Time
}.

(** The same reading three times: a call that takes no time. *)
Definition instant (t : time.Time) : Clock := mkClock t t t.

(** [getOrCreateIPBucket]: the bucket of [clientIP], stored first when
    there is none. *)
Definition getOrCreateIPBucket (now : time.Time) (clientIP : string)
    (trl : TwoTierRateLimiter) : TokenBucket * TwoTierRateLimiter :=
  match ipBuckets trl !! clientIP with
  | Some bucket => (bucket, trl)
  | None =>
      let newBucket := NewTokenBucket now (perIPCapacity trl) (perIPRate trl) in
      (newBucket, set_ipBuckets (<[clientIP := newBucket]> (ipBuckets trl)) trl)
  end.

Definition returnGlobalToken (trl : TwoTierRateLimiter) : TwoTierRateLimiter :=
  let g := globalBucket trl in
  if tokens g <? capacity g
  then set_global (set_tokens (Int64.add (tokens g) 1) g) trl
  else trl.

(** [trl.Allow(clientIP)].  The per-IP bucket is an object of the
    registry: its [Allow] updates the registry's entry. *)
Definition TwoTierAllow (c : Clock) (clientIP : string)
    (trl : TwoTierRateLimiter) : bool * TwoTierRateLimiter :=
  let '(okG, g) := Allow (atGlobal c) (globalBucket trl) in
  let trl := set_global g trl in
  if negb okG then (false, trl)
  else
    let '(ipBucket, trl) := getOrCreateIPBucket (atCreate c) clientIP trl in
    let '(okIP, ipBucket) := Allow (atIP c) ipBucket in
    let trl := set_ipBuckets (<[clientIP := ipBucket]> (ipBuckets trl)) trl in
    if negb okIP then (false, returnGlobalToken trl)
    else (true, trl).

(** ** Wait *)

(** Go's [error] values that [Wait] can hand back are those of the
    context. *)
Inductive ctxError : Type := Canceled | DeadlineExceeded.

(** A [context.Context] as [Wait] sees it: the channel [ctx.Done()] is
    closed from the clock reading [doneAt] on (never, when there is none),
    and [ctx.Err()] is [ctxErr] from then on. *)
Record Context : Type := mkContext {
  doneAt : option time.Time;
  ctxErr : ctxError
}.

(** [ctx.Done()] is ready at the clock reading [t]. *)
Definition Done (ctx : Context) (t : time.Time) : bool :=
  match doneAt ctx with
  | Some td => td <=? t
  | None => false
  end.

(** The period of the ticker [Wait] creates. *)
Definition pollInterval : time.Duration := 100 * time.Millisecond.

(** The ticker created at [start] fires at [start + k * pollInterval],
    [k = 1, 2, ...], into a channel that holds one tick; a tick that finds
    the channel full is dropped.  [nextTick start recv] is the first firing
    after the clock reading [recv] of the last receive (of the creation,
    before the first receive): [ticker.C] is ready from then on. *)
Definition nextTick (start recv : time.Time) : time.Time :=
  start + ((recv - start) / pollInterval + 1) * pollInterval.

(** The cases of the [select] of [Wait]. *)
Inductive selectCase : Type := CaseDone | CaseTick.

(** A [select] evaluated at the clock reading [at_] goes on at once when a
    case is ready, and otherwise when the first of them becomes ready. *)
Definition wake (ctx : Context) (start recv at_ : time.Time) : time.Time :=
  let tick := nextTick start recv in
  Z.max at_ (match doneAt ctx with
             | Some td => Z.min td tick
             | None => tick
             end).

(** The case the [select] takes at the clock reading [t]: the ready one,
    and when both are ready the one Go's pseudo-random choice [pick]
    falls on. *)
Definition select (ctx : Context) (start recv t : time.Time)
    (pick : selectCase) : selectCase :=
  match Done ctx t, nextTick start recv <=? t with
  | true, true => pick
  | true, false => CaseDone
  | false, _ => CaseTick
  end.

(** What the scheduler and the clock decide in one turn of the loop: the
    clock reading at which the [select] is evaluated, the choice among
    ready cases, and the clock readings of [Allow] should it be called. *)
Record iteration : Type := mkIteration {
  evaluated : time.Time;
  pick : selectCase;
  readings : Clock
}.

(** [trl.Wait(ctx, clientIP)] with the ticker created at [start] and the
    last tick received at [recv] ([start] on entry), along the turns of
    its loop.  [None] when the turns given end with [Wait] still in its
    loop. *)
Fixpoint Wait (ctx : Context) (start recv : time.Time)
    (turns : list iteration) (clientIP : string) (trl : TwoTierRateLimiter)
  : option (option ctxError) * TwoTierRateLimiter :=
  match turns with
  | [] => (None, trl)
  | it :: turns =>
      let t := wake ctx start recv (evaluated it) in
      match select ctx start recv t (pick it) with
      | CaseDone => (Some (Some (ctxErr ctx)), trl)
      | CaseTick =>
          let '(ok, trl) := TwoTierAllow (readings it) clientIP trl in
          if ok then (Some None, trl)
          else Wait ctx start t turns clientIP trl
      end
  end.

(** The polls ([Allow] calls) [Wait] makes along its turns: for each the
    clock reading at which the tick was received, the clock readings of
    the call and its answer. *)
Fixpoint polls (ctx : Context) (start recv : time.Time)
    (turns : list iteration) (clientIP : string) (trl : TwoTierRateLimiter)
  : list (time.Time * Clock * bool) :=
  match turns with
  | [] => []
  | it :: turns =>
      let t := wake ctx start recv (evaluated it) in
      match select ctx start recv t (pick it) with
      | CaseDone => []
      | CaseTick =>
          let '(ok, trl) := TwoTierAllow (readings it) clientIP trl in
          (t, readings it, ok)
            :: (if ok then [] else polls ctx start t turns clientIP trl)
      end
  end.

(** The clock reading of the last receive from the ticker after the turns
    given ([recv] when no tick was received). *)
Fixpoint received (ctx : Context) (start recv : time.Time)
    (turns : list iteration) (clientIP : string) (trl : TwoTierRateLimiter)
  : time.Time :=
  match turns with
  | [] => recv
  | it :: turns =>
      let t := wake ctx start recv (evaluated it) in
      match select ctx start recv t (pick it) with
      | CaseDone => recv
      | CaseTick =>
          let '(ok, trl) := TwoTierAllow (readings it) clientIP trl in
          if ok then t else received ctx start t turns clientIP trl
      end
  end.

(** The clock is read in order: [Allow] runs after the tick that
    triggers it was received. *)
Definition in_order (t : time.Time) (c : Clock) : Prop :=
  t <= atGlobal c /\ atGlobal c <= atCreate c <= atIP c.

(** ** cleanupIPBuckets *)

(** The period of the ticker [cleanupIPBuckets] creates. *)
Definition cleanupInterval : time.Duration := 10 * time.Minute.

(** The body of the loop of [cleanupIPBuckets], run on a tick of its
    ticker with the clock reading [now]: [Range] visits the entries of the
    registry and the callback deletes those last refilled before the
    cutoff. *)
Definition cleanupIPBuckets (now : time.Time) (trl : TwoTierRateLimiter)
  : TwoTierRateLimiter :=
  let cutoff := time.Add now (-30 * time.Minute) in
  let visit (m : gmap string TokenBucket) (kv : string * TokenBucket) :=
    if time.Before (lastRefill kv.2) cutoff then delete kv.1 m else m in
  set_ipBuckets (foldl visit (ipBuckets trl) (map_to_list (ipBuckets trl))) trl.

End ratelimit.

(* ===================================================================== *)
(** * Package [models] *)
(* ===================================================================== *)

Module models.

Module AdvertiserInfo.
Record t : Type := mk { Domain : string; Count : Z }.
End AdvertiserInfo.

Module DomainAnalysis.
Record t : Type := mk {
    Domain : string;
    TotalAdvertisers : Z;
    Advertisers : list AdvertiserInfo.t;
    Cached : bool;
    Timestamp : time.Time
}.
End DomainAnalysis.

Module BatchAnalysisRequest.
Record t : Type := mk { Domains : list string }.
End BatchAnalysisRequest.

Module DomainResult.
Record t : Type := mk {
    Domain : string;
    TotalAdvertisers : Z;
    Advertisers : list AdvertiserInfo.t;
    Cached : bool;
    Error : string;
    Success : bool;
    Timestamp : time.Time
}.
End DomainResult.

Module BatchSummary.
Record t : Type := mk { Total : Z; Succeeded : Z; Failed : Z }.
End BatchSummary.

Module BatchAnalysisResponse.
Record t : Type := mk {
    Results : list DomainResult.t;
    Summary : BatchSummary.t;
    Advertisers : list AdvertiserInfo.t;
    TotalAdvertisers : Z;
    Timestamp : time.Time
}.
End BatchAnalysisResponse.

Module AdsTxtEntry.
Record t : Type := mk {
    ExchangeDomain : string;
    PublisherID : string;
    AccountType : string;
    CertificationAuth : string
}.
End AdsTxtEntry.

(** Go's [error] values of this program: a plain message
    ([errors.New], [fmt.Errorf]) or a [DomainError] around another
    error. *)
Inductive error : Type :=
  | errorString (msg : string)
  | DomainError (Domain Message : string) (Err : option error).

(** [err.Error()]. *)
Fixpoint Error (e : error) : string :=
  match e with
  | errorString msg => msg
  | DomainError d m None => "domain " +:+ d +:+ ": " +:+ m
  | DomainError d m (Some e) =>
      "domain " +:+ d +:+ ": " +:+ m +:+ ": " +:+ Error e
  end.

Definition NewDomainError (domain message : string) (err : error) : error :=
  DomainError domain message (Some err).

(** The error values of the package. *)
Definition ErrDomainNotFound : error :=
  errorString "ads.txt not found for domain".
Definition ErrInvalidDomain : error := errorString "invalid domain format".
Definition ErrFetchTimeout : error :=
  errorString "timeout while fetching ads.txt".
Definition ErrRateLimitExceeded : error := errorString "rate limit exceeded".
Definition ErrCacheUnavailable : error :=
  errorString "cache service unavailable".
Definition ErrInvalidAdsTxtFormat : error :=
  errorString "invalid ads.txt format".

End models.

(* ===================================================================== *)
(** * Package [parser]: counting *)
(* ===================================================================== *)

Module parser.

Import models.

(** [p.CountAdvertisers(entries)]: [counts[entry.ExchangeDomain]++] for
    every entry, from the empty map (a missing key reads as 0). *)
Definition CountAdvertisers (entries : list AdsTxtEntry.t) : gmap string Z :=
  foldl (fun counts entry =>
           let key := AdsTxtEntry.ExchangeDomain entry in
           <[key := Int64.add (default 0 (counts !! key)) 1]> counts)
        ∅ entries.

End parser.

(* ===================================================================== *)
(** * Package [cache]: the in-memory cache *)
(* ===================================================================== *)

Module cache.

Import models.

(** What the cache holds as [interface{}]: the dynamic types that
    [domainCache.Get] tells apart.  A pointer stands for the object it
    points to; whoever holds the pointer can change the object (see
    [main.AnalyzeDomain]). *)
Inductive value : Type :=
  | AnalysisPtr (a : DomainAnalysis.t)        (* *models.DomainAnalysis *)
  | AnalysisVal (a : DomainAnalysis.t)        (* models.DomainAnalysis *)
  | JSON (s : string)                         (* string *)
  | Other (typeName : string).                (* any other type *)

Record cacheEntry : Type := mkEntry {
  entryValue : value;
  expiresAt : time.Time
}.

(** [MemoryCache]: its [data]. *)
Definition MemoryCache : Type := gmap string cacheEntry.

Definition NewMemoryCache : MemoryCache := ∅.

Section MemoryCache.

(** [Duration.String], which formats the error of [Set]. *)
Variable durationString : time.Duration -> string.

(** [m.Get(ctx, key)] at the clock reading [now]. *)
Definition Get (now : time.Time) (key : string) (m : MemoryCache)
  : value + error :=
  match m !! key with
  | None => inr ErrCacheUnavailable
  | Some entry =>
      if time.After now (expiresAt entry) then inr ErrCacheUnavailable
      else inl (entryValue entry)
  end.

(** [m.Set(ctx, key, value, ttl)] at the clock reading [now]: the error
    and the cache afterwards.  ([Set] is a word of the language here.) *)
Definition Set_ (now : time.Time) (key : string) (v : value)
    (ttl : time.Duration) (m : MemoryCache) : option error * MemoryCache :=
  if ttl <=? 0 then
    (Some (errorString ("TTL must be positive, got: " +:+ durationString ttl)),
     m)
  else (None, <[key := mkEntry v (time.Add now ttl)]> m).

(** [m.Delete(ctx, key)]. *)
Definition Delete (key : string) (m : MemoryCache) : option error * MemoryCache :=
  (None, delete key m).

(** The period of the ticker [cleanupExpired] creates. *)
Definition cleanupInterval : time.Duration := 5 * time.Minute.

(** The body of the loop of [cleanupExpired], run on a tick of its ticker
    with the clock reading [now]. *)
Definition cleanupExpired (now : time.Time) (m : MemoryCache) : MemoryCache :=
  foldl (fun data (kv : string * cacheEntry) =>
           if time.After now (expiresAt kv.2) then delete kv.1 data else data)
        m (map_to_list m).

(** [m.Size()]. *)
Definition Size (m : MemoryCache) : Z := Z.of_nat (size m).

End MemoryCache.

End cache.

(* ===================================================================== *)
(** * Package [domainCache] over the in-memory cache *)
(* ===================================================================== *)

Module domainCache.

Import models.

(** [domainCache]: its default TTL (its [cache] is the [MemoryCache]
    passed along). *)
Record t : Type := New { ttl : time.Duration }.

(** [fmt.Sprintf("domain:%s", domain)]. *)
Definition cacheKey (domain : string) : string := "domain:" +:+ domain.

Section DomainCache.

Variable durationString : time.Duration -> string.
(** [json.Unmarshal] into a [models.DomainAnalysis]. *)
Variable unmarshal : string -> DomainAnalysis.t + error.

(** [d.Get(ctx, domain)]. *)
Definition Get (now : time.Time) (domain : string) (m : cache.MemoryCache)
  : DomainAnalysis.t + error :=
  match cache.Get now (cacheKey domain) m with
  | inr err => inr err
  | inl (cache.AnalysisPtr v) => inl v
  | inl (cache.AnalysisVal v) => inl v
  | inl (cache.JSON v) =>
      match unmarshal v with
      | inr err =>
          inr (errorString ("failed to unmarshal cached domain analysis: "
                            +:+ Error err))
      | inl analysis => inl analysis
      end
  | inl (cache.Other typeName) =>
      inr (errorString ("unexpected type in cache: " +:+ typeName))
  end.

(** [d.Set(ctx, domain, analysis, ttl)]. *)
Definition Set_ (d : t) (now : time.Time) (domain : string)
    (analysis : DomainAnalysis.t) (ttl : time.Duration)
    (m : cache.MemoryCache) : option error * cache.MemoryCache :=
  let cacheTTL := if ttl =? 0 then domainCache.ttl d else ttl in
  cache.Set_ durationString now (cacheKey domain) (cache.AnalysisPtr analysis)
            cacheTTL m.

(** [d.Delete(ctx, domain)]. *)
Definition Delete (domain : string) (m : cache.MemoryCache)
  : option error * cache.MemoryCache :=
  cache.Delete (cacheKey domain) m.

End DomainCache.

End domainCache.

(* ===================================================================== *)
(** * Package [domainAnalysis] *)
(* ===================================================================== *)

Module domainAnalysis.

Import models.

(** The collaborators of one [AnalyzeDomain] call, as that call observes
    them: the domain cache, the fetcher, the parser and the wall clock.
    (The logger is fire-and-forget and returns nothing.) *)
Record Deps : Type := mkDeps {
  cacheGet : string -> DomainAnalysis.t + error;
  fetch : string -> string + error;
  parse : string -> list AdsTxtEntry.t + error;
  countAdvertisers : list AdsTxtEntry.t -> gmap string Z;
  cacheSet : string -> DomainAnalysis.t -> option error;
  clock : time.Time
}.

Record Service : Type := mkService { maxConcurrent : Z }.

(** The [less] function handed to [sort.Slice]: count descending, then
    domain ascending (Go compares strings byte by byte). *)
Definition less (a b : AdvertiserInfo.t) : bool :=
  if AdvertiserInfo.Count a =? AdvertiserInfo.Count b
  then String.ltb (AdvertiserInfo.Domain a) (AdvertiserInfo.Domain b)
  else AdvertiserInfo.Count b <? AdvertiserInfo.Count a.

(** "[a] may stand before [b]": [b] is not less than [a]. *)
Definition before (a b : AdvertiserInfo.t) : Prop := less b a = false.

#[global] Instance before_dec a b : Decision (before a b).
Proof. unfold before. apply _. Defined.

(** [sort.Slice(advertisers, less)]. *)
Definition sortSlice (l : list AdvertiserInfo.t) : list AdvertiserInfo.t :=
  merge_sort before l.

(** [for domain, count := range m { append ...; totalCount += count }].
    Go ranges over a map in an unspecified order; the model takes the
    order of [map_to_list] (see [rangeCounts_order] below: neither the
    total nor the sorted slice depends on it). *)
Definition rangeCounts (l : list (string * Z)) : list AdvertiserInfo.t * Z :=
  foldl (fun '(advertisers, totalCount) '(domain, count) =>
           (advertisers ++ [AdvertiserInfo.mk domain count],
            Int64.add totalCount count))
        ([], 0) l.

Definition buildAnalysis (d : Deps) (domain : string)
    (entries : list AdsTxtEntry.t) : DomainAnalysis.t :=
  let counts := countAdvertisers d entries in
  let '(advertisers, totalCount) := rangeCounts (map_to_list counts) in
  DomainAnalysis.mk domain totalCount (sortSlice advertisers) false (clock d).

(** [s.AnalyzeDomain(ctx, domain)]. *)
Definition AnalyzeDomain (d : Deps) (domain : string)
  : DomainAnalysis.t + error :=
  match cacheGet d domain with
  | inl cached =>
      inl (DomainAnalysis.mk (DomainAnalysis.Domain cached)
             (DomainAnalysis.TotalAdvertisers cached)
             (DomainAnalysis.Advertisers cached)
             true
             (DomainAnalysis.Timestamp cached))
  | inr _ =>
      match fetch d domain with
      | inr err => inr (NewDomainError domain "failed to fetch ads.txt" err)
      | inl content =>
          match parse d content with
          | inr err => inr (NewDomainError domain "failed to parse ads.txt" err)
          | inl entries =>
              let analysis := buildAnalysis d domain entries in
              (* a failing [Set] is logged and nothing else *)
              let _ := cacheSet d domain analysis in
              inl analysis
          end
      end
  end.

(** The body of one worker goroutine of [AnalyzeDomains]: the
    [DomainResult] it sends. *)
Definition worker (d : Deps) (dom : string) : DomainResult.t :=
  match AnalyzeDomain d dom with
  | inr err =>
      DomainResult.mk dom 0 [] false (Error err) false (clock d)
  | inl analysis =>
      DomainResult.mk dom
        (DomainAnalysis.TotalAdvertisers analysis)
        (DomainAnalysis.Advertisers analysis)
        (DomainAnalysis.Cached analysis)
        ""
        true
        (DomainAnalysis.Timestamp analysis)
  end.

(** [advertiserCounts[advertiser.Domain] += advertiser.Count]. *)
Definition addCount (m : gmap string Z) (a : AdvertiserInfo.t) : gmap string Z :=
  <[AdvertiserInfo.Domain a :=
      Int64.add (default 0 (m !! AdvertiserInfo.Domain a))
                (AdvertiserInfo.Count a)]> m.

(** The state of the aggregator's first loop. *)
Record aggState : Type := mkAgg {
  results : list DomainResult.t;
  advertiserCounts : gmap string Z;
  summary : BatchSummary.t
}.

Definition aggStep (st : aggState) (result : DomainResult.t) : aggState :=
  let s := summary st in
  if DomainResult.Success result then
    mkAgg (results st ++ [result])
          (foldl addCount (advertiserCounts st) (DomainResult.Advertisers result))
          (BatchSummary.mk (BatchSummary.Total s)
                           (Int64.add (BatchSummary.Succeeded s) 1)
                           (BatchSummary.Failed s))
  else
    mkAgg (results st ++ [result])
          (advertiserCounts st)
          (BatchSummary.mk (BatchSummary.Total s)
                           (BatchSummary.Succeeded s)
                           (Int64.add (BatchSummary.Failed s) 1)).

(** [s.aggregateResults(resultsChan, totalDomains, responseChan)]:
    [arrived] lists what the channel delivers until it is closed, in
    order; the value is what is sent on [responseChan]. *)
Definition aggregateResults (arrived : list DomainResult.t)
    (totalDomains : Z) (now : time.Time) : BatchAnalysisResponse.t :=
  let st := foldl aggStep
              (mkAgg [] ∅ (BatchSummary.mk totalDomains 0 0)) arrived in
  let '(advertisers, totalCount) :=
    rangeCounts (map_to_list (advertiserCounts st)) in
  BatchAnalysisResponse.mk (results st) (summary st)
    (sortSlice advertisers) totalCount now.

(** How a call ends. *)
Inductive outcome (A : Type) : Type :=
  | Returns (a : A)
  | Panics
  | Blocks.
Arguments Returns {A} a.
Arguments Panics {A}.
Arguments Blocks {A}.

(** What the workers send, worker [i] running with collaborators
    [deps i]. *)
Definition sent (deps : nat -> Deps) (domains : list string)
  : list DomainResult.t :=
  imap (fun i dom => worker (deps i) dom) domains.

(** [s.AnalyzeDomains(ctx, domains)].

    The goroutines are modelled by what they exchange: every worker that
    gets a slot of the semaphore sends one result, and [sched] gives the
    order in which the results channel delivers them.  A semaphore of
    capacity 0 admits no worker, so that nothing is ever sent and the
    call blocks on [responseChan]; a negative capacity makes [make]
    panic.  The second component lists the domains the pipeline
    ([AnalyzeDomain]) was invoked on. *)
Definition AnalyzeDomains (s : Service) (deps : nat -> Deps)
    (sched : list DomainResult.t -> list DomainResult.t)
    (now : time.Time) (domains : list string)
  : outcome (BatchAnalysisResponse.t * option error) * list string :=
  if (length domains =? 0)%nat then
    (Returns (BatchAnalysisResponse.mk [] (BatchSummary.mk 0 0 0) [] 0 now,
              None),
     [])
  else if maxConcurrent s <? 0 then (Panics, [])
  else if maxConcurrent s =? 0 then (Blocks, [])
  else
    let response :=
      aggregateResults (sched (sent deps domains))
                       (Z.of_nat (length domains)) now in
    (Returns (response, None), domains).

End domainAnalysis.

(* ===================================================================== *)
(** * The service as [main] wires it *)
(* ===================================================================== *)

Module main.

Import models.

(** What [main] hands to [domainAnalysis.NewService], as far as
    [AnalyzeDomain] goes: the domain cache over the in-memory cache, the
    fetcher and the parser. *)
Record Wiring : Type := mkWiring {
  domainCacheService : domainCache.t;
  fetch : string -> string + error;
  parse : string -> list AdsTxtEntry.t + error;
  unmarshal : string -> DomainAnalysis.t + error;
  durationString : time.Duration -> string
}.

(** The clock readings of one [AnalyzeDomain]: in the cache's [Get], in
    [buildAnalysis] and in the cache's [Set]. *)
Record Clock : Type := mkClock {
  atGet : time.Time;
  atBuild : time.Time;
  atSet : time.Time
}.

(** The collaborators of one call, as [domainAnalysis.AnalyzeDomain]
    takes them, for the cache [m]. *)
Definition deps (w : Wiring) (c : Clock) (m : cache.MemoryCache)
  : domainAnalysis.Deps :=
  domainAnalysis.mkDeps
    (fun domain => domainCache.Get (unmarshal w) (atGet c) domain m)
    (fetch w) (parse w) parser.CountAdvertisers
    (fun domain analysis =>
       (domainCache.Set_ (durationString w) (domainCacheService w) (atSet c)
          domain analysis 0 m).1)
    (atBuild c).

(** [cached.Cached = true], seen from the cache: when [Get] handed out
    the stored pointer, the stored object changes. *)
Definition markCached (key : string) (m : cache.MemoryCache)
  : cache.MemoryCache :=
  match m !! key with
  | Some (cache.mkEntry (cache.AnalysisPtr a) expires) =>
      <[key := cache.mkEntry
                 (cache.AnalysisPtr
                    (DomainAnalysis.mk (DomainAnalysis.Domain a)
                       (DomainAnalysis.TotalAdvertisers a)
                       (DomainAnalysis.Advertisers a)
                       true
                       (DomainAnalysis.Timestamp a)))
                 expires]> m
  | _ => m
  end.

(** [s.AnalyzeDomain(ctx, domain)] with the cache threaded: what it
    returns and the cache afterwards. *)
Definition AnalyzeDomain (w : Wiring) (c : Clock) (domain : string)
    (m : cache.MemoryCache)
  : (DomainAnalysis.t + error) * cache.MemoryCache :=
  match domainCache.Get (unmarshal w) (atGet c) domain m with
  | inl cached =>
      (inl (DomainAnalysis.mk (DomainAnalysis.Domain cached)
              (DomainAnalysis.TotalAdvertisers cached)
              (DomainAnalysis.Advertisers cached)
              true
              (DomainAnalysis.Timestamp cached)),
       markCached (domainCache.cacheKey domain) m)
  | inr _ =>
      match fetch w domain with
      | inr err =>
          (inr (NewDomainError domain "failed to fetch ads.txt" err), m)
      | inl content =>
          match parse w content with
          | inr err =>
              (inr (NewDomainError domain "failed to parse ads.txt" err), m)
          | inl entries =>
              let analysis :=
                domainAnalysis.buildAnalysis (deps w c m) domain entries in
              (* a failing [Set] is logged and nothing else *)
              (inl analysis,
               (domainCache.Set_ (durationString w) (domainCacheService w)
                  (atSet c) domain analysis 0 m).2)
          end
      end
  end.

End main.

(* ===================================================================== *)
(** * Package [http]: the batch handler *)
(* ===================================================================== *)

Module http.

Import models.

Definition StatusOK : Z := 200.
Definition StatusMultiStatus : Z := 207.
Definition StatusBadRequest : Z := 400.
Definition StatusInternalServerError : Z := 500.

(** [domainAnalysis.AnalysisService], the part the batch handler
    calls. *)
Class AnalysisService : Type := {
  AnalyzeDomains : list string -> BatchAnalysisResponse.t * option error
}.

Record ErrorResponse : Type := mkErrorResponse {
  Error : string;
  Message : string;
  Timestamp : time.Time
}.

Inductive body : Type :=
  | ErrorBody (e : ErrorResponse)
  | BatchBody (r : BatchAnalysisResponse.t).

(** What the handler writes, and the calls it made to
    [AnalyzeDomains]. *)
Record written : Type := mkWritten {
  statusCode : Z;
  payload : body;
  serviceCalls : list (list string)
}.

Definition writeErrorResponse (now : time.Time) (code : Z)
    (error message : string) (calls : list (list string)) : written :=
  mkWritten code (ErrorBody (mkErrorResponse error message now)) calls.

Definition getBatchStatusCode (response : BatchAnalysisResponse.t) : Z :=
  let s := BatchAnalysisResponse.Summary response in
  if BatchSummary.Failed s =? 0 then StatusOK
  else if BatchSummary.Succeeded s =? 0 then StatusBadRequest
  else StatusMultiStatus.

(** [h.AnalyzeBatchDomains(w, r)]: [decoded] is what
    [json.NewDecoder(r.Body).Decode(&request)] gives. *)
Definition AnalyzeBatchDomains `{AnalysisService} (now : time.Time)
    (decoded : BatchAnalysisRequest.t + error) : written :=
  match decoded with
  | inr err =>
      writeErrorResponse now StatusBadRequest "invalid request body"
        (models.Error err) []
  | inl request =>
      let domains := BatchAnalysisRequest.Domains request in
      if (length domains =? 0)%nat then
        writeErrorResponse now StatusBadRequest
          "domains array cannot be empty" "" []
      else if (100 <? length domains)%nat then
        writeErrorResponse now StatusBadRequest
          "too many domains" "Maximum 100 domains per batch" []
      else
        match AnalyzeDomains domains with
        | (_, Some err) =>
            writeErrorResponse now StatusInternalServerError
              "batch analysis failed" (models.Error err) [domains]
        | (response, None) =>
            mkWritten (getBatchStatusCode response) (BatchBody response)
                      [domains]
        end
  end.

(** ** The single-domain handler *)

Definition StatusNotFound : Z := 404.
Definition StatusRequestTimeout : Z := 408.
Definition StatusTooManyRequests : Z := 429.

(** [strings.Contains(s, substr)]: [substr] occurs in [s]. *)
Fixpoint Contains (s substr : string) : bool :=
  String.prefix substr s
  || match s with
     | EmptyString => false
     | String _ s' => Contains s' substr
     end.

Definition getStatusCodeForError (err : error) : Z :=
  let msg := models.Error err in
  if Contains msg "not found" || Contains msg "404" then StatusNotFound
  else if Contains msg "timeout" then StatusRequestTimeout
  else if Contains msg "invalid domain" then StatusBadRequest
  else if Contains msg "rate limit" then StatusTooManyRequests
  else StatusInternalServerError.

(** [domainAnalysis.AnalysisService], the part the single-domain handler
    calls. *)
Class DomainAnalysisService : Type := {
  AnalyzeDomain : string -> DomainAnalysis.t + error
}.

(** What the single-domain handler writes, and the domains it called
    [AnalyzeDomain] with. *)
Record reply : Type := mkReply {
  replyStatus : Z;
  replyBody : DomainAnalysis.t + ErrorResponse;
  analyzed : list string
}.

(** [h.AnalyzeSingleDomain(w, r)]: [domain] is [mux.Vars(r)["domain"]],
    the empty string when the route has no such variable. *)
Definition AnalyzeSingleDomain `{DomainAnalysisService} (now : time.Time)
    (domain : string) : reply :=
  if String.eqb domain "" then
    mkReply StatusBadRequest
            (inr (mkErrorResponse "domain is required" "" now)) []
  else
    match AnalyzeDomain domain with
    | inr err =>
        mkReply (getStatusCodeForError err)
                (inr (mkErrorResponse "analysis failed" (models.Error err) now))
                [domain]
    | inl analysis => mkReply StatusOK (inl analysis) [domain]
    end.

End http.

(* ===================================================================== *)
(** * Vocabulary of the properties *)
(* ===================================================================== *)

Module props.

Import ratelimit.

(** The fields of a bucket hold [int64] values. *)
Definition int64_bucket (tb : TokenBucket) : Prop :=
  Int64.in_range (capacity tb) /\ Int64.in_range (tokens tb) /\
  Int64.in_range (refillRate tb) /\ Int64.in_range (lastRefill tb).

(** The capacity invariant of the data model. *)
Definition bucket_inv (tb : TokenBucket) : Prop :=
  0 <= tokens tb <= capacity tb.

(** What can happen to the global bucket: an [Allow] at some clock
    reading, or the compensation of [returnGlobalToken]. *)
Inductive bucket_op : Type :=
| OpAllow (now : time.Time)
| OpReturnToken.

Definition apply_op (trl : TwoTierRateLimiter) (op : bucket_op)
  : TwoTierRateLimiter :=
  match op with
  | OpAllow now => set_global (snd (Allow now (globalBucket trl))) trl
  | OpReturnToken => returnGlobalToken trl
  end.

Definition run_ops (ops : list bucket_op) (trl : TwoTierRateLimiter)
  : TwoTierRateLimiter :=
  foldl apply_op trl ops.

(** Consecutive [Allow] calls on one bucket, at the given clock
    readings: the answers and the bucket afterwards. *)
Fixpoint allows (nows : list time.Time) (tb : TokenBucket)
  : list bool * TokenBucket :=
  match nows with
  | [] => ([], tb)
  | now :: nows =>
      let '(ok, tb) := Allow now tb in
      let '(oks, tb) := allows nows tb in
      (ok :: oks, tb)
  end.

(** Consecutive requests of one client. *)
Fixpoint requests (cs : list Clock) (clientIP : string)
    (trl : TwoTierRateLimiter) : list bool * TwoTierRateLimiter :=
  match cs with
  | [] => ([], trl)
  | c :: cs =>
      let '(ok, trl) := TwoTierAllow c clientIP trl in
      let '(oks, trl) := requests cs clientIP trl in
      (ok :: oks, trl)
  end.

(** The limiter after [k] admitted requests of [clientIP], all made at the
    instant [t] at which it was built with global capacity [G] and per-IP
    capacity [P]. *)
Definition burst_state (G gr P pr : Z) (t : time.Time) (clientIP : string)
    (k : Z) (trl : TwoTierRateLimiter) : Prop :=
  globalBucket trl = mkTokenBucket G (G - k) gr t /\
  perIPCapacity trl = P /\ perIPRate trl = pr /\
  match ipBuckets trl !! clientIP with
  | None => k = 0
  | Some b => b = mkTokenBucket P (P - k) pr t
  end.

(** The limiter in a burst at the instant [t] of its construction, with
    [g] tokens left in the global bucket: no bucket has been refilled. *)
Definition in_burst (G gr P pr : Z) (t : time.Time) (g : Z)
    (trl : TwoTierRateLimiter) : Prop :=
  globalBucket trl = mkTokenBucket G g gr t /\ 0 <= g <= G /\
  perIPCapacity trl = P /\ perIPRate trl = pr /\
  forall ip b, ipBuckets trl !! ip = Some b ->
    b = mkTokenBucket P (tokens b) pr t /\ 0 <= tokens b <= P.

(** A tier of the limiter has no capacity: the global bucket, or every
    per-IP bucket there is or will be. *)
Definition no_capacity (trl : TwoTierRateLimiter) : Prop :=
  (tokens (globalBucket trl) <= capacity (globalBucket trl)
   /\ capacity (globalBucket trl) <= 0)
  \/
  (perIPCapacity trl <= 0 /\
   map_Forall (fun _ b => tokens b <= capacity b /\ capacity b <= 0)
              (ipBuckets trl)).

(** ** Aggregation *)

Import models.

Definition zsum (l : list Z) : Z := foldr Z.add 0 l.

(** The results that succeeded, in order. *)
Definition succeeded (l : list DomainResult.t) : list DomainResult.t :=
  filter (fun r => DomainResult.Success r = true) l.

(** Every advertiser entry of every succeeded result. *)
Definition listed (l : list DomainResult.t) : list AdvertiserInfo.t :=
  concat (fmap DomainResult.Advertisers (succeeded l)).

(** The sum of the counts an advertiser domain has in a list of
    entries. *)
Definition countFor (d : string) (l : list AdvertiserInfo.t) : Z :=
  zsum (fmap AdvertiserInfo.Count
          (filter (fun a => AdvertiserInfo.Domain a = d) l)).

(** Count descending, and domain ascending among equal counts. *)
Definition ordered (a b : AdvertiserInfo.t) : Prop :=
  AdvertiserInfo.Count b < AdvertiserInfo.Count a \/
  (AdvertiserInfo.Count a = AdvertiserInfo.Count b /\
   String.compare (AdvertiserInfo.Domain a) (AdvertiserInfo.Domain b) = Lt).

(** A key and its value in the map of counts, as an entry of the
    advertiser list. *)
Definition entry (p : string * Z) : AdvertiserInfo.t :=
  AdvertiserInfo.mk p.1 p.2.

(** The number of entries of an ads.txt file that name the exchange
    domain [d]. *)
Definition occurrences (d : string) (entries : list AdsTxtEntry.t) : nat :=
  length (filter (fun e => AdsTxtEntry.ExchangeDomain e = d) entries).

(** An analysis whose total is the sum, in Go's [int] arithmetic, of the
    counts of its advertiser list. *)
Definition consistent (a : DomainAnalysis.t) : Prop :=
  DomainAnalysis.TotalAdvertisers a
  = Int64.wrap (zsum (fmap AdvertiserInfo.Count (DomainAnalysis.Advertisers a))).

(** The analysis of the [i]-th domain of a batch succeeds. *)
Definition analysed (deps : nat -> domainAnalysis.Deps) (i : nat) (dom : string)
  : Prop :=
  exists a, domainAnalysis.AnalyzeDomain (deps i) dom = inl a.

(** ** Runs of the limiter *)

(** Consecutive requests of any clients, each with its clock readings:
    the answers and the limiter afterwards. *)
Fixpoint serve (reqs : list (Clock * string)) (trl : TwoTierRateLimiter)
  : list bool * TwoTierRateLimiter :=
  match reqs with
  | [] => ([], trl)
  | (c, ip) :: reqs =>
      let '(ok, trl) := TwoTierAllow c ip trl in
      let '(oks, trl) := serve reqs trl in
      (ok :: oks, trl)
  end.

(** The number of admitted requests among [reqs], [oks] being the
    answers. *)
Definition admitted (reqs : list (Clock * string)) (oks : list bool) : nat :=
  length (filter (fun p => p.2 = true) (zip reqs oks)).

(** The number of admitted requests of the client [ip]. *)
Definition admittedOf (ip : string) (reqs : list (Clock * string))
    (oks : list bool) : nat :=
  length (filter (fun p => p.1.2 = ip /\ p.2 = true) (zip reqs oks)).

(** The limiter has global capacity [G] and per-IP capacity [P], its
    fields hold [int64] values, and no bucket holds more tokens than its
    capacity. *)
Definition limiter_inv (G P : Z) (trl : TwoTierRateLimiter) : Prop :=
  int64_bucket (globalBucket trl) /\
  capacity (globalBucket trl) = G /\ tokens (globalBucket trl) <= G /\
  Int64.in_range (perIPCapacity trl) /\ perIPCapacity trl = P /\
  Int64.in_range (perIPRate trl) /\
  map_Forall (fun _ b => int64_bucket b /\ capacity b = P /\ tokens b <= P)
             (ipBuckets trl).

(** The clock readings of a request are [int64] values. *)
Definition int64_clock (c : Clock) : Prop :=
  Int64.in_range (atGlobal c) /\ Int64.in_range (atCreate c) /\
  Int64.in_range (atIP c).

(** What happens to a limiter: a request, or a tick of the ticker of
    [cleanupIPBuckets]. *)
Inductive event : Type :=
| Request (c : Clock) (clientIP : string)
| Cleanup (now : time.Time).

Definition step (trl : TwoTierRateLimiter) (ev : event) : TwoTierRateLimiter :=
  match ev with
  | Request c ip => (TwoTierAllow c ip trl).2
  | Cleanup now => cleanupIPBuckets now trl
  end.

Definition int64_event (ev : event) : Prop :=
  match ev with
  | Request c _ => int64_clock c
  | Cleanup _ => True
  end.

(** The tokens the client [ip] can still take: those of its bucket, or
    of the bucket its next request would create. *)
Definition available (ip : string) (trl : TwoTierRateLimiter) : Z :=
  match ipBuckets trl !! ip with
  | Some b => tokens b
  | None => perIPCapacity trl
  end.

End props.

(* ===================================================================== *)
(** * Properties: machine integers and conversions *)
(* ===================================================================== *)

Section Int64Facts.

Lemma wrap_in_range z : Int64.in_range z -> Int64.wrap z = z.
Proof.
    unfold Int64.in_range, Int64.wrap, Int64.MinInt64, Int64.MaxInt64.
    intros H. rewrite Z.mod_small; lia.
Qed.

Lemma wrap_range z : Int64.in_range (Int64.wrap z).
Proof.
    unfold Int64.in_range, Int64.wrap, Int64.MinInt64, Int64.MaxInt64.
    pose proof (Z.mod_pos_bound (z + 2 ^ 63) (2 ^ 64) ltac:(lia)). lia.
Qed.

Lemma in_rangeb_spec z : Int64.in_rangeb z = true <-> Int64.in_range z.
Proof. unfold Int64.in_rangeb, Int64.in_range. rewrite andb_true_iff. lia. Qed.

Lemma min_spec a b : ratelimit.min a b = Z.min a b.
Proof. unfold ratelimit.min. destruct (Z.ltb_spec a b); lia. Qed.

End Int64Facts.

Section Float64Facts.

Import Float64.

Lemma pow2_pos e : 0 < 2 ^ e \/ 2 ^ e = 0.
Proof. destruct (Z.le_gt_cases 0 e); [left; apply Z.pow_pos_nonneg; lia | right; apply Z.pow_neg_r; lia]. Qed.

(** Truncation and floor agree on what [refill] looks at: whether the
    amount is positive, and the amount when it is. *)
Lemma trunc_floor x t f :
    trunc x = Some t -> floor x = Some f ->
    (0 < t <-> 0 < f) /\ (0 < f -> t = f).
Proof.
    destruct x as [s | s | | s m e]; simpl; try discriminate.
    - intros [= <-] [= <-]. lia.
    - intros [= <-] [= <-]. destruct s.
      + destruct (Z.leb_spec 0 e).
        * assert (0 < 2 ^ e) by (apply Z.pow_pos_nonneg; lia).
          split; [split|]; nia.
        * assert (0 < 2 ^ (- e)) by (apply Z.pow_pos_nonneg; lia).
          assert (0 <= Z.pos m / 2 ^ (- e)) by (apply Z.div_pos; lia).
          assert (Z.neg m / 2 ^ (- e) < 0) by (apply Z.div_lt_upper_bound; lia).
          lia.
      + split; [reflexivity | auto].
Qed.

Lemma to_int64_fits x t :
    trunc x = Some t -> Int64.in_range t -> to_int64 x = t.
Proof.
    intros Ht Hr. unfold to_int64. rewrite Ht.
    apply in_rangeb_spec in Hr. now rewrite Hr.
Qed.

Lemma to_int64_range x : Int64.in_range (to_int64 x).
Proof.
    unfold to_int64. destruct (trunc x) as [z|].
    - destruct (Int64.in_rangeb z) eqn:E.
      + now apply in_rangeb_spec.
      + unfold Int64.in_range, Int64.MinInt64, Int64.MaxInt64. lia.
    - unfold Int64.in_range, Int64.MinInt64, Int64.MaxInt64. lia.
Qed.

End Float64Facts.

(* ===================================================================== *)
(** * Properties: TokenBucket *)
(* ===================================================================== *)

Section TokenBucketFacts.

Import ratelimit props.

Lemma sub_one_in_range n :
  Int64.in_range n -> 0 < n -> Int64.sub n 1 = n - 1.
Proof.
  intros Hr Hn. unfold Int64.sub. apply wrap_in_range.
  unfold Int64.in_range, Int64.MinInt64, Int64.MaxInt64 in *. lia.
Qed.

Lemma add_one_below n c :
  Int64.in_range c -> Int64.in_range n -> n < c -> Int64.add n 1 = n + 1.
Proof.
  intros Hc Hr Hn. unfold Int64.add. apply wrap_in_range.
  unfold Int64.in_range, Int64.MinInt64, Int64.MaxInt64 in *. lia.
Qed.

Lemma Sub_same t : time.Sub t t = 0.
Proof.
  unfold time.Sub, Int64.sub. rewrite Z.sub_diag. reflexivity.
Qed.

(** No time elapsed: nothing accrues. *)
Lemma tokensToAdd_same_instant t tb :
  lastRefill tb = t -> tokensToAdd t tb <= 0.
Proof.
  intros <-. unfold tokensToAdd, accrued. rewrite Sub_same.
  change (time.Seconds 0) with (S754_zero false).
  destruct (Float64.of_int (refillRate tb)); vm_compute; congruence.
Qed.

Lemma refill_no_accrual now tb :
  tokensToAdd now tb <= 0 -> refill now tb = tb.
Proof.
  intros H. unfold refill. destruct (Z.ltb_spec 0 (tokensToAdd now tb)); [lia | reflexivity].
Qed.

Lemma refill_int64 now tb :
  int64_bucket tb -> Int64.in_range now -> int64_bucket (refill now tb).
Proof.
  intros Hb Hn. unfold refill.
  destruct (0 <? tokensToAdd now tb); [| assumption].
  pose proof (wrap_range (tokens tb + tokensToAdd now tb)) as Hw.
  unfold int64_bucket, Int64.add, Int64.in_range in *. simpl.
  rewrite min_spec. lia.
Qed.

Lemma refill_tokens_in_range now tb :
  int64_bucket tb -> Int64.in_range (tokens (refill now tb)).
Proof.
  intros (Hc & Ht & Hr & Hl). unfold refill.
  destruct (0 <? tokensToAdd now tb); [| assumption].
  simpl. rewrite min_spec.
  pose proof (wrap_range (tokens tb + tokensToAdd now tb)) as Hw.
  unfold Int64.add, Int64.in_range in *. lia.
Qed.

(** The shape of [Allow] in terms of [refill]. *)
Lemma Allow_after_refill now tb :
  int64_bucket tb ->
  let r := refill now tb in
  (0 < tokens r -> Allow now tb = (true, set_tokens (tokens r - 1) r)) /\
  (tokens r <= 0 -> Allow now tb = (false, r)).
Proof.
  intros Hb r. pose proof (refill_tokens_in_range now tb Hb) as Hr.
  fold r in Hr. unfold Allow. fold r.
  split; intros H.
  - destruct (Z.ltb_spec 0 (tokens r)); [| lia].
    now rewrite sub_one_in_range.
  - destruct (Z.ltb_spec 0 (tokens r)); [lia | reflexivity].
Qed.

End TokenBucketFacts.

(* ===================================================================== *)
(** * Properties: the capacity invariant *)
(* ===================================================================== *)

Section InvariantFacts.

Import ratelimit props.

(** The upper half of the invariant survives every [Allow]. *)
Lemma Allow_le_capacity now tb :
  int64_bucket tb -> tokens tb <= capacity tb ->
  tokens (snd (Allow now tb)) <= capacity (snd (Allow now tb)).
Proof.
  intros Hb Hle.
  pose proof (refill_tokens_in_range now tb Hb) as Hr.
  assert (Hrc : tokens (refill now tb) <= capacity (refill now tb)).
  { unfold refill. destruct (0 <? tokensToAdd now tb); [| exact Hle].
    simpl. rewrite min_spec. lia. }
  unfold Allow. destruct (Z.ltb_spec 0 (tokens (refill now tb))); simpl.
  - rewrite sub_one_in_range by assumption. lia.
  - exact Hrc.
Qed.

Lemma Allow_int64 now tb :
  int64_bucket tb -> Int64.in_range now -> int64_bucket (snd (Allow now tb)).
Proof.
  intros Hb Hn. pose proof (refill_int64 now tb Hb Hn) as Hr.
  unfold Allow. destruct (Z.ltb_spec 0 (tokens (refill now tb))); simpl; [| exact Hr].
  unfold int64_bucket in *. simpl.
  rewrite sub_one_in_range by tauto.
  unfold Int64.in_range, Int64.MinInt64, Int64.MaxInt64 in *. lia.
Qed.

(** ... and the compensation of the two-tier limiter. *)
Lemma returnGlobalToken_le_capacity trl :
  int64_bucket (globalBucket trl) ->
  tokens (globalBucket trl) <= capacity (globalBucket trl) ->
  tokens (globalBucket (returnGlobalToken trl))
    <= capacity (globalBucket (returnGlobalToken trl)).
Proof.
  intros Hb Hle. unfold returnGlobalToken.
  destruct (Z.ltb_spec (tokens (globalBucket trl)) (capacity (globalBucket trl)));
    simpl; [| exact Hle].
  unfold int64_bucket in Hb.
  rewrite (add_one_below _ (capacity (globalBucket trl))) by tauto. lia.
Qed.

Lemma returnGlobalToken_int64 trl :
  int64_bucket (globalBucket trl) ->
  int64_bucket (globalBucket (returnGlobalToken trl)).
Proof.
  intros Hb. unfold returnGlobalToken.
  destruct (Z.ltb_spec (tokens (globalBucket trl)) (capacity (globalBucket trl)));
    simpl; [| exact Hb].
  unfold int64_bucket in *. simpl.
  rewrite (add_one_below _ (capacity (globalBucket trl))) by tauto.
  unfold Int64.in_range, Int64.MinInt64, Int64.MaxInt64 in *. lia.
Qed.

(** The whole invariant survives an [Allow] whose refill does not
    overflow. *)
Lemma Allow_bucket_inv now tb :
  int64_bucket tb -> bucket_inv tb ->
  tokens tb + tokensToAdd now tb <= Int64.MaxInt64 ->
  bucket_inv (snd (Allow now tb)).
Proof.
  intros Hb [Hlo Hhi] Hov.
  pose proof (refill_tokens_in_range now tb Hb) as Hr.
  assert (Hinv : bucket_inv (refill now tb)).
  { unfold refill, bucket_inv.
    destruct (Z.ltb_spec 0 (tokensToAdd now tb)); [| simpl; lia].
    simpl. rewrite min_spec. unfold Int64.add.
    rewrite wrap_in_range;
      [lia | unfold Int64.in_range, Int64.MinInt64, Int64.MaxInt64 in *; lia]. }
  unfold Allow, bucket_inv in *.
  destruct (Z.ltb_spec 0 (tokens (refill now tb))); simpl; [| exact Hinv].
  rewrite sub_one_in_range by assumption. lia.
Qed.

Lemma returnGlobalToken_bucket_inv trl :
  int64_bucket (globalBucket trl) -> bucket_inv (globalBucket trl) ->
  bucket_inv (globalBucket (returnGlobalToken trl)).
Proof.
  intros Hb [Hlo Hhi]. unfold returnGlobalToken, bucket_inv.
  destruct (Z.ltb_spec (tokens (globalBucket trl)) (capacity (globalBucket trl)));
    simpl; [| lia].
  unfold int64_bucket in Hb.
  rewrite (add_one_below _ (capacity (globalBucket trl))) by tauto. lia.
Qed.

(** Whatever the sequence of [Allow] calls and compensations, the global
    bucket never holds more than its capacity. *)
Lemma run_ops_le_capacity ops trl :
  Forall (fun op => match op with OpAllow now => Int64.in_range now | _ => True end) ops ->
  int64_bucket (globalBucket trl) ->
  tokens (globalBucket trl) <= capacity (globalBucket trl) ->
  tokens (globalBucket (run_ops ops trl))
    <= capacity (globalBucket (run_ops ops trl)).
Proof.
  unfold run_ops. intros Hops. revert trl.
  induction Hops as [| op ops Hop _ IH]; intros trl Hb Hle; [exact Hle |].
  simpl. destruct op as [now |]; simpl.
  - apply IH; simpl; [now apply Allow_int64 | now apply Allow_le_capacity].
  - apply IH; [now apply returnGlobalToken_int64 | now apply returnGlobalToken_le_capacity].
Qed.

End InvariantFacts.

(** C2.  A bucket of capacity [2 ^ 62] refilled at [2 ^ 62] tokens a
    second (the limiter is built with its rate as its capacity), asked one
    second and a half after its creation: the refill adds [3 * 2 ^ 61]
    tokens to the [2 ^ 62] that are there, the [int64] sum wraps around,
    and the bucket is left with a negative token count. *)
Theorem Allow_overflow_breaks_invariant :
  let tb := ratelimit.NewTokenBucket 0 (2 ^ 62) (2 ^ 62) in
  props.int64_bucket tb /\ 0 <= ratelimit.capacity tb /\ props.bucket_inv tb /\
  ratelimit.tokensToAdd 1500000000 tb = 3 * 2 ^ 61 /\
  ratelimit.Allow 1500000000 tb =
    (false, ratelimit.mkTokenBucket (2 ^ 62) (- (3 * 2 ^ 61)) (2 ^ 62) 1500000000) /\
  ~ props.bucket_inv (snd (ratelimit.Allow 1500000000 tb)).
Proof.
  repeat split; try (vm_compute; congruence).
  intros [H _]. vm_compute in H. congruence.
Qed.

(* ===================================================================== *)
(** * Properties: TwoTierRateLimiter *)
(* ===================================================================== *)

Section TwoTierFacts.

Import ratelimit props.

Lemma TwoTierAllow_global_denied c ip trl g :
  Allow (atGlobal c) (globalBucket trl) = (false, g) ->
  TwoTierAllow c ip trl = (false, set_global g trl).
Proof. intros H. unfold TwoTierAllow. now rewrite H. Qed.

Lemma TwoTierAllow_ip_denied c ip trl g b trl1 b' :
  Allow (atGlobal c) (globalBucket trl) = (true, g) ->
  getOrCreateIPBucket (atCreate c) ip (set_global g trl) = (b, trl1) ->
  Allow (atIP c) b = (false, b') ->
  TwoTierAllow c ip trl =
    (false, returnGlobalToken (set_ipBuckets (<[ip := b']> (ipBuckets trl1)) trl1)).
Proof. intros H1 H2 H3. unfold TwoTierAllow. now rewrite H1, H2, H3. Qed.

Lemma TwoTierAllow_admitted c ip trl g b trl1 b' :
  Allow (atGlobal c) (globalBucket trl) = (true, g) ->
  getOrCreateIPBucket (atCreate c) ip (set_global g trl) = (b, trl1) ->
  Allow (atIP c) b = (true, b') ->
  TwoTierAllow c ip trl =
    (true, set_ipBuckets (<[ip := b']> (ipBuckets trl1)) trl1).
Proof. intros H1 H2 H3. unfold TwoTierAllow. now rewrite H1, H2, H3. Qed.

Lemma getOrCreateIPBucket_global now ip trl :
  globalBucket (snd (getOrCreateIPBucket now ip trl)) = globalBucket trl.
Proof. unfold getOrCreateIPBucket. now destruct (ipBuckets trl !! ip). Qed.

Lemma refill_le_capacity now tb :
  tokens tb <= capacity tb ->
  tokens (refill now tb) <= capacity (refill now tb) /\
  capacity (refill now tb) = capacity tb.
Proof.
  intros Hle. unfold refill. destruct (0 <? tokensToAdd now tb); simpl.
  - rewrite min_spec. lia.
  - lia.
Qed.

(** An [Allow] that admits leaves strictly less than the capacity. *)
Lemma Allow_admits_below_capacity now tb g :
  int64_bucket tb -> tokens tb <= capacity tb ->
  Allow now tb = (true, g) ->
  tokens g = tokens (refill now tb) - 1 /\ tokens g < capacity g /\
  capacity g = capacity tb /\ Int64.in_range (tokens g).
Proof.
  intros Hb Hle HA.
  pose proof (refill_tokens_in_range now tb Hb) as Hr.
  destruct (refill_le_capacity now tb Hle) as [Hc Hcap].
  unfold Allow in HA.
  destruct (Z.ltb_spec 0 (tokens (refill now tb))); [| discriminate].
  injection HA as <-. simpl.
  rewrite sub_one_in_range by assumption.
  unfold Int64.in_range, Int64.MinInt64, Int64.MaxInt64 in *. lia.
Qed.

(** The compensation gives back exactly the token the admitting [Allow]
    took. *)
Lemma returnGlobalToken_after_admit trl :
  Int64.in_range (capacity (globalBucket trl)) ->
  Int64.in_range (tokens (globalBucket trl)) ->
  tokens (globalBucket trl) < capacity (globalBucket trl) ->
  returnGlobalToken trl =
    set_global (set_tokens (tokens (globalBucket trl) + 1) (globalBucket trl)) trl.
Proof.
  intros Hc Ht Hlt. unfold returnGlobalToken.
  destruct (Z.ltb_spec (tokens (globalBucket trl)) (capacity (globalBucket trl)));
    [| lia].
  now rewrite (add_one_below _ (capacity (globalBucket trl))).
Qed.

(** At the instant a bucket was last refilled, [Allow] only looks at the
    tokens that are there. *)
Lemma Allow_same_instant t tb :
  lastRefill tb = t -> Int64.in_range (tokens tb) ->
  Allow t tb =
    if 0 <? tokens tb then (true, set_tokens (tokens tb - 1) tb) else (false, tb).
Proof.
  intros Hl Hr. unfold Allow.
  rewrite (refill_no_accrual t tb (tokensToAdd_same_instant t tb Hl)).
  destruct (Z.ltb_spec 0 (tokens tb)); [| reflexivity].
  now rewrite sub_one_in_range.
Qed.

End TwoTierFacts.

Section Burst.

Import ratelimit props.

Variables (G gr P pr : Z) (t : time.Time) (ip : string).
Hypothesis HP : 0 <= P.
Hypothesis HPG : P < G.
Hypothesis HG : G <= Int64.MaxInt64.

Local Abbreviation state := (burst_state G gr P pr t ip).

Lemma burst_start : state 0 (NewTwoTierRateLimiter t G gr P pr).
Proof.
  unfold burst_state, NewTwoTierRateLimiter, NewTokenBucket. simpl.
  rewrite Z.sub_0_r, lookup_empty. auto.
Qed.

Local Ltac range := unfold Int64.in_range, Int64.MinInt64, Int64.MaxInt64 in *; simpl; lia.

(** While the client has tokens, its request is admitted. *)
Lemma burst_admit k trl :
  0 <= k < P -> state k trl ->
  exists trl', TwoTierAllow (instant t) ip trl = (true, trl') /\ state (k + 1) trl'.
Proof.
  intros Hk (Hg & HcP & Hpr & Hip).
  assert (HA : Allow t (globalBucket trl) =
               (true, mkTokenBucket G (G - (k + 1)) gr t)).
  { rewrite Hg, Allow_same_instant by (reflexivity || range). simpl.
    destruct (Z.ltb_spec 0 (G - k)); [| lia].
    unfold set_tokens. simpl. do 2 f_equal. lia. }
  assert (HB : Allow t (mkTokenBucket P (P - k) pr t) =
               (true, mkTokenBucket P (P - (k + 1)) pr t)).
  { rewrite Allow_same_instant by (reflexivity || range). simpl.
    destruct (Z.ltb_spec 0 (P - k)); [| lia].
    unfold set_tokens. simpl. do 2 f_equal. lia. }
  unfold TwoTierAllow. simpl. rewrite HA. simpl.
  unfold getOrCreateIPBucket. simpl.
  destruct (ipBuckets trl !! ip) as [b |] eqn:E.
  - subst b. rewrite HB. simpl. eexists. split; [reflexivity |].
    unfold burst_state. simpl. rewrite lookup_insert_eq. auto.
  - subst k. rewrite Z.sub_0_r in HB.
    rewrite HcP, Hpr. unfold NewTokenBucket. rewrite HB. simpl.
    eexists. split; [reflexivity |].
    unfold burst_state. simpl. rewrite lookup_insert_eq. auto.
Qed.

(** Once they are spent, the request is denied and the global bucket is
    where it was before the request. *)
Lemma burst_deny trl :
  state P trl ->
  exists trl', TwoTierAllow (instant t) ip trl = (false, trl') /\ state P trl'.
Proof.
  intros (Hg & HcP & Hpr & Hip).
  assert (HA : Allow t (globalBucket trl) =
               (true, mkTokenBucket G (G - P - 1) gr t)).
  { rewrite Hg, Allow_same_instant by (reflexivity || range). simpl.
    destruct (Z.ltb_spec 0 (G - P)); [| lia]. reflexivity. }
  assert (HB : Allow t (mkTokenBucket P (P - P) pr t) =
               (false, mkTokenBucket P (P - P) pr t)).
  { rewrite Allow_same_instant by (reflexivity || range). simpl.
    destruct (Z.ltb_spec 0 (P - P)); [lia | reflexivity]. }
  unfold TwoTierAllow. simpl. rewrite HA. simpl.
  unfold getOrCreateIPBucket. simpl.
  destruct (ipBuckets trl !! ip) as [b |] eqn:E.
  - subst b. rewrite HB. simpl. unfold set_ipBuckets. simpl.
    eexists. split; [reflexivity |].
    rewrite returnGlobalToken_after_admit by (simpl; range).
    unfold burst_state. simpl. rewrite lookup_insert_eq.
    repeat split; auto.
    all: unfold set_tokens; simpl; f_equal; lia.
  - replace (P - P) with P in HB by lia.
    rewrite HcP, Hpr. unfold NewTokenBucket. rewrite HB. simpl.
    unfold set_ipBuckets. simpl.
    eexists. split; [reflexivity |].
    rewrite returnGlobalToken_after_admit by (simpl; range).
    unfold burst_state. simpl. rewrite lookup_insert_eq.
    repeat split; auto.
    all: unfold set_tokens; simpl; f_equal; lia.
Qed.

Lemma burst_requests (n : nat) k trl :
  0 <= k -> k + Z.of_nat n = P -> state k trl ->
  exists trl',
    requests (replicate n (instant t) ++ [instant t]) ip trl
      = (replicate n true ++ [false], trl') /\
    state P trl'.
Proof.
  revert k trl. induction n as [| n IH]; intros k trl Hk HkP Hst.
  - assert (k = P) by lia. subst k.
    destruct (burst_deny trl Hst) as (trl' & HA & Hst').
    exists trl'. simpl. now rewrite HA.
  - destruct (burst_admit k trl ltac:(lia) Hst) as (trl1 & HA & Hst1).
    destruct (IH (k + 1) trl1 ltac:(lia) ltac:(lia) Hst1) as (trl' & HR & Hst').
    exists trl'. split; [| exact Hst'].
    change (replicate (S n) (instant t) ++ [instant t])
      with (instant t :: (replicate n (instant t) ++ [instant t])).
    cbn [requests]. rewrite HA, HR. reflexivity.
Qed.

End Burst.

(** C3.  When the global bucket admits and the per-IP bucket denies,
    [Allow] answers [false] and the global bucket gets back exactly the one
    token it gave (it is incremented, and stays within its capacity), the
    per-IP bucket being left as its own [Allow] left it.  Consequently a
    fresh limiter of global capacity [G] and per-IP capacity [P < G] that
    receives [P + 1] requests of one client at once admits the first [P],
    denies the last, and is left with [G - P] global tokens. *)
Theorem per_ip_denial_returns_global_token :
  (forall (c : ratelimit.Clock) (ip : string) (trl : ratelimit.TwoTierRateLimiter)
          (g b b' : ratelimit.TokenBucket) (trl1 : ratelimit.TwoTierRateLimiter),
      props.int64_bucket (ratelimit.globalBucket trl) ->
      ratelimit.tokens (ratelimit.globalBucket trl)
        <= ratelimit.capacity (ratelimit.globalBucket trl) ->
      ratelimit.Allow (ratelimit.atGlobal c) (ratelimit.globalBucket trl) = (true, g) ->
      ratelimit.getOrCreateIPBucket (ratelimit.atCreate c) ip
        (ratelimit.set_global g trl) = (b, trl1) ->
      ratelimit.Allow (ratelimit.atIP c) b = (false, b') ->
      exists trl',
        ratelimit.TwoTierAllow c ip trl = (false, trl') /\
        ratelimit.globalBucket trl'
          = ratelimit.set_tokens (ratelimit.tokens g + 1) g /\
        ratelimit.tokens (ratelimit.globalBucket trl')
          = ratelimit.tokens
              (ratelimit.refill (ratelimit.atGlobal c) (ratelimit.globalBucket trl)) /\
        ratelimit.tokens (ratelimit.globalBucket trl')
          <= ratelimit.capacity (ratelimit.globalBucket trl') /\
        ratelimit.ipBuckets trl' !! ip = Some b')
  /\
  (forall (G gr P pr : Z) (t : time.Time) (ip : string),
      0 <= P -> P < G -> G <= Int64.MaxInt64 ->
      exists trl',
        props.requests (replicate (Z.to_nat P + 1) (ratelimit.instant t)) ip
          (ratelimit.NewTwoTierRateLimiter t G gr P pr)
          = (replicate (Z.to_nat P) true ++ [false], trl') /\
        ratelimit.tokens (ratelimit.globalBucket trl') = G - P /\
        G - P <= ratelimit.tokens (ratelimit.globalBucket trl')).
Proof.
  split.
  - intros c ip trl g b b' trl1 Hb Hle HG Hget HIP.
    destruct (Allow_admits_below_capacity _ _ _ Hb Hle HG) as (Htok & Hlt & Hcap & Hr).
    assert (Hg1 : ratelimit.globalBucket trl1 = g).
    { pose proof (getOrCreateIPBucket_global (ratelimit.atCreate c) ip
                    (ratelimit.set_global g trl)) as H.
      rewrite Hget in H. exact H. }
    eexists. split; [exact (TwoTierAllow_ip_denied _ _ _ _ _ _ _ HG Hget HIP) |].
    rewrite returnGlobalToken_after_admit; simpl; rewrite ?Hg1; try assumption.
    + repeat split; try lia. apply lookup_insert_eq.
    + rewrite Hcap. apply Hb.
  - intros G gr P pr t ip HP HPG HGmax.
    destruct (burst_requests G gr P pr t ip HP HPG HGmax (Z.to_nat P) 0
                (ratelimit.NewTwoTierRateLimiter t G gr P pr))
      as (trl' & HR & Hst & _); [lia | lia | apply burst_start |].
    exists trl'. rewrite Nat.add_1_r, replicate_S_end. split; [exact HR |].
    rewrite Hst. simpl. lia.
Qed.

Lemma per_ip_denial_returns_global_token_witness :
  let trl := ratelimit.NewTwoTierRateLimiter 0 10 10 2 2 in
  let c := ratelimit.instant 0 in
  let trl2 := snd (props.requests [c; c] "192.168.1.1" trl) in
  (exists trl',
      ratelimit.TwoTierAllow c "192.168.1.1" trl2 = (false, trl') /\
      ratelimit.tokens (ratelimit.globalBucket trl') = 8) /\
  (exists trl',
      props.requests [c; c; c] "192.168.1.1" trl = ([true; true; false], trl') /\
      ratelimit.tokens (ratelimit.globalBucket trl') = 8).
Proof.
  intros trl c trl2.
  destruct per_ip_denial_returns_global_token as [Ha Hb].
  split.
  - destruct (Ha c "192.168.1.1" trl2
                (ratelimit.mkTokenBucket 10 7 10 0)
                (ratelimit.mkTokenBucket 2 0 2 0)
                (ratelimit.mkTokenBucket 2 0 2 0)
                (ratelimit.set_global (ratelimit.mkTokenBucket 10 7 10 0) trl2))
      as (trl' & HA & Hg & _).
    + vm_compute. intuition congruence.
    + vm_compute. congruence.
    + vm_compute. reflexivity.
    + vm_compute. reflexivity.
    + vm_compute. reflexivity.
    + exists trl'. split; [exact HA |]. rewrite Hg. reflexivity.
  - destruct (Hb 10 10 2 2 0 "192.168.1.1") as (trl' & HR & Ht & _).
    + lia.
    + lia.
    + vm_compute. congruence.
    + exists trl'. split; [exact HR | exact Ht].
Defined.

(** C4.  When the global bucket denies, [Allow] answers [false] at once:
    the registry of per-IP buckets is what it was (no bucket is created, no
    bucket changes), only the global bucket carries the effect of its own
    [Allow]; and neither the answer nor the global bucket depends on the
    registry, the client or the later clock readings, so that none of them
    was read. *)
Theorem global_denial_leaves_registry
    (c : ratelimit.Clock) (ip : string) (trl : ratelimit.TwoTierRateLimiter) :
  fst (ratelimit.Allow (ratelimit.atGlobal c) (ratelimit.globalBucket trl)) = false ->
  ratelimit.TwoTierAllow c ip trl
    = (false,
       ratelimit.set_global
         (snd (ratelimit.Allow (ratelimit.atGlobal c) (ratelimit.globalBucket trl)))
         trl) /\
  ratelimit.ipBuckets (snd (ratelimit.TwoTierAllow c ip trl))
    = ratelimit.ipBuckets trl /\
  (forall (m : gmap string ratelimit.TokenBucket) (ip' : string)
          (c' : ratelimit.Clock),
      ratelimit.atGlobal c' = ratelimit.atGlobal c ->
      let res := ratelimit.TwoTierAllow c' ip' (ratelimit.set_ipBuckets m trl) in
      fst res = false /\
      ratelimit.globalBucket (snd res)
        = ratelimit.globalBucket (snd (ratelimit.TwoTierAllow c ip trl)) /\
      ratelimit.ipBuckets (snd res) = m).
Proof.
  intros Hden.
  destruct (ratelimit.Allow (ratelimit.atGlobal c) (ratelimit.globalBucket trl))
    as [ok g] eqn:HA.
  simpl in Hden. subst ok.
  rewrite (TwoTierAllow_global_denied c ip trl g HA).
  repeat split.
  all: rewrite (TwoTierAllow_global_denied c' ip' (ratelimit.set_ipBuckets m trl) g)
    by (rewrite H; exact HA); reflexivity.
Qed.

Lemma global_denial_leaves_registry_witness :
  let trl := ratelimit.NewTwoTierRateLimiter 0 0 1 3 3 in
  fst (ratelimit.TwoTierAllow (ratelimit.instant 0) "10.0.0.1" trl) = false /\
  ratelimit.ipBuckets
    (snd (ratelimit.TwoTierAllow (ratelimit.instant 0) "10.0.0.1" trl)) = ∅.
Proof.
  intros trl.
  destruct (global_denial_leaves_registry (ratelimit.instant 0) "10.0.0.1" trl)
    as (HA & Hreg & _).
  - vm_compute. reflexivity.
  - split; [rewrite HA; reflexivity | exact Hreg].
Defined.

(* ===================================================================== *)
(** * Properties: the batch handler *)
(* ===================================================================== *)

(** C10.  The batch handler validates the decoded request before it
    calls the service: an empty [domains] array is answered with status 400
    and the error "domains array cannot be empty", more than 100 domains
    with status 400 and the error "too many domains", and in both cases
    [AnalyzeDomains] is not called. *)
Theorem batch_request_validation
    (svc : http.AnalysisService) (now : time.Time)
    (request : models.BatchAnalysisRequest.t) :
  let domains := models.BatchAnalysisRequest.Domains request in
  let w := http.AnalyzeBatchDomains now (inl request) in
  (length domains = 0%nat ->
   http.statusCode w = 400 /\
   (exists e, http.payload w = http.ErrorBody e /\
              http.Error e = "domains array cannot be empty") /\
   http.serviceCalls w = [])
  /\
  ((100 < length domains)%nat ->
   http.statusCode w = 400 /\
   (exists e, http.payload w = http.ErrorBody e /\
              http.Error e = "too many domains") /\
   http.serviceCalls w = []).
Proof.
  intros domains w. subst w. unfold http.AnalyzeBatchDomains. fold domains.
  split; intros Hlen.
  - rewrite Hlen. simpl. repeat split. eexists. split; reflexivity.
  - destruct (Nat.eqb_spec (length domains) 0) as [E | _]; [lia |].
    destruct (Nat.ltb_spec 100 (length domains)) as [_ | E]; [| lia].
    simpl. repeat split. eexists. split; reflexivity.
Qed.

Lemma batch_request_validation_witness :
  let svc : http.AnalysisService :=
    {| http.AnalyzeDomains := fun _ =>
         (models.BatchAnalysisResponse.mk []
            (models.BatchSummary.mk 0 0 0) [] 0 0, None) |} in
  let empty := models.BatchAnalysisRequest.mk [] in
  let many := models.BatchAnalysisRequest.mk (replicate 101 "example.com") in
  (http.statusCode (http.AnalyzeBatchDomains 0 (inl empty)) = 400 /\
   http.serviceCalls (http.AnalyzeBatchDomains 0 (inl empty)) = []) /\
  (http.statusCode (http.AnalyzeBatchDomains 0 (inl many)) = 400 /\
   http.serviceCalls (http.AnalyzeBatchDomains 0 (inl many)) = []).
Proof.
  intros svc empty many. split.
  - destruct (batch_request_validation svc 0 empty) as [H _].
    destruct H as (Hs & _ & Hc); [reflexivity | split; assumption].
  - destruct (batch_request_validation svc 0 many) as [_ H].
    destruct H as (Hs & _ & Hc); [vm_compute; lia | split; assumption].
Defined.

(* ===================================================================== *)
(** * Properties: the order of the advertiser list *)
(* ===================================================================== *)

Section OrderFacts.

Import models domainAnalysis props.

Lemma string_compare_OT a b :
  String.compare a b = OrdersEx.String_as_OT.compare a b.
Proof.
  revert b. induction a as [| x a IH]; intros [| y b]; reflexivity.
Qed.

Lemma string_compare_refl a : String.compare a a = Eq.
Proof.
  rewrite string_compare_OT.
  destruct (OrdersEx.String_as_OT.compare_spec a a) as [_ | H | H]; [reflexivity | |];
    exfalso; revert H; apply (StrictOrder_Irreflexive (R := OrdersEx.String_as_OT.lt)).
Qed.

Lemma string_compare_trans a b c :
  String.compare a b = Lt -> String.compare b c = Lt -> String.compare a c = Lt.
Proof.
  rewrite !string_compare_OT.
  apply (StrictOrder_Transitive (R := OrdersEx.String_as_OT.lt)).
Qed.

Lemma string_compare_Gt a b :
  String.compare a b = Gt <-> String.compare b a = Lt.
Proof.
  rewrite (String.compare_antisym b a).
  destruct (String.compare a b); simpl; split; congruence.
Qed.

Lemma less_spec a b : less a b = true <-> ordered a b.
Proof.
  unfold less, ordered, String.ltb.
  destruct (Z.eqb_spec (AdvertiserInfo.Count a) (AdvertiserInfo.Count b)) as [E | E].
  - destruct (String.compare _ _); split;
      try discriminate; try (intros _; reflexivity);
      try (intros _; right; split; [exact E | reflexivity]);
      intros [H | [_ H]]; try lia; discriminate.
  - rewrite Z.ltb_lt. split; [auto | intros [H | [H _]]; [exact H | contradiction]].
Qed.

Lemma ordered_irrefl a : ~ ordered a a.
Proof.
  intros [H | [_ H]]; [lia |]. rewrite string_compare_refl in H. discriminate.
Qed.

Lemma ordered_trans a b c : ordered a b -> ordered b c -> ordered a c.
Proof.
  unfold ordered. intros [H1 | [E1 H1]] [H2 | [E2 H2]]; try (left; lia).
  right. split; [lia | eapply string_compare_trans; eassumption].
Qed.

Lemma ordered_trichotomy a b : ordered a b \/ a = b \/ ordered b a.
Proof.
  unfold ordered.
  destruct (Z.lt_trichotomy (AdvertiserInfo.Count a) (AdvertiserInfo.Count b))
    as [H | [H | H]]; [right; right; left; lia | | left; left; lia].
  destruct (String.compare (AdvertiserInfo.Domain a) (AdvertiserInfo.Domain b)) eqn:E.
  - right; left. apply String.compare_eq_iff in E.
    destruct a, b; simpl in *; congruence.
  - left; right; auto.
  - right; right; right. split; [lia | now apply string_compare_Gt].
Qed.

Lemma before_spec a b : before a b <-> (a = b \/ ordered a b).
Proof.
  unfold before. rewrite <- not_true_iff_false, less_spec.
  destruct (ordered_trichotomy a b) as [H | [H | H]].
  - split; [auto | intros _ H'; exact (ordered_irrefl a (ordered_trans _ _ _ H H'))].
  - subst. split; [auto | intros _; apply ordered_irrefl].
  - split; [contradiction |].
    intros [-> | H'];
      [exfalso; exact (ordered_irrefl _ H)
      | exfalso; exact (ordered_irrefl a (ordered_trans _ _ _ H' H))].
Qed.

#[local] Instance before_total : Total before.
Proof.
  intros a b. rewrite !before_spec.
  destruct (ordered_trichotomy a b) as [H | [H | H]]; auto.
Qed.

#[local] Instance before_trans : Transitive before.
Proof.
  intros a b c. rewrite !before_spec.
  intros [-> | H1] [-> | H2]; auto. right. eapply ordered_trans; eassumption.
Qed.

#[local] Instance before_antisym : AntiSymm (=) before.
Proof.
  intros a b. rewrite !before_spec.
  intros [-> | H1] [E | H2]; auto.
  exfalso. exact (ordered_irrefl a (ordered_trans _ _ _ H1 H2)).
Qed.

Lemma sortSlice_Permutation l : sortSlice l ≡ₚ l.
Proof. apply merge_sort_Permutation. Qed.

Lemma sortSlice_sorted l : StronglySorted before (sortSlice l).
Proof. apply StronglySorted_merge_sort; apply _. Qed.

(** Whatever the order in which the entries come, sorting gives the same
    slice: [sort.Slice] has one possible result. *)
Lemma sortSlice_order l1 l2 : l1 ≡ₚ l2 -> sortSlice l1 = sortSlice l2.
Proof.
  intros H. apply (Sorted_unique before).
  - apply Sorted_merge_sort; apply _.
  - apply Sorted_merge_sort; apply _.
  - now rewrite !sortSlice_Permutation.
Qed.

(** Distinct entries in sorted order are strictly ordered. *)
Lemma sorted_NoDup_ordered l :
  NoDup l -> StronglySorted before l -> StronglySorted ordered l.
Proof.
  intros Hnd Hs. induction Hs as [| a l Hs IH Hall]; [constructor |].
  apply NoDup_cons in Hnd as [Hnotin Hnd].
  constructor; [auto |].
  rewrite Forall_forall in *. intros b Hb.
  destruct (proj1 (before_spec a b) (Hall b Hb)) as [-> | H]; [contradiction | exact H].
Qed.

End OrderFacts.

(* ===================================================================== *)
(** * Properties: the aggregator *)
(* ===================================================================== *)

Section AggregatorFacts.

Import models domainAnalysis props.

Lemma wrap_add_l a b : Int64.wrap (Int64.wrap a + b) = Int64.wrap (a + b).
Proof.
  unfold Int64.wrap. f_equal.
  replace ((a + 2 ^ 63) mod 2 ^ 64 - 2 ^ 63 + b + 2 ^ 63)
    with ((a + 2 ^ 63) mod 2 ^ 64 + b) by lia.
  rewrite Z.add_mod_idemp_l by lia. f_equal. lia.
Qed.

Lemma wrap_add_r a b : Int64.wrap (a + Int64.wrap b) = Int64.wrap (a + b).
Proof. rewrite (Z.add_comm a), wrap_add_l. apply (f_equal Int64.wrap); lia. Qed.

Lemma wrap_wrap a : Int64.wrap (Int64.wrap a) = Int64.wrap a.
Proof. apply wrap_in_range, wrap_range. Qed.

Lemma zsum_cons x l : zsum (x :: l) = x + zsum l.
Proof. reflexivity. Qed.

Lemma zsum_app l1 l2 : zsum (l1 ++ l2) = zsum l1 + zsum l2.
Proof. unfold zsum. induction l1 as [| x l1 IH]; simpl; lia. Qed.

Lemma zsum_Permutation l1 l2 : l1 ≡ₚ l2 -> zsum l1 = zsum l2.
Proof. unfold zsum. induction 1; simpl; lia. Qed.

(** Summing with Go's addition is summing and wrapping once. *)
Lemma foldl_add_wrap l tot :
  Int64.wrap (foldl Int64.add tot l) = Int64.wrap (tot + zsum l).
Proof.
  revert tot. induction l as [| x l IH]; intros tot; simpl.
  - apply (f_equal Int64.wrap); lia.
  - rewrite IH. unfold Int64.add. rewrite wrap_add_l. apply (f_equal Int64.wrap); lia.
Qed.

Lemma foldl_add_range l tot :
  Int64.in_range tot -> Int64.in_range (foldl Int64.add tot l).
Proof.
  revert tot. induction l as [| x l IH]; intros tot H; simpl; [exact H |].
  apply IH, wrap_range.
Qed.

Lemma foldl_add_zero l : foldl Int64.add 0 l = Int64.wrap (zsum l).
Proof.
  rewrite <- (wrap_in_range (foldl Int64.add 0 l)).
  - now rewrite foldl_add_wrap.
  - apply foldl_add_range. unfold Int64.in_range, Int64.MinInt64, Int64.MaxInt64. lia.
Qed.

Lemma rangeCounts_fold l adv tot :
  foldl (fun '(advertisers, totalCount) '(domain, count) =>
           (advertisers ++ [AdvertiserInfo.mk domain count],
            Int64.add totalCount count))
        (adv, tot) l
  = (adv ++ fmap entry l, foldl Int64.add tot (fmap snd l)).
Proof.
  revert adv tot. induction l as [| [d c] l IH]; intros adv tot; simpl.
  - now rewrite app_nil_r.
  - rewrite IH. now rewrite <- app_assoc.
Qed.

Lemma rangeCounts_spec l :
  rangeCounts l = (fmap entry l, Int64.wrap (zsum (fmap snd l))).
Proof.
  unfold rangeCounts. rewrite rangeCounts_fold. simpl.
  now rewrite foldl_add_zero.
Qed.

(** The order in which Go ranges over the map changes neither the total
    nor the sorted slice. *)
Lemma rangeCounts_order l1 l2 :
  l1 ≡ₚ l2 ->
  sortSlice (rangeCounts l1).1 = sortSlice (rangeCounts l2).1 /\
  (rangeCounts l1).2 = (rangeCounts l2).2.
Proof.
  intros H. rewrite !rangeCounts_spec. simpl. split.
  - apply sortSlice_order. now rewrite H.
  - f_equal. apply zsum_Permutation. now rewrite H.
Qed.

Lemma addCount_lookup m a d :
  addCount m a !! d =
    if decide (AdvertiserInfo.Domain a = d)
    then Some (Int64.add (default 0 (m !! d)) (AdvertiserInfo.Count a))
    else m !! d.
Proof.
  unfold addCount. destruct (decide (AdvertiserInfo.Domain a = d)) as [<- | Hne].
  - now rewrite lookup_insert_eq.
  - now rewrite lookup_insert_ne.
Qed.

(** What the map holds for a domain after the entries of [l] were added:
    nothing new when no entry names the domain, and otherwise the sum of
    the counts of the entries that do, added to what was there. *)
Lemma foldl_addCount_lookup l m d :
  foldl addCount m l !! d =
    match filter (fun a => AdvertiserInfo.Domain a = d) l with
    | [] => m !! d
    | fl => Some (foldl Int64.add (default 0 (m !! d))
                        (fmap AdvertiserInfo.Count fl))
    end.
Proof.
  revert m. induction l as [| a l IH]; intros m; [reflexivity |].
  simpl. rewrite IH, addCount_lookup. rewrite filter_cons.
  destruct (decide (AdvertiserInfo.Domain a = d)) as [E | E]; simpl.
  - now destruct (filter _ l).
  - reflexivity.
Qed.

Lemma foldl_addCount_empty l d :
  foldl addCount ∅ l !! d =
    if decide (Exists (fun a => AdvertiserInfo.Domain a = d) l)
    then Some (Int64.wrap (countFor d l))
    else None.
Proof.
  rewrite foldl_addCount_lookup, lookup_empty. simpl. unfold countFor.
  destruct (filter (fun a => AdvertiserInfo.Domain a = d) l) as [| a fl] eqn:E.
  - destruct (decide _) as [HE | _]; [| reflexivity].
    apply Exists_exists in HE as (a & Hin & Ha).
    assert (H : a ∈ filter (fun a => AdvertiserInfo.Domain a = d) l)
      by (apply list_elem_of_filter; split; [exact Ha | exact Hin]).
    rewrite E in H. inversion H.
  - destruct (decide _) as [_ | HE].
    + f_equal. exact (foldl_add_zero (fmap AdvertiserInfo.Count (a :: fl))).
    + exfalso. apply HE, Exists_exists. exists a.
      assert (H : a ∈ filter (fun a => AdvertiserInfo.Domain a = d) l)
        by (rewrite E; left).
      apply list_elem_of_filter in H as [Ha Hin]. split; [exact Hin | exact Ha].
Qed.

(** The values of the map add up, modulo [2 ^ 64], to the counts that were
    added. *)
Lemma addCount_total m a :
  Int64.wrap (zsum (fmap snd (map_to_list (addCount m a))))
  = Int64.wrap (zsum (fmap snd (map_to_list m)) + AdvertiserInfo.Count a).
Proof.
  unfold addCount. set (k := AdvertiserInfo.Domain a). set (c := AdvertiserInfo.Count a).
  destruct (m !! k) as [old |] eqn:E; simpl.
  - rewrite <- insert_delete_eq.
    rewrite (zsum_Permutation _ _
               (fmap_Permutation snd _ _
                  (map_to_list_insert (delete k m) k (Int64.add old c)
                     (lookup_delete_eq m k)))).
    rewrite <- (zsum_Permutation _ _
                  (fmap_Permutation snd _ _ (map_to_list_delete m k old E))).
    rewrite !fmap_cons, !zsum_cons. simpl. unfold Int64.add.
    rewrite wrap_add_l. apply (f_equal Int64.wrap); lia.
  - rewrite (zsum_Permutation _ _
               (fmap_Permutation snd _ _
                  (map_to_list_insert m k (Int64.add 0 c) E))).
    rewrite fmap_cons, zsum_cons. simpl. unfold Int64.add.
    rewrite wrap_add_l. apply (f_equal Int64.wrap); lia.
Qed.

Lemma foldl_addCount_total l m :
  Int64.wrap (zsum (fmap snd (map_to_list (foldl addCount m l))))
  = Int64.wrap (zsum (fmap snd (map_to_list m))
                + zsum (fmap AdvertiserInfo.Count l)).
Proof.
  revert m. induction l as [| a l IH]; intros m.
  - cbn [foldl]. apply (f_equal Int64.wrap).
    change (zsum (AdvertiserInfo.Count <$> [])) with 0. lia.
  - cbn [foldl]. rewrite IH, fmap_cons, zsum_cons.
    rewrite <- wrap_add_l, addCount_total, wrap_add_l.
    apply (f_equal Int64.wrap); lia.
Qed.

End AggregatorFacts.

Section BatchFacts.

Import models domainAnalysis props.

Lemma listed_cons r l :
  listed (r :: l) =
    if DomainResult.Success r then DomainResult.Advertisers r ++ listed l
    else listed l.
Proof.
  unfold listed, succeeded. rewrite filter_cons.
  destruct (decide (DomainResult.Success r = true)) as [E | E].
  - rewrite E. reflexivity.
  - destruct (DomainResult.Success r); [congruence | reflexivity].
Qed.

Lemma succeeded_cons r l :
  succeeded (r :: l) =
    if DomainResult.Success r then r :: succeeded l else succeeded l.
Proof.
  unfold succeeded. rewrite filter_cons.
  destruct (decide (DomainResult.Success r = true)) as [E | E].
  - now rewrite E.
  - destruct (DomainResult.Success r); [congruence | reflexivity].
Qed.

Lemma succeeded_length l : (length (succeeded l) <= length l)%nat.
Proof. apply length_filter. Qed.

(** The first loop of the aggregator keeps what arrives in order and
    folds the advertiser entries of the successes, and of them only, into
    the map. *)
Lemma aggregate_fold l st :
  results (foldl aggStep st l) = results st ++ l /\
  advertiserCounts (foldl aggStep st l)
    = foldl addCount (advertiserCounts st) (listed l) /\
  BatchSummary.Total (summary (foldl aggStep st l))
    = BatchSummary.Total (summary st).
Proof.
  revert st. induction l as [| r l IH]; intros st.
  - cbn. now rewrite app_nil_r.
  - cbn [foldl]. destruct (IH (aggStep st r)) as (H1 & H2 & H3).
    rewrite H1, H2, H3, listed_cons. unfold aggStep.
    destruct (DomainResult.Success r); cbn.
    + rewrite <- app_assoc, foldl_app. auto.
    + rewrite <- app_assoc. auto.
Qed.

(** The counters count: with room left in an [int], [Succeeded] grows by
    the number of successes and [Failed] by the number of failures. *)
Lemma aggregate_counts l st :
  0 <= BatchSummary.Succeeded (summary st) ->
  0 <= BatchSummary.Failed (summary st) ->
  BatchSummary.Succeeded (summary st) + BatchSummary.Failed (summary st)
    + Z.of_nat (length l) <= Int64.MaxInt64 ->
  BatchSummary.Succeeded (summary (foldl aggStep st l))
    = BatchSummary.Succeeded (summary st) + Z.of_nat (length (succeeded l)) /\
  BatchSummary.Failed (summary (foldl aggStep st l))
    = BatchSummary.Failed (summary st)
      + (Z.of_nat (length l) - Z.of_nat (length (succeeded l))).
Proof.
  revert st. induction l as [| r l IH]; intros st HS HF Hroom.
  - cbn. lia.
  - cbn [foldl]. rewrite succeeded_cons.
    cbn [length] in Hroom.
    assert (Hone : forall n, 0 <= n -> n < Int64.MaxInt64 -> Int64.add n 1 = n + 1).
    { intros n H0 H1. unfold Int64.add. apply wrap_in_range.
      unfold Int64.in_range, Int64.MinInt64, Int64.MaxInt64 in *. lia. }
    destruct (IH (aggStep st r)) as [H1 H2].
    + unfold aggStep. destruct (DomainResult.Success r); cbn; [rewrite Hone |]; lia.
    + unfold aggStep. destruct (DomainResult.Success r); cbn; [| rewrite Hone]; lia.
    + unfold aggStep. destruct (DomainResult.Success r); cbn; rewrite Hone; lia.
    + rewrite H1, H2. unfold aggStep.
      destruct (DomainResult.Success r); cbn [summary BatchSummary.Succeeded BatchSummary.Failed length];
        rewrite Hone; lia.
Qed.

(** [aggregateResults], field by field. *)
Lemma aggregateResults_spec arrived total now :
  let m := foldl addCount ∅ (listed arrived) in
  let resp := aggregateResults arrived total now in
  BatchAnalysisResponse.Results resp = arrived /\
  BatchSummary.Total (BatchAnalysisResponse.Summary resp) = total /\
  BatchAnalysisResponse.Advertisers resp
    = sortSlice (fmap entry (map_to_list m)) /\
  BatchAnalysisResponse.TotalAdvertisers resp
    = Int64.wrap (zsum (fmap AdvertiserInfo.Count (listed arrived))) /\
  BatchAnalysisResponse.Timestamp resp = now.
Proof.
  intros m resp. subst resp. unfold aggregateResults.
  destruct (aggregate_fold arrived
              (mkAgg [] ∅ (BatchSummary.mk total 0 0))) as (H1 & H2 & H3).
  rewrite rangeCounts_spec, H2. cbv beta iota zeta.
  cbn [BatchAnalysisResponse.Results BatchAnalysisResponse.Summary
       BatchAnalysisResponse.Advertisers BatchAnalysisResponse.TotalAdvertisers
       BatchAnalysisResponse.Timestamp].
  rewrite H1, H3. cbn [results summary advertiserCounts BatchSummary.Total app].
  repeat split.
  unfold m. rewrite foldl_addCount_total, map_to_list_empty.
  apply (f_equal Int64.wrap). change (zsum (snd <$> [])) with 0. lia.
Qed.

Lemma worker_Domain d dom : DomainResult.Domain (worker d dom) = dom.
Proof. unfold worker. now destruct (AnalyzeDomain d dom). Qed.

Lemma sent_Domain deps domains :
  fmap DomainResult.Domain (sent deps domains) = domains.
Proof.
  unfold sent. generalize deps. clear deps.
  induction domains as [| dom l IH]; intros deps; [reflexivity |].
  cbn. rewrite worker_Domain. f_equal. apply (IH (fun i => deps (S i))).
Qed.

Lemma sent_length deps domains : length (sent deps domains) = length domains.
Proof. unfold sent. apply length_imap. Qed.

Lemma sent_lookup deps domains i dom :
  domains !! i = Some dom -> worker (deps i) dom ∈ sent deps domains.
Proof.
  intros H. apply list_elem_of_lookup. exists i.
  unfold sent. now rewrite list_lookup_imap, H.
Qed.

(** An error of the pipeline is a [DomainError] about the domain. *)
Lemma AnalyzeDomain_error d dom err :
  AnalyzeDomain d dom = inr err ->
  exists msg cause, err = NewDomainError dom msg cause.
Proof.
  unfold AnalyzeDomain.
  destruct (cacheGet d dom) as [cached | e0]; [discriminate |].
  destruct (fetch d dom) as [content | e1]; [| intros [= <-]; eauto].
  destruct (parse d content) as [entries | e2]; [discriminate | intros [= <-]; eauto].
Qed.

Lemma AnalyzeDomains_returns s deps sched now domains :
  domains <> [] -> 0 < maxConcurrent s ->
  AnalyzeDomains s deps sched now domains
  = (Returns (aggregateResults (sched (sent deps domains))
                (Z.of_nat (length domains)) now, None),
     domains).
Proof.
  intros Hne Hm. unfold AnalyzeDomains.
  destruct domains as [| dom l]; [congruence |]. cbn [length Nat.eqb].
  destruct (Z.ltb_spec (maxConcurrent s) 0); [lia |].
  destruct (Z.eqb_spec (maxConcurrent s) 0); [lia | reflexivity].
Qed.

End BatchFacts.

(* ===================================================================== *)
(** * Properties: AnalyzeDomains *)
(* ===================================================================== *)

(** C6.  For a list of [N] domains [AnalyzeDomains] returns a summary
    with [Total = N] and [Succeeded + Failed = N] and exactly [N] results,
    one for each entry of the input (their domains are the input list up to
    order, hence pairwise distinct when the input domains are), the
    pipeline having run on the input domains; for [N = 0] it returns the
    zero summary with no result and no advertiser, without running the
    pipeline.  The results may arrive in any order; a batch that is not
    empty needs a gate with at least one slot. *)
Theorem batch_completeness :
  (forall s deps sched now,
      domainAnalysis.AnalyzeDomains s deps sched now []
      = (domainAnalysis.Returns
           (models.BatchAnalysisResponse.mk []
              (models.BatchSummary.mk 0 0 0) [] 0 now, None),
         []))
  /\
  (forall s deps sched now (domains : list string),
      (forall l, sched l ≡ₚ l) ->
      0 < domainAnalysis.maxConcurrent s ->
      Z.of_nat (length domains) <= Int64.MaxInt64 ->
      exists resp,
        domainAnalysis.AnalyzeDomains s deps sched now domains
          = (domainAnalysis.Returns (resp, None), domains) /\
        let summary := models.BatchAnalysisResponse.Summary resp in
        let results := models.BatchAnalysisResponse.Results resp in
        models.BatchSummary.Total summary = Z.of_nat (length domains) /\
        models.BatchSummary.Succeeded summary + models.BatchSummary.Failed summary
          = Z.of_nat (length domains) /\
        0 <= models.BatchSummary.Succeeded summary /\
        0 <= models.BatchSummary.Failed summary /\
        length results = length domains /\
        fmap models.DomainResult.Domain results ≡ₚ domains /\
        (NoDup domains -> NoDup (fmap models.DomainResult.Domain results))).
Proof.
  split; [reflexivity |].
  intros s deps sched now domains Hsched Hmax Hlen.
  destruct domains as [| dom l] eqn:Hd.
  { eexists. split; [reflexivity |]. cbn. repeat split; try lia; auto. }
  rewrite <- Hd in *. assert (Hne : domains <> []) by (rewrite Hd; discriminate).
  clear Hd.
  eexists. split; [apply AnalyzeDomains_returns; assumption |].
  set (arrived := sched (domainAnalysis.sent deps domains)).
  destruct (aggregateResults_spec arrived (Z.of_nat (length domains)) now)
    as (HR & HT & _).
  assert (Hperm : arrived ≡ₚ domainAnalysis.sent deps domains) by apply Hsched.
  assert (Hal : length arrived = length domains).
  { rewrite Hperm. apply sent_length. }
  pose proof (succeeded_length arrived) as Hsl.
  destruct (aggregate_counts arrived
              (domainAnalysis.mkAgg [] ∅
                 (models.BatchSummary.mk (Z.of_nat (length domains)) 0 0)))
    as [HS HF]; cbn; try lia.
  cbv zeta. rewrite HR, HT.
  unfold domainAnalysis.aggregateResults.
  destruct (domainAnalysis.rangeCounts _) as [adv tot].
  cbn [models.BatchAnalysisResponse.Summary].
  rewrite HS, HF. cbn.
  assert (Hdom : fmap models.DomainResult.Domain arrived ≡ₚ domains).
  { rewrite Hperm. now rewrite sent_Domain. }
  repeat split; try lia; try assumption.
  intros Hnd. now rewrite Hdom.
Qed.

Lemma batch_completeness_witness :
  let d := domainAnalysis.mkDeps
             (fun _ => inr (models.errorString "cache miss"))
             (fun dom => if String.eqb dom "b.com"
                         then inr (models.errorString "network timeout")
                         else inl "google.com, pub-1, DIRECT")
             (fun _ => inl [models.AdsTxtEntry.mk "google.com" "pub-1" "DIRECT" ""])
             (fun _ => {["google.com" := 1]})
             (fun _ _ => None)
             0 in
  exists resp,
    domainAnalysis.AnalyzeDomains (domainAnalysis.mkService 10) (fun _ => d)
      reverse 0 ["a.com"; "b.com"; "c.com"]
    = (domainAnalysis.Returns (resp, None), ["a.com"; "b.com"; "c.com"]) /\
    models.BatchAnalysisResponse.Summary resp = models.BatchSummary.mk 3 2 1 /\
    length (models.BatchAnalysisResponse.Results resp) = 3%nat.
Proof.
  intros d.
  destruct batch_completeness as [_ H].
  destruct (H (domainAnalysis.mkService 10) (fun _ => d) reverse 0
              ["a.com"; "b.com"; "c.com"])
    as (resp & HA & Hs); [apply reverse_Permutation | reflexivity | vm_compute; congruence |].
  exists resp. split; [exact HA |].
  destruct Hs as (_ & _ & _ & _ & Hl & _). split; [| exact Hl].
  apply (f_equal fst) in HA. vm_compute in HA. injection HA as <-. reflexivity.
Defined.

(** C8.  [AnalyzeDomains] never hands back an error: no outcome is a
    return with a non-nil error, and whenever the gate has a slot (or the
    batch is empty) the call returns with a nil error, every failure of the
    pipeline being recorded in the [DomainResult] of its domain, with
    [Success = false] and the (non-empty) message of the error. *)
Theorem batch_never_errors :
  (forall s deps sched now domains resp err,
      fst (domainAnalysis.AnalyzeDomains s deps sched now domains)
      <> domainAnalysis.Returns (resp, Some err))
  /\
  (forall s deps sched now (domains : list string),
      (forall l, sched l ≡ₚ l) ->
      0 < domainAnalysis.maxConcurrent s \/ domains = [] ->
      exists resp,
        fst (domainAnalysis.AnalyzeDomains s deps sched now domains)
          = domainAnalysis.Returns (resp, None) /\
        forall (i : nat) (dom : string) (err : models.error),
          domains !! i = Some dom ->
          domainAnalysis.AnalyzeDomain (deps i) dom = inr err ->
          exists r,
            r ∈ models.BatchAnalysisResponse.Results resp /\
            models.DomainResult.Domain r = dom /\
            models.DomainResult.Success r = false /\
            models.DomainResult.Error r = models.Error err /\
            models.DomainResult.Error r <> "").
Proof.
  split.
  - intros s deps sched now domains resp err.
    unfold domainAnalysis.AnalyzeDomains.
    destruct (length domains =? 0)%nat; [cbn; congruence |].
    destruct (domainAnalysis.maxConcurrent s <? 0); [cbn; congruence |].
    destruct (domainAnalysis.maxConcurrent s =? 0); cbn; congruence.
  - intros s deps sched now domains Hsched Hgate.
    destruct domains as [| dom0 l] eqn:Hd.
    { eexists. split; [reflexivity |]. intros i dom err H. discriminate. }
    rewrite <- Hd in *.
    assert (Hne : domains <> []) by (rewrite Hd; discriminate).
    destruct Hgate as [Hmax | ->]; [| congruence]. clear Hd.
    rewrite AnalyzeDomains_returns by assumption.
    eexists. split; [reflexivity |].
    intros i dom err Hi Herr.
    destruct (aggregateResults_spec (sched (domainAnalysis.sent deps domains))
                (Z.of_nat (length domains)) now) as (HR & _).
    rewrite HR.
    exists (domainAnalysis.worker (deps i) dom). split.
    + rewrite Hsched. now apply sent_lookup.
    + unfold domainAnalysis.worker. rewrite Herr. cbn. repeat split.
      destruct (AnalyzeDomain_error _ _ _ Herr) as (msg & cause & ->).
      cbn. discriminate.
Qed.

Lemma batch_never_errors_witness :
  let d := domainAnalysis.mkDeps
             (fun _ => inr (models.errorString "cache miss"))
             (fun _ => inr (models.errorString "network timeout"))
             (fun _ => inr (models.errorString "unused"))
             (fun _ => ∅)
             (fun _ _ => None)
             0 in
  exists resp r,
    fst (domainAnalysis.AnalyzeDomains (domainAnalysis.mkService 2) (fun _ => d)
           id 0 ["fail.com"])
      = domainAnalysis.Returns (resp, None) /\
    r ∈ models.BatchAnalysisResponse.Results resp /\
    models.DomainResult.Success r = false /\
    models.DomainResult.Error r
      = "domain fail.com: failed to fetch ads.txt: network timeout".
Proof.
  intros d.
  destruct batch_never_errors as [_ H].
  destruct (H (domainAnalysis.mkService 2) (fun _ => d) id 0 ["fail.com"])
    as (resp & HA & Hr); [reflexivity | left; reflexivity |].
  destruct (Hr 0%nat "fail.com"
              (models.NewDomainError "fail.com" "failed to fetch ads.txt"
                 (models.errorString "network timeout")))
    as (r & Hin & _ & Hs & He & _); [reflexivity | reflexivity |].
  exists resp, r. repeat split; assumption.
Defined.

(* ===================================================================== *)
(** * Properties: the aggregate advertiser table *)
(* ===================================================================== *)

Section AggregateFacts.

Import models domainAnalysis props.

#[local] Instance entry_inj : Inj (=) (=) entry.
Proof. intros [d c] [d' c'] H. injection H as -> ->. reflexivity. Qed.

Lemma aggregate_advertisers_elem arrived total now d c :
  AdvertiserInfo.mk d c
    ∈ BatchAnalysisResponse.Advertisers (aggregateResults arrived total now)
  <->
  Exists (fun a => AdvertiserInfo.Domain a = d) (listed arrived) /\
  c = Int64.wrap (countFor d (listed arrived)).
Proof.
  destruct (aggregateResults_spec arrived total now) as (_ & _ & HA & _).
  rewrite HA, sortSlice_Permutation.
  change (AdvertiserInfo.mk d c) with (entry (d, c)).
  rewrite (list_elem_of_fmap_inj entry), elem_of_map_to_list.
  rewrite foldl_addCount_empty.
  destruct (decide (Exists _ (listed arrived))) as [HE | HE].
  - split; [intros [= <-]; auto | intros [_ ->]; reflexivity].
  - split; [discriminate | tauto].
Qed.

Lemma aggregate_advertisers_sorted arrived total now :
  StronglySorted ordered
    (BatchAnalysisResponse.Advertisers (aggregateResults arrived total now)).
Proof.
  destruct (aggregateResults_spec arrived total now) as (_ & _ & HA & _).
  rewrite HA. apply sorted_NoDup_ordered; [| apply sortSlice_sorted].
  rewrite sortSlice_Permutation.
  apply (NoDup_fmap_2 entry), NoDup_map_to_list.
Qed.

Lemma listed_totals l :
  Forall (fun r => DomainResult.TotalAdvertisers r
                   = zsum (fmap AdvertiserInfo.Count (DomainResult.Advertisers r)))
         (succeeded l) ->
  zsum (fmap AdvertiserInfo.Count (listed l))
  = zsum (fmap DomainResult.TotalAdvertisers (succeeded l)).
Proof.
  induction l as [| r l IH]; [reflexivity |].
  rewrite listed_cons, succeeded_cons.
  destruct (DomainResult.Success r); [| exact IH].
  intros H. apply Forall_cons in H as [Hr Hl].
  rewrite fmap_app, zsum_app, fmap_cons, zsum_cons, Hr, (IH Hl). reflexivity.
Qed.

End AggregateFacts.

(** C7, as the code has it.  In the response of [AnalyzeDomains] the
    advertiser list has one entry for each advertiser domain named by a
    succeeded result, with the sum (in Go's [int]) of that domain's counts
    over the succeeded results, failed results adding nothing; the list is
    sorted by count descending and by domain ascending among equal counts;
    and [TotalAdvertisers] is the sum (in Go's [int]) of all the counts in
    the advertiser lists of the succeeded results, which is the sum of
    their [TotalAdvertisers] when each of them is the sum of its own
    counts. *)
Theorem aggregate_table s deps sched now domains resp err calls :
  domainAnalysis.AnalyzeDomains s deps sched now domains
    = (domainAnalysis.Returns (resp, err), calls) ->
  let results := models.BatchAnalysisResponse.Results resp in
  let entries := props.listed results in
  (forall d c,
      models.AdvertiserInfo.mk d c ∈ models.BatchAnalysisResponse.Advertisers resp
      <->
      Exists (fun a => models.AdvertiserInfo.Domain a = d) entries /\
      c = Int64.wrap (props.countFor d entries)) /\
  StronglySorted props.ordered (models.BatchAnalysisResponse.Advertisers resp) /\
  models.BatchAnalysisResponse.TotalAdvertisers resp
    = Int64.wrap (props.zsum (fmap models.AdvertiserInfo.Count entries)) /\
  (Forall (fun r => models.DomainResult.TotalAdvertisers r
                    = props.zsum (fmap models.AdvertiserInfo.Count
                                    (models.DomainResult.Advertisers r)))
          (props.succeeded results) ->
   models.BatchAnalysisResponse.TotalAdvertisers resp
     = Int64.wrap (props.zsum (fmap models.DomainResult.TotalAdvertisers
                                 (props.succeeded results)))).
Proof.
  unfold domainAnalysis.AnalyzeDomains.
  destruct (length domains =? 0)%nat.
  { intros [= <- <- <-]. cbn. split; [| split; [constructor | split; [reflexivity | reflexivity]]].
    intros d c. split; [intros H | intros [H _]]; inversion H. }
  destruct (domainAnalysis.maxConcurrent s <? 0); [discriminate |].
  destruct (domainAnalysis.maxConcurrent s =? 0); [discriminate |].
  intros [= <- <- <-].
  set (arrived := sched (domainAnalysis.sent deps domains)).
  destruct (aggregateResults_spec arrived (Z.of_nat (length domains)) now)
    as (HR & _ & _ & HT & _).
  cbv zeta. rewrite HR. split; [| split; [| split]].
  - intros d c. apply aggregate_advertisers_elem.
  - apply aggregate_advertisers_sorted.
  - exact HT.
  - intros H. rewrite HT. now rewrite listed_totals.
Qed.

Lemma aggregate_table_witness :
  let d := domainAnalysis.mkDeps
             (fun _ => inr (models.errorString "cache miss"))
             (fun dom => if String.eqb dom "fail.com"
                         then inr (models.errorString "network timeout")
                         else inl "content")
             (fun _ => inl [])
             (fun _ => {["google.com" := 2; "facebook.com" := 1]})
             (fun _ _ => None)
             0 in
  exists resp,
    fst (domainAnalysis.AnalyzeDomains (domainAnalysis.mkService 10)
           (fun _ => d) reverse 0 ["example.com"; "fail.com"; "test.com"])
      = domainAnalysis.Returns (resp, None) /\
    models.BatchAnalysisResponse.Advertisers resp
      = [models.AdvertiserInfo.mk "google.com" 4;
         models.AdvertiserInfo.mk "facebook.com" 2] /\
    StronglySorted props.ordered (models.BatchAnalysisResponse.Advertisers resp) /\
    models.BatchAnalysisResponse.TotalAdvertisers resp = 6.
Proof.
  intros d.
  destruct (domainAnalysis.AnalyzeDomains (domainAnalysis.mkService 10)
              (fun _ => d) reverse 0 ["example.com"; "fail.com"; "test.com"])
    as [[[resp err] | |] calls] eqn:E; try (vm_compute in E; discriminate).
  destruct (aggregate_table _ _ _ _ _ _ _ _ E) as (_ & Hs & Ht & _).
  vm_compute in E. injection E as <- <- <-.
  eexists. split; [reflexivity |]. split; [reflexivity |].
  split; [exact Hs |]. rewrite Ht. vm_compute. reflexivity.
Defined.

(** The aggregate [TotalAdvertisers] is computed from the advertiser
    lists, not from the [TotalAdvertisers] of the results: a cached
    analysis that counts its two distinct advertisers, with three entries
    between them, gives an aggregate of 3 for a sum of 2. *)
Lemma aggregate_total_counterexample :
  let cached := models.DomainAnalysis.mk "example.com" 2
                  [models.AdvertiserInfo.mk "google.com" 2;
                   models.AdvertiserInfo.mk "facebook.com" 1] false 0 in
  let d := domainAnalysis.mkDeps
             (fun _ => inl cached)
             (fun _ => inr (models.errorString "unused"))
             (fun _ => inr (models.errorString "unused"))
             (fun _ => ∅)
             (fun _ _ => None)
             0 in
  exists resp,
    domainAnalysis.AnalyzeDomains (domainAnalysis.mkService 10) (fun _ => d)
      id 0 ["example.com"]
      = (domainAnalysis.Returns (resp, None), ["example.com"]) /\
    Forall (fun r => models.DomainResult.Success r = true)
           (models.BatchAnalysisResponse.Results resp) /\
    props.zsum (fmap models.DomainResult.TotalAdvertisers
                  (props.succeeded (models.BatchAnalysisResponse.Results resp))) = 2 /\
    models.BatchAnalysisResponse.TotalAdvertisers resp = 3 /\
    models.BatchAnalysisResponse.TotalAdvertisers resp
      <> props.zsum (fmap models.DomainResult.TotalAdvertisers
                       (props.succeeded (models.BatchAnalysisResponse.Results resp))).
Proof.
  intros cached d. eexists. split; [vm_compute; reflexivity |].
  cbn. repeat split; try (vm_compute; congruence).
  repeat constructor.
Qed.

(* ===================================================================== *)
(** * Properties: Wait *)
(* ===================================================================== *)

Section WaitFacts.

Import ratelimit props.

Variable ctx : Context.
Variable start : time.Time.
Variable ip : string.

Lemma pollInterval_pos : 0 < pollInterval.
Proof. reflexivity. Qed.

(** The next tick is later than the last receive, and no earlier than one
    period after any tick fired by then. *)
Lemma nextTick_after recv : recv < nextTick start recv.
Proof.
  unfold nextTick. pose proof pollInterval_pos as Hpos.
  pose proof (Z.mod_pos_bound (recv - start) pollInterval Hpos) as Hm.
  pose proof (Z.div_mod (recv - start) pollInterval ltac:(lia)) as Hd.
  nia.
Qed.

Lemma nextTick_count recv (j : nat) :
  start + Z.of_nat j * pollInterval <= recv ->
  start + Z.of_nat (j + 1) * pollInterval <= nextTick start recv.
Proof.
  intros H. unfold nextTick. pose proof pollInterval_pos as Hpos.
  assert (Z.of_nat j <= (recv - start) / pollInterval)
    by (apply Z.div_le_lower_bound; lia).
  nia.
Qed.

(** When the [select] goes on, a case is ready, and the case taken is a
    ready one. *)
Lemma wake_ready recv at_ :
  Done ctx (wake ctx start recv at_) = true
  \/ nextTick start recv <= wake ctx start recv at_.
Proof.
  unfold wake, Done. destruct (doneAt ctx) as [td |]; [| right; lia].
  destruct (Z.leb_spec td (Z.max at_ (Z.min td (nextTick start recv))));
    [now left | right; lia].
Qed.

Lemma select_tick recv at_ pk :
  select ctx start recv (wake ctx start recv at_) pk = CaseTick ->
  nextTick start recv <= wake ctx start recv at_.
Proof.
  unfold select. destruct (wake_ready recv at_) as [H | H].
  - rewrite H. destruct (Z.leb_spec (nextTick start recv)
                           (wake ctx start recv at_)); [auto | discriminate].
  - intros _. exact H.
Qed.

Lemma select_done recv t pk :
  select ctx start recv t pk = CaseDone -> Done ctx t = true.
Proof. unfold select. destruct (Done ctx t); [reflexivity | discriminate]. Qed.

(** The context done before the next tick fires, and the [select]
    evaluated before it fires too: the [select] takes [ctx.Done()], at once
    when the context is done already and as soon as it is otherwise. *)
Lemma select_done_only recv at_ pk td :
  doneAt ctx = Some td ->
  td < nextTick start recv -> at_ < nextTick start recv ->
  wake ctx start recv at_ = Z.max at_ td /\
  select ctx start recv (wake ctx start recv at_) pk = CaseDone.
Proof.
  intros Hd Htd Ht.
  assert (Hw : wake ctx start recv at_ = Z.max at_ td).
  { unfold wake. rewrite Hd. lia. }
  split; [exact Hw |]. rewrite Hw. unfold select, Done. rewrite Hd.
  destruct (Z.leb_spec td (Z.max at_ td)); [| lia].
  destruct (Z.leb_spec (nextTick start recv) (Z.max at_ td)); [lia | reflexivity].
Qed.

(** Both cases ready: the choice decides. *)
Lemma select_both recv t pk :
  Done ctx t = true -> nextTick start recv <= t ->
  select ctx start recv t pk = pk.
Proof.
  intros Hd Ht. unfold select. rewrite Hd.
  destruct (Z.leb_spec (nextTick start recv) t); [reflexivity | lia].
Qed.

Lemma Wait_nil_iff turns recv trl :
  fst (Wait ctx start recv turns ip trl) = Some None <->
  Exists (fun p => p.2 = true) (polls ctx start recv turns ip trl).
Proof.
  revert recv trl. induction turns as [| it turns IH]; intros recv trl;
    cbn [Wait polls].
  - split; [discriminate | intros H; inversion H].
  - destruct (select _ _ _ _ _).
    + split; [discriminate | intros H; inversion H].
    + destruct (TwoTierAllow (readings it) ip trl) as [[|] trl1]; cbn.
      * split; [intros _; now left | reflexivity].
      * rewrite IH. split; [intros H; now right | intros H].
        inversion H as [? ? Hc | ? ? Hr]; subst; [discriminate | exact Hr].
Qed.

(** Turns after which [Wait] is still in its loop can be followed by
    more. *)
Lemma Wait_app pre rest recv trl :
  fst (Wait ctx start recv pre ip trl) = None ->
  Wait ctx start recv (pre ++ rest) ip trl
  = Wait ctx start (received ctx start recv pre ip trl) rest ip
      (snd (Wait ctx start recv pre ip trl)).
Proof.
  revert recv trl. induction pre as [| it pre IH]; intros recv trl;
    cbn [Wait received app]; [reflexivity |].
  destruct (select _ _ _ _ _); [discriminate |].
  destruct (TwoTierAllow (readings it) ip trl) as [[|] trl1]; cbn;
    [discriminate | apply IH].
Qed.

Lemma Wait_nil_consumes turns recv trl :
  fst (Wait ctx start recv turns ip trl) = Some None ->
  exists pre it post,
    turns = pre ++ it :: post /\
    fst (Wait ctx start recv pre ip trl) = None /\
    TwoTierAllow (readings it) ip (snd (Wait ctx start recv pre ip trl))
      = (true, snd (Wait ctx start recv turns ip trl)).
Proof.
  revert recv trl. induction turns as [| it turns IH]; intros recv trl;
    cbn [Wait]; [discriminate |].
  destruct (select _ _ _ _ _) eqn:Es; [discriminate |].
  destruct (TwoTierAllow (readings it) ip trl) as [[|] trl1] eqn:E; cbn.
  - intros _. exists [], it, turns. cbn. auto.
  - intros H. destruct (IH _ trl1 H) as (pre & it' & post & -> & Hb & HA).
    exists (it :: pre), it', post. cbn [Wait app]. rewrite Es, E. auto.
Qed.

(** [Wait] hands back an error only from the case of [ctx.Done()]: the
    error is the context's, the context was done when the [select] went
    on, and every poll made before was denied. *)
Lemma Wait_error turns recv trl err :
  fst (Wait ctx start recv turns ip trl) = Some (Some err) ->
  err = ctxErr ctx /\
  Forall (fun p => p.2 = false) (polls ctx start recv turns ip trl) /\
  exists pre it post,
    turns = pre ++ it :: post /\
    fst (Wait ctx start recv pre ip trl) = None /\
    snd (Wait ctx start recv turns ip trl)
      = snd (Wait ctx start recv pre ip trl) /\
    Done ctx (wake ctx start (received ctx start recv pre ip trl)
                (evaluated it)) = true.
Proof.
  revert recv trl. induction turns as [| it turns IH]; intros recv trl;
    cbn [Wait polls]; [discriminate |].
  destruct (select _ _ _ _ _) eqn:Es.
  - cbn. intros [= <-]. split; [reflexivity |]. split; [constructor |].
    exists [], it, turns. cbn. repeat split. now apply select_done in Es.
  - destruct (TwoTierAllow (readings it) ip trl) as [[|] trl1] eqn:E; cbn;
      [discriminate |].
    intros H. destruct (IH _ trl1 H) as (He & Hall & pre & it' & post & -> & Hb & Hs & Hd).
    split; [exact He |]. split; [constructor; [reflexivity | exact Hall] |].
    exists (it :: pre), it', post. cbn [Wait received app]. rewrite Es, E.
    auto.
Qed.

(** The [k]-th poll follows a tick received no earlier than [k] periods
    after the ticker was created. *)
Lemma polls_not_before turns recv trl (j k : nat) t c ok :
  start + Z.of_nat j * pollInterval <= recv ->
  polls ctx start recv turns ip trl !! k = Some (t, c, ok) ->
  start + Z.of_nat (j + k + 1) * pollInterval <= t.
Proof.
  revert recv trl j k. induction turns as [| it turns IH]; intros recv trl j k Hj;
    cbn [polls]; [intros H; discriminate |].
  destruct (select _ _ _ _ _) eqn:Es; [intros H; discriminate |].
  apply select_tick in Es. pose proof (nextTick_count recv j Hj) as Hn.
  set (t1 := wake ctx start recv (evaluated it)) in *.
  assert (Ht1 : start + Z.of_nat (j + 1) * pollInterval <= t1) by lia.
  destruct (TwoTierAllow (readings it) ip trl) as [ok1 trl1].
  destruct k as [| k]; cbn.
  - intros [= <- <- <-]. replace (j + 0 + 1)%nat with (j + 1)%nat by lia.
    exact Ht1.
  - destruct ok1; [intros H; discriminate |].
    intros H. pose proof (IH t1 trl1 (j + 1)%nat k Ht1 H) as Hk.
    replace (j + S k + 1)%nat with (j + 1 + k + 1)%nat by lia. exact Hk.
Qed.

End WaitFacts.

(** C9.  [Wait] polls [Allow] on the ticks of a ticker of period 100ms:
    its [k]-th poll follows a tick received no earlier than [k] periods
    after the ticker was created.  It returns nil exactly when a poll is
    admitted, the limiter being left as that [Allow] left it (a token
    taken).  It returns an error only from the case of [ctx.Done()]: the
    error is then the context's, the context was done, every poll made
    was denied and the limiter is as the last of them left it.  When the
    context is done before the next tick fires, and the [select] is
    evaluated before it fires, [Wait] returns the context's error; when
    the context is done and a tick is pending too, the [select] takes
    either case, and [Wait] goes on to poll if it takes the tick. *)
Theorem Wait_polls_until_admitted_or_done
    (ctx : ratelimit.Context) (start : time.Time)
    (turns : list ratelimit.iteration) (ip : string)
    (trl : ratelimit.TwoTierRateLimiter) :
  let Wait := fun turns => ratelimit.Wait ctx start start turns ip trl in
  let polls := ratelimit.polls ctx start start turns ip trl in
  let received := fun pre => ratelimit.received ctx start start pre ip trl in
  ratelimit.pollInterval = 100 * 1000000 /\
  (forall k t c ok,
      polls !! k = Some (t, c, ok) ->
      start + Z.of_nat (k + 1) * ratelimit.pollInterval <= t /\
      (ratelimit.in_order t c ->
       start + Z.of_nat (k + 1) * ratelimit.pollInterval
         <= ratelimit.atGlobal c)) /\
  (fst (Wait turns) = Some None <-> Exists (fun p => p.2 = true) polls) /\
  (fst (Wait turns) = Some None ->
   exists pre it post,
     turns = pre ++ it :: post /\
     fst (Wait pre) = None /\
     ratelimit.TwoTierAllow (ratelimit.readings it) ip (snd (Wait pre))
       = (true, snd (Wait turns))) /\
  (forall err,
      fst (Wait turns) = Some (Some err) ->
      err = ratelimit.ctxErr ctx /\
      Forall (fun p => p.2 = false) polls /\
      exists pre it post,
        turns = pre ++ it :: post /\
        fst (Wait pre) = None /\
        snd (Wait turns) = snd (Wait pre) /\
        ratelimit.Done ctx
          (ratelimit.wake ctx start (received pre) (ratelimit.evaluated it))
          = true) /\
  (forall pre it post td,
      turns = pre ++ it :: post ->
      fst (Wait pre) = None ->
      ratelimit.doneAt ctx = Some td ->
      td < ratelimit.nextTick start (received pre) ->
      ratelimit.evaluated it < ratelimit.nextTick start (received pre) ->
      Wait turns = (Some (Some (ratelimit.ctxErr ctx)), snd (Wait pre))) /\
  (forall pre it post,
      turns = pre ++ it :: post ->
      fst (Wait pre) = None ->
      let t := ratelimit.wake ctx start (received pre) (ratelimit.evaluated it) in
      ratelimit.Done ctx t = true ->
      ratelimit.nextTick start (received pre) <= t ->
      Wait turns =
        match ratelimit.pick it with
        | ratelimit.CaseDone =>
            (Some (Some (ratelimit.ctxErr ctx)), snd (Wait pre))
        | ratelimit.CaseTick =>
            let '(ok, trl1) :=
              ratelimit.TwoTierAllow (ratelimit.readings it) ip (snd (Wait pre)) in
            if ok then (Some None, trl1)
            else ratelimit.Wait ctx start t post ip trl1
        end).
Proof.
  intros Wait polls received.
  split; [reflexivity |].
  split.
  { intros k t c ok Hk.
    pose proof (polls_not_before ctx start ip turns start trl 0 k t c ok
                  ltac:(lia) Hk) as H.
    cbn [Nat.add] in H. split; [exact H |].
    intros (Hc & _). lia. }
  split; [apply Wait_nil_iff |].
  split; [apply Wait_nil_consumes |].
  split; [intros err; apply Wait_error |].
  split.
  - intros pre it post td -> Hpre Hd Htd Ht. unfold Wait.
    rewrite Wait_app by exact Hpre. cbn [ratelimit.Wait].
    destruct (select_done_only ctx start _ _ (ratelimit.pick it) td Hd Htd Ht)
      as [Hw Hs].
    fold (received pre) in Hw, Hs |- *. now rewrite Hs.
  - intros pre it post -> Hpre t Hd Ht. unfold Wait.
    rewrite Wait_app by exact Hpre. cbn [ratelimit.Wait].
    fold (received pre). fold t.
    rewrite (select_both ctx start _ t (ratelimit.pick it) Hd Ht).
    destruct (ratelimit.pick it); reflexivity.
Qed.

Lemma Wait_polls_until_admitted_or_done_witness :
  let background := ratelimit.mkContext None ratelimit.Canceled in
  let deadline := ratelimit.mkContext (Some 150000000) ratelimit.DeadlineExceeded in
  let trl0 := ratelimit.NewTwoTierRateLimiter 0 1 1 1 1 in
  let trl := snd (ratelimit.TwoTierAllow (ratelimit.instant 0) "192.168.1.1" trl0) in
  let turn n := ratelimit.mkIteration (Z.of_nat (n - 1) * 100000000)
                  ratelimit.CaseTick
                  (ratelimit.instant (Z.of_nat n * 100000000)) in
  fst (ratelimit.Wait background 0 0 (map turn (seq 1 10)) "192.168.1.1" trl)
    = Some None /\
  ratelimit.Wait deadline 0 0 [turn 1%nat; turn 2%nat] "192.168.1.1" trl
    = (Some (Some ratelimit.DeadlineExceeded), trl).
Proof.
  intros background deadline trl0 trl turn. split.
  - destruct (Wait_polls_until_admitted_or_done background 0
                (map turn (seq 1 10)) "192.168.1.1" trl) as (_ & _ & H & _).
    apply H. vm_compute. do 9 right. left. reflexivity.
  - destruct (Wait_polls_until_admitted_or_done deadline 0
                [turn 1%nat; turn 2%nat] "192.168.1.1" trl)
      as (_ & _ & _ & _ & _ & H & _).
    rewrite (H [turn 1%nat] (turn 2%nat) [] 150000000);
      [vm_compute; reflexivity | reflexivity | reflexivity | reflexivity
       | vm_compute; reflexivity | vm_compute; reflexivity].
Defined.

(** C9, as stated, fails.  A context whose deadline is the instant of the
    first tick: both cases of the [select] are ready together, the
    [select] takes the tick, the poll is admitted a nanosecond after the
    deadline, and [Wait] returns nil and not the context's error.  And a
    context whose deadline passes between two ticks while the goroutine is
    held up: the [select] evaluated after the second tick finds both cases
    ready. *)
Lemma Wait_nil_after_context_done :
  let trl := ratelimit.NewTwoTierRateLimiter 0 5 1 5 1 in
  let ip := "192.168.1.1" in
  let ctx1 := ratelimit.mkContext (Some 100000000) ratelimit.DeadlineExceeded in
  let turns1 := [ratelimit.mkIteration 0 ratelimit.CaseTick
                   (ratelimit.instant 100000001)] in
  let empty := snd (ratelimit.TwoTierAllow (ratelimit.instant 0) ip
                      (ratelimit.NewTwoTierRateLimiter 0 1 5 1 5)) in
  let ctx2 := ratelimit.mkContext (Some 150000000) ratelimit.Canceled in
  let turns2 := [ratelimit.mkIteration 0 ratelimit.CaseTick
                   (ratelimit.instant 100000000);
                 ratelimit.mkIteration 200000000 ratelimit.CaseTick
                   (ratelimit.instant 200000000)] in
  (ratelimit.Done ctx1 100000000 = true /\
   ratelimit.polls ctx1 0 0 turns1 ip trl
     = [(100000000, ratelimit.instant 100000001, true)] /\
   fst (ratelimit.Wait ctx1 0 0 turns1 ip trl) = Some None /\
   fst (ratelimit.Wait ctx1 0 0 turns1 ip trl)
     <> Some (Some (ratelimit.ctxErr ctx1))) /\
  (ratelimit.Done ctx2 150000000 = true /\
   ratelimit.polls ctx2 0 0 turns2 ip empty
     = [(100000000, ratelimit.instant 100000000, false);
        (200000000, ratelimit.instant 200000000, true)] /\
   fst (ratelimit.Wait ctx2 0 0 turns2 ip empty) = Some None /\
   fst (ratelimit.Wait ctx2 0 0 turns2 ip empty)
     <> Some (Some (ratelimit.ctxErr ctx2))).
Proof.
  vm_compute. repeat split; congruence.
Qed.

(* ===================================================================== *)
(** * Properties: rounding of the accrued amount *)
(* ===================================================================== *)

Section RoundingFacts.

Local Abbreviation fexp := (fexp Float64.prec Float64.emax).

Lemma digits2_pos_bounds p :
  2 ^ (Z.pos (digits2_pos p) - 1) <= Z.pos p < 2 ^ Z.pos (digits2_pos p).
Proof.
  induction p as [p IH | p IH |]; cbn [digits2_pos].
  - rewrite Pos2Z.inj_succ.
    replace (Z.succ (Z.pos (digits2_pos p)) - 1) with (Z.pos (digits2_pos p)) by lia.
    rewrite Z.pow_succ_r by lia.
    replace (Z.pos (digits2_pos p)) with (Z.pos (digits2_pos p) - 1 + 1) at 1 by lia.
    rewrite Z.pow_add_r by lia. lia.
  - rewrite Pos2Z.inj_succ.
    replace (Z.succ (Z.pos (digits2_pos p)) - 1) with (Z.pos (digits2_pos p)) by lia.
    rewrite Z.pow_succ_r by lia.
    replace (Z.pos (digits2_pos p)) with (Z.pos (digits2_pos p) - 1 + 1) at 1 by lia.
    rewrite Z.pow_add_r by lia. lia.
  - cbn. lia.
Qed.

(** A positive number below [2 ^ n] has at most [n] digits. *)
Lemma digits2_pos_le p n :
  0 <= n -> Z.pos p < 2 ^ n -> Z.pos (digits2_pos p) <= n.
Proof.
  intros Hn Hp. destruct (digits2_pos_bounds p) as [Hlo _].
  destruct (Z.le_gt_cases (Z.pos (digits2_pos p)) n) as [H | H]; [exact H |].
  exfalso. assert (2 ^ n <= 2 ^ (Z.pos (digits2_pos p) - 1))
    by (apply Z.pow_le_mono_r; lia). lia.
Qed.

Lemma shr_1_m mrs : 0 <= shr_m mrs -> shr_m (shr_1 mrs) = shr_m mrs / 2.
Proof.
  destruct mrs as [m r s]. cbn [shr_m]. intros Hm. unfold shr_1.
  destruct m as [| [p | p |] | p]; cbn [shr_m]; try reflexivity; try lia.
  - apply Z.div_unique with (r := 1); lia.
  - apply Z.div_unique with (r := 0); lia.
Qed.

Lemma iter_shr_1_m p mrs :
  0 <= shr_m mrs ->
  shr_m (SpecFloat.iter_pos shr_1 p mrs) = shr_m mrs / 2 ^ Z.pos p.
Proof.
  revert mrs. induction p as [p IH | p IH |]; intros mrs Hm; cbn [SpecFloat.iter_pos].
  - assert (H1 : 0 <= shr_m (shr_1 mrs))
      by (rewrite shr_1_m by assumption; apply Z.div_pos; lia).
    assert (H2 : 0 <= shr_m (SpecFloat.iter_pos shr_1 p (shr_1 mrs)))
      by (rewrite IH by assumption; apply Z.div_pos; [lia | apply Z.pow_pos_nonneg; lia]).
    rewrite IH, IH, shr_1_m by assumption.
    rewrite !Z.div_div by (try apply Z.pow_pos_nonneg; lia).
    f_equal.
    replace (Z.pos p~1) with (1 + Z.pos p + Z.pos p) by lia.
    rewrite !Z.pow_add_r by lia. lia.
  - assert (H2 : 0 <= shr_m (SpecFloat.iter_pos shr_1 p mrs))
      by (rewrite IH by assumption; apply Z.div_pos; [lia | apply Z.pow_pos_nonneg; lia]).
    rewrite IH, IH by assumption.
    rewrite !Z.div_div by (try apply Z.pow_pos_nonneg; lia).
    f_equal.
    replace (Z.pos p~0) with (Z.pos p + Z.pos p) by lia.
    rewrite !Z.pow_add_r by lia. lia.
  - rewrite shr_1_m by assumption. reflexivity.
Qed.

Lemma shr_record_of_loc_m m l : shr_m (shr_record_of_loc m l) = m.
Proof. destruct l as [| []]; reflexivity. Qed.

(** [shr_fexp] divides the mantissa by a power of two, rounding down, and
    moves the exponent up by as much. *)
Lemma shr_fexp_spec m e l :
  0 <= m ->
  let n := Z.max 0 (fexp (Zdigits2 m + e) - e) in
  shr_m (shr_fexp Float64.prec Float64.emax m e l).1 = m / 2 ^ n /\
  (shr_fexp Float64.prec Float64.emax m e l).2 = e + n.
Proof.
  intros Hm n. subst n. unfold shr_fexp, shr.
  destruct (fexp (Zdigits2 m + e) - e) as [| p | p]; cbn [fst snd].
  - rewrite shr_record_of_loc_m. cbn. rewrite Z.div_1_r. split; [reflexivity | lia].
  - rewrite iter_shr_1_m by (rewrite shr_record_of_loc_m; assumption).
    rewrite shr_record_of_loc_m. rewrite Z.max_r by lia. split; reflexivity.
  - rewrite shr_record_of_loc_m. rewrite Z.max_l by lia. cbn.
    rewrite Z.div_1_r. split; [reflexivity | lia].
Qed.

Lemma round_nearest_even_bounds m l :
  m <= round_nearest_even m l <= m + 1.
Proof.
  unfold round_nearest_even. destruct l as [| []]; try lia.
  destruct (Z.even m); lia.
Qed.

(** Rounding adds at most one unit in the last place kept: a finite
    result [m * 2 ^ e] of rounding [mx * 2 ^ ex] has [e >= ex] and, at the
    scale of [ex], mantissa at most [mx + 2 ^ n], where [n] is the number
    of bits the first shift drops. *)
Lemma binary_round_aux_upper sx mx ex lx s m e :
  0 <= mx ->
  binary_round_aux Float64.prec Float64.emax sx mx ex lx = S754_finite s m e ->
  let n := Z.max 0 (fexp (Zdigits2 mx + ex) - ex) in
  s = sx /\ ex <= e /\ Z.pos m * 2 ^ (e - ex) <= mx + 2 ^ n.
Proof.
  intros Hmx Hr n. unfold binary_round_aux in Hr.
  destruct (shr_fexp_spec mx ex lx Hmx) as [Hm1 He1]. fold n in Hm1, He1.
  destruct (shr_fexp Float64.prec Float64.emax mx ex lx) as [mrs1 e1].
  cbn [fst snd] in Hm1, He1.
  set (m1 := round_nearest_even (shr_m mrs1) (loc_of_shr_record mrs1)) in *.
  assert (Hn : 0 <= n) by (unfold n; lia).
  assert (Hpn : 0 < 2 ^ n) by (apply Z.pow_pos_nonneg; lia).
  assert (Hm1' : 0 <= shr_m mrs1) by (rewrite Hm1; apply Z.div_pos; lia).
  pose proof (round_nearest_even_bounds (shr_m mrs1) (loc_of_shr_record mrs1)) as Hrne.
  fold m1 in Hrne.
  destruct (shr_fexp_spec m1 e1 loc_Exact ltac:(lia)) as [Hm2 He2].
  set (n2 := Z.max 0 (fexp (Zdigits2 m1 + e1) - e1)) in *.
  destruct (shr_fexp Float64.prec Float64.emax m1 e1 loc_Exact) as [mrs2 e2].
  cbn [fst snd] in Hm2, He2.
  assert (Hn2 : 0 <= n2) by (unfold n2; lia).
  assert (Hpn2 : 0 < 2 ^ n2) by (apply Z.pow_pos_nonneg; lia).
  destruct (shr_m mrs2) as [| m2 | m2] eqn:E2; try discriminate.
  destruct (e2 <=? Float64.emax - Float64.prec); [| discriminate].
  injection Hr as <- <- <-.
  split; [reflexivity |]. split; [lia |].
  replace (e2 - ex) with (n2 + n) by lia.
  rewrite Z.pow_add_r by lia.
  pose proof (Z.mul_div_le m1 (2 ^ n2) Hpn2) as Hfl2.
  pose proof (Z.mul_div_le mx (2 ^ n) Hpn) as Hfl1.
  rewrite <- Hm2 in Hfl2. rewrite <- Hm1 in Hfl1.
  nia.
Qed.

Lemma digits2_pos_unique p n :
  2 ^ (n - 1) <= Z.pos p < 2 ^ n -> Z.pos (digits2_pos p) = n.
Proof.
  intros [Hlo Hhi]. destruct (digits2_pos_bounds p) as [Hlo' Hhi'].
  assert (Hn : 0 < n).
  { destruct (Z.lt_ge_cases 0 n) as [H | H]; [exact H |].
    destruct (Z.eq_dec n 0) as [-> | Hne]; [cbn in Hhi; lia |].
    rewrite Z.pow_neg_r in Hhi by lia. lia. }
  destruct (Z.lt_trichotomy (Z.pos (digits2_pos p)) n) as [H | [H | H]]; [| exact H |].
  - assert (2 ^ Z.pos (digits2_pos p) <= 2 ^ (n - 1))
      by (apply Z.pow_le_mono_r; lia). lia.
  - assert (2 ^ n <= 2 ^ (Z.pos (digits2_pos p) - 1))
      by (apply Z.pow_le_mono_r; lia). lia.
Qed.

(** A mantissa of 53 bits with an exponent in range is its own
    rounding. *)
Lemma binary_round_aux_exact s m e :
  Z.pos (digits2_pos m) = 53 -> -1074 <= e <= 971 ->
  binary_round_aux Float64.prec Float64.emax s (Z.pos m) e loc_Exact
  = S754_finite s m e.
Proof.
  intros Hd He.
  assert (Hn : fexp (Zdigits2 (Z.pos m) + e) - e = 0).
  { cbn [Zdigits2]. rewrite Hd. unfold SpecFloat.fexp, emin, Float64.prec, Float64.emax. lia. }
  unfold binary_round_aux, shr_fexp. rewrite Hn. cbn [shr shr_record_of_loc].
  cbn [shr_m loc_of_shr_record round_nearest_even]. rewrite Hn.
  cbn [shr shr_record_of_loc shr_m].
  destruct (Z.leb_spec e (Float64.emax - Float64.prec)) as [_ | H];
    [reflexivity | unfold Float64.prec, Float64.emax in H; lia].
Qed.

(** [float64(z)] is exact for a positive integer below [2 ^ 53]: the
    mantissa is [z] shifted left to 53 bits. *)
Lemma of_int_exact p :
  Z.pos p < 2 ^ 53 ->
  exists m k,
    Float64.of_int (Z.pos p) = S754_finite false m (- k) /\
    k = 53 - Z.pos (digits2_pos p) /\ 0 <= k <= 52 /\
    Z.pos m = Z.pos p * 2 ^ k /\
    Z.pos (digits2_pos m) = 53.
Proof.
  intros Hp. destruct (digits2_pos_bounds p) as [Hlo Hhi].
  pose proof (digits2_pos_le p 53 ltac:(lia) Hp) as Hd.
  set (dp := Z.pos (digits2_pos p)) in *.
  assert (Hdp : 1 <= dp) by (unfold dp; lia).
  unfold Float64.of_int, binary_normalize, binary_round.
  assert (Hf : fexp (Z.pos (digits2_pos p) + 0) = dp - 53).
  { fold dp. unfold SpecFloat.fexp, emin, Float64.prec, Float64.emax. lia. }
  rewrite Hf. unfold shl_align.
  destruct (dp - 53 - 0) as [| k | k] eqn:Ek; try lia.
  - exists p, 0. assert (dp = 53) by lia.
    rewrite binary_round_aux_exact by (fold dp; lia).
    repeat split; try lia.
  - exists (Pos.iter xO p k), (Z.pos k).
    change (Z.neg k) with (- Z.pos k) in Ek.
    assert (Hm : Z.pos (Pos.iter xO p k) = Z.pos p * 2 ^ Z.pos k).
    { change (Pos.iter xO p k) with (shift_pos k p).
      rewrite shift_pos_correct, Zpower_pos_nat, Zpower_nat_Z, positive_nat_Z. lia. }
    assert (Hdm : Z.pos (digits2_pos (Pos.iter xO p k)) = 53).
    { apply digits2_pos_unique. rewrite Hm.
      assert (Hk : 0 < 2 ^ Z.pos k) by (apply Z.pow_pos_nonneg; lia).
      assert (E1 : 2 ^ (53 - 1) = 2 ^ (dp - 1) * 2 ^ Z.pos k)
        by (rewrite <- Z.pow_add_r by lia; f_equal; lia).
      assert (E2 : 2 ^ 53 = 2 ^ dp * 2 ^ Z.pos k)
        by (rewrite <- Z.pow_add_r by lia; f_equal; lia).
      rewrite E1, E2. split.
      - apply Z.mul_le_mono_nonneg_r; lia.
      - apply Z.mul_lt_mono_pos_r; lia. }
    replace (dp - 53) with (- Z.pos k) by lia.
    rewrite binary_round_aux_exact by (try assumption; lia).
    repeat split; try lia; assumption.
Qed.

Lemma Zdigits2_le m n : 0 <= m < 2 ^ n -> 0 <= n -> Zdigits2 m <= n.
Proof.
  intros [H0 H1] Hn. destruct m as [| p | p]; cbn [Zdigits2]; try lia.
  now apply digits2_pos_le.
Qed.

(** The fraction of a second: [float64(nsec) / 1e9] is at most two units
    of its last place above the exact quotient.  With [k] the shift that
    brings [nsec] to 53 bits, a finite quotient [m * 2 ^ e] has
    [e >= - k - 30] and, at that scale, [m * 1e9 <= nsec * 2 ^ (k + 30) +
    2e9]. *)
Lemma div_1e9_upper p s m e :
  Z.pos p < 2 ^ 53 ->
  Float64.div (Float64.of_int (Z.pos p)) (Float64.of_int (10 ^ 9))
    = S754_finite s m e ->
  let k := 53 - Z.pos (digits2_pos p) in
  s = false /\ - k - 30 <= e /\
  Z.pos m * 2 ^ (e + k + 30) * 10 ^ 9 <= Z.pos p * 2 ^ (k + 30) + 2 * 10 ^ 9.
Proof.
  intros Hp Hq k0.
  destruct (of_int_exact p Hp) as (md & k & Hfd & Hk & Hkr & Hmd & Hdm).
  fold k0 in Hk. subst k0. rewrite <- Hk. clear Hk.
  unfold Float64.div in Hq. rewrite Hfd in Hq.
  change (Float64.of_int (10 ^ 9))
    with (S754_finite false 8388608000000000 (-23)) in Hq.
  unfold SFdiv, SFdiv_core_binary in Hq. cbv zeta in Hq.
  cbn [Zdigits2 xorb] in Hq. rewrite Hdm in Hq.
  change (Z.pos (digits2_pos 8388608000000000)) with 53 in Hq.
  replace (Z.min (fexp (53 + - k - (53 + -23))) (- k - -23))
    with (- k - 30) in Hq
    by (unfold SpecFloat.fexp, emin, Float64.prec, Float64.emax; lia).
  replace (- k - -23 - (- k - 30)) with 53 in Hq by lia.
  rewrite Z.shiftl_mul_pow2 in Hq by lia.
  pose proof (Z_div_mod (Z.pos md * 2 ^ 53) 8388608000000000 ltac:(lia)) as Hdiv.
  destruct (Z.div_eucl (Z.pos md * 2 ^ 53) 8388608000000000) as [q0 r].
  destruct Hdiv as [Hdiv Hr].
  destruct (digits2_pos_bounds md) as [Hlo Hhi]. rewrite Hdm in Hlo, Hhi.
  assert (Hq0 : 0 <= q0 < 2 ^ 54) by nia.
  destruct (binary_round_aux_upper _ _ _ _ _ _ _ (proj1 Hq0) Hq) as (Hs & He & Hm).
  pose proof (Zdigits2_le q0 54 Hq0 ltac:(lia)) as Hdq.
  assert (Hn : Z.max 0 (fexp (Zdigits2 q0 + (- k - 30)) - (- k - 30)) <= 1)
    by (unfold SpecFloat.fexp, emin, Float64.prec, Float64.emax; lia).
  assert (Hpn : 2 ^ Z.max 0 (fexp (Zdigits2 q0 + (- k - 30)) - (- k - 30)) <= 2 ^ 1)
    by (apply Z.pow_le_mono_r; lia).
  split; [exact Hs |]. split; [exact He |].
  replace (e + k + 30) with (e - (- k - 30)) by lia.
  assert (Hq9 : q0 * 10 ^ 9 <= Z.pos p * 2 ^ (k + 30)).
  { rewrite Z.pow_add_r by lia. rewrite Hmd in Hdiv.
    assert (0 < 2 ^ k) by (apply Z.pow_pos_nonneg; lia). nia. }
  nia.
Qed.

Lemma to_int64_below_one s m e :
  e < 0 -> Z.pos m < 2 ^ (- e) -> Float64.to_int64 (S754_finite s m e) = 0.
Proof.
  intros He Hm. unfold Float64.to_int64, Float64.trunc.
  destruct (Z.leb_spec 0 e); [lia |].
  rewrite Z.div_small by lia. now destruct s.
Qed.

Lemma to_int64_not_finite x :
  (forall s m e, x <> S754_finite s m e) -> Float64.to_int64 x <= 0.
Proof.
  intros H. destruct x as [s | s | | s m e].
  - change (0 <= 0). lia.
  - change (Int64.MinInt64 <= 0). unfold Int64.MinInt64. lia.
  - change (Int64.MinInt64 <= 0). unfold Int64.MinInt64. lia.
  - now destruct (H s m e).
Qed.

(** A product that rounds from below one stays below one.  At the scale
    [2 ^ (- T)]: the exact product [M * 2 ^ (g - T)] is below
    [1 - 2 ^ (- 21)], far enough from one for a rounding of 53 bits. *)
Lemma mul_below_one s M g T :
  0 < M -> 0 <= g <= 54 -> 105 <= T <= 134 ->
  M * 2 ^ g * 10 ^ 9 <= (10 ^ 9 - 1) * 2 ^ T + 2 ^ 85 ->
  Float64.to_int64
    (binary_round_aux Float64.prec Float64.emax s M (g - T) loc_Exact) <= 0.
Proof.
  intros HM Hg HT Hb.
  destruct (binary_round_aux Float64.prec Float64.emax s M (g - T) loc_Exact)
    as [s' | s' | | s' m e] eqn:Hr;
    try (apply to_int64_not_finite; discriminate).
  destruct (binary_round_aux_upper _ _ _ _ _ _ _ (Z.lt_le_incl _ _ HM) Hr)
    as (_ & He & Hm).
  set (N := Z.max 0 (fexp (Zdigits2 M + (g - T)) - (g - T))) in *.
  assert (Hpg : 0 < 2 ^ g) by (apply Z.pow_pos_nonneg; lia).
  set (W := 2 ^ (T - 51)).
  assert (HW : 2 ^ 54 <= W) by (unfold W; apply Z.pow_le_mono_r; lia).
  assert (HY : 2 ^ T = 2 ^ 51 * W)
    by (unfold W; rewrite <- Z.pow_add_r by lia; f_equal; lia).
  set (X := M * 2 ^ g) in *.
  (* the exact product is below one *)
  assert (HMT : X < 2 ^ T).
  { apply (Z.mul_lt_mono_pos_r (10 ^ 9)); [lia |]. rewrite HY in *. lia. }
  assert (HTg : 2 ^ T = 2 ^ (T - g) * 2 ^ g)
    by (rewrite <- Z.pow_add_r by lia; f_equal; lia).
  assert (HM2 : M < 2 ^ (T - g)).
  { apply (Z.mul_lt_mono_pos_r (2 ^ g)); [exact Hpg |]. now rewrite <- HTg. }
  pose proof (Zdigits2_le M (T - g) ltac:(lia) ltac:(lia)) as HdM.
  (* so the rounding drops at most [T - g - 53] bits *)
  assert (HN : 0 <= N /\ N + g <= T - 51).
  { unfold N, SpecFloat.fexp, emin, Float64.prec, Float64.emax. lia. }
  assert (HNg : 2 ^ N * 2 ^ g <= W).
  { rewrite <- Z.pow_add_r by lia. unfold W. apply Z.pow_le_mono_r; lia. }
  assert (Hsum : (M + 2 ^ N) * 2 ^ g < 2 ^ T).
  { rewrite Z.mul_add_distr_r. fold X.
    apply (Z.mul_lt_mono_pos_r (10 ^ 9)); [lia |]. rewrite HY in *. lia. }
  (* and the result is below one *)
  set (h := e - (g - T)) in *.
  assert (Hph : 0 < 2 ^ h) by (apply Z.pow_pos_nonneg; unfold h; lia).
  assert (Hme : Z.pos m * 2 ^ h * 2 ^ g < 2 ^ T).
  { eapply Z.le_lt_trans; [| exact Hsum].
    apply Z.mul_le_mono_nonneg_r; [lia | exact Hm]. }
  assert (He0 : e < 0).
  { destruct (Z.lt_ge_cases e 0) as [H | H]; [exact H | exfalso].
    assert (H1 : 2 ^ (T - g) <= 2 ^ h) by (apply Z.pow_le_mono_r; unfold h; lia).
    assert (H2 : 2 ^ (T - g) * 2 ^ g <= Z.pos m * 2 ^ h * 2 ^ g).
    { apply Z.mul_le_mono_nonneg_r; [lia |].
      assert (1 * 2 ^ h <= Z.pos m * 2 ^ h)
        by (apply Z.mul_le_mono_nonneg_r; lia). lia. }
    rewrite <- HTg in H2. lia. }
  rewrite to_int64_below_one; [lia | exact He0 |].
  assert (HTe : 2 ^ T = 2 ^ (- e) * (2 ^ h * 2 ^ g)).
  { rewrite <- !Z.pow_add_r by (unfold h; lia). f_equal. unfold h. lia. }
  apply (Z.mul_lt_mono_pos_r (2 ^ h * 2 ^ g)); [lia |].
  rewrite <- HTe. now rewrite Z.mul_assoc.
Qed.

(** Before a whole token has accrued, [refill] adds nothing: for an
    elapsed time of [d] nanoseconds with [d * rate < 1e9], the product
    [d.Seconds() * float64(rate)] converts to at most 0. *)
Lemma accrual_below_one d rate :
  0 <= d -> 0 < rate -> d * rate < 10 ^ 9 ->
  Float64.to_int64 (Float64.mul (time.Seconds d) (Float64.of_int rate)) <= 0.
Proof.
  intros Hd Hrate Hlt.
  assert (Hd9 : d < 10 ^ 9) by nia.
  unfold time.Seconds.
  rewrite Z.quot_small, Z.rem_small by (unfold time.Second; lia).
  change (Float64.of_int 0) with (S754_zero false).
  destruct d as [| p | p]; try lia.
  { change (Float64.add _ _) with (S754_zero false).
    apply to_int64_not_finite.
    unfold Float64.mul. destruct (Float64.of_int rate); discriminate. }
  destruct rate as [| pr | pr]; try lia.
  assert (Hpr9 : Z.pos pr < 10 ^ 9) by nia.
  destruct (of_int_exact pr ltac:(lia)) as (mr & kr & Hfr & Hkr & Hkrr & Hmr & Hdmr).
  rewrite Hfr.
  destruct (Float64.div (Float64.of_int (Z.pos p)) (Float64.of_int (10 ^ 9)))
    as [s | s | | s mq eq] eqn:Hq.
  - apply to_int64_not_finite. destruct s; discriminate.
  - apply to_int64_not_finite. discriminate.
  - apply to_int64_not_finite. discriminate.
  - destruct (div_1e9_upper p s mq eq ltac:(lia) Hq) as (-> & Heq & HA).
    set (kd := 53 - Z.pos (digits2_pos p)) in *.
    destruct (digits2_pos_bounds p) as [Hplo Hphi].
    destruct (digits2_pos_bounds pr) as [Hrlo Hrhi].
    set (dd := Z.pos (digits2_pos p)) in *.
    set (dr := Z.pos (digits2_pos pr)) in *.
    assert (Hdd : 1 <= dd) by (unfold dd; lia).
    assert (Hdr : 1 <= dr) by (unfold dr; lia).
    (* the two operands have at most 31 bits between them *)
    assert (Hbits : dd + dr <= 31).
    { assert (H : 2 ^ (dd + dr - 2) < 2 ^ 30).
      { replace (dd + dr - 2) with ((dd - 1) + (dr - 1)) by lia.
        rewrite Z.pow_add_r by lia.
        assert (2 ^ (dd - 1) * 2 ^ (dr - 1) <= Z.pos p * Z.pos pr)
          by (apply Z.mul_le_mono_nonneg; try lia;
              apply Z.pow_nonneg; lia).
        lia. }
      apply Z.pow_lt_mono_r_iff in H; lia. }
    set (g := eq + kd + 30) in *.
    set (T := kd + 30 + kr).
    assert (Hpg : 0 < 2 ^ g) by (apply Z.pow_pos_nonneg; unfold g; lia).
    assert (Hpkd : 0 < 2 ^ kd) by (apply Z.pow_pos_nonneg; unfold kd; lia).
    assert (Hpkr : 0 < 2 ^ kr) by (apply Z.pow_pos_nonneg; lia).
    (* the dividend, shifted, is below [2 ^ 53] *)
    assert (Hmd : Z.pos p * 2 ^ kd < 2 ^ 53).
    { assert (E53 : 2 ^ 53 = 2 ^ dd * 2 ^ kd)
        by (rewrite <- Z.pow_add_r by (unfold kd; lia); f_equal; unfold kd; lia).
      rewrite E53. apply Z.mul_lt_mono_pos_r; lia. }
    assert (HB : Z.pos p * 2 ^ (kd + 30) < 2 ^ 83).
    { rewrite Z.pow_add_r by (unfold kd; lia). lia. }
    assert (Hg : 0 <= g <= 54).
    { split; [unfold g; lia |].
      destruct (Z.le_gt_cases g 54) as [H | H]; [exact H | exfalso].
      assert (H55 : 2 ^ 55 <= 2 ^ g) by (apply Z.pow_le_mono_r; lia).
      assert (H1 : 1 * (2 ^ g * 10 ^ 9) <= Z.pos mq * (2 ^ g * 10 ^ 9))
        by (apply Z.mul_le_mono_nonneg_r; lia).
      lia. }
    assert (HT : 105 <= T <= 134) by (unfold T, kd; lia).
    assert (Hmr53 : Z.pos mr < 2 ^ 53).
    { destruct (digits2_pos_bounds mr) as [_ H]. now rewrite Hdmr in H. }
    simpl Float64.add. unfold Float64.mul, SFmul. cbn [xorb].
    replace (eq + - kr) with (g - T) by (unfold g, T; lia).
    apply mul_below_one; try lia.
    rewrite Pos2Z.inj_mul.
    set (A := Z.pos mq * 2 ^ g * 10 ^ 9) in *.
    replace (Z.pos mq * Z.pos mr * 2 ^ g * 10 ^ 9) with (A * Z.pos mr)
      by (unfold A; ring).
    assert (H1 : A * Z.pos mr
                 <= (Z.pos p * 2 ^ (kd + 30) + 2 * 10 ^ 9) * Z.pos mr)
      by (apply Z.mul_le_mono_nonneg_r; lia).
    assert (H2 : Z.pos p * 2 ^ (kd + 30) * Z.pos mr
                 = Z.pos p * Z.pos pr * 2 ^ T).
    { rewrite Hmr. unfold T.
      rewrite (Z.pow_add_r 2 (kd + 30) kr) by (unfold kd; lia). ring. }
    assert (H3 : Z.pos p * Z.pos pr * 2 ^ T <= (10 ^ 9 - 1) * 2 ^ T)
      by (apply Z.mul_le_mono_nonneg_r; [apply Z.pow_nonneg |]; lia).
    rewrite Z.mul_add_distr_r, H2 in H1. lia.
Qed.

End RoundingFacts.

(* ===================================================================== *)
(** * Properties: saturation *)
(* ===================================================================== *)

Section SaturationFacts.

Import ratelimit props.

Lemma Sub_small now t0 :
  0 <= now - t0 < 10 ^ 9 -> time.Sub now t0 = now - t0.
Proof.
  intros H. unfold time.Sub, Int64.sub.
  rewrite wrap_in_range
    by (unfold Int64.in_range, Int64.MinInt64, Int64.MaxInt64; lia).
  destruct (Z.ltb_spec (now - t0) 0); [lia |].
  destruct (Z.ltb_spec now t0); [lia |].
  now rewrite andb_false_r.
Qed.

(** Less than [1 / refillRate] seconds after the last refill, nothing
    accrues. *)
Lemma tokensToAdd_before_first_token now tb :
  0 < refillRate tb -> lastRefill tb <= now ->
  (now - lastRefill tb) * refillRate tb < 10 ^ 9 ->
  tokensToAdd now tb <= 0.
Proof.
  intros Hr Hn Hlt. unfold tokensToAdd, accrued.
  rewrite Sub_small by nia.
  apply accrual_below_one; lia.
Qed.

(** With no time elapsed, [n] calls take [n] tokens. *)
Lemma allows_same_instant (n : nat) C j rate t0 :
  0 <= j -> j + Z.of_nat n <= Int64.MaxInt64 ->
  allows (replicate n t0) (mkTokenBucket C (j + Z.of_nat n) rate t0)
  = (replicate n true, mkTokenBucket C j rate t0).
Proof.
  revert j. induction n as [| n IH]; intros j Hj Hmax.
  - cbn. now rewrite Z.add_0_r.
  - cbn [replicate allows].
    rewrite Allow_same_instant
      by (try reflexivity; unfold Int64.in_range, Int64.MinInt64, Int64.MaxInt64 in *; simpl; lia).
    cbn [tokens].
    destruct (Z.ltb_spec 0 (j + Z.of_nat (S n))); [| lia].
    unfold set_tokens. cbn [capacity tokens refillRate lastRefill].
    replace (j + Z.of_nat (S n) - 1) with (j + Z.of_nat n) by lia.
    rewrite IH by lia. reflexivity.
Qed.

(** An empty bucket denies, and stays as it is, as long as nothing
    accrues. *)
Lemma allows_empty nows tb :
  tokens tb = 0 ->
  Forall (fun now => tokensToAdd now tb <= 0) nows ->
  allows nows tb = (replicate (length nows) false, tb).
Proof.
  intros Ht H. induction H as [| now nows Hnow _ IH]; [reflexivity |].
  cbn [allows length replicate]. unfold Allow.
  rewrite (refill_no_accrual now tb Hnow), Ht. cbn. now rewrite IH.
Qed.

End SaturationFacts.

(** C5.  A bucket fresh from [NewTokenBucket] with capacity [C] admits
    [C] calls made with no time elapsed, which leaves it empty, and from
    then on denies every call made less than [1 / refillRate] seconds after
    its last refill (an elapsed time of [d] nanoseconds with
    [d * refillRate < 1e9]), the call after the [C]-th included, without
    changing. *)
Theorem bucket_saturation (C rate : Z) (t0 : time.Time) :
  0 <= C <= Int64.MaxInt64 -> 0 < rate ->
  let tb := ratelimit.NewTokenBucket t0 C rate in
  exists tb',
    props.allows (replicate (Z.to_nat C) t0) tb
      = (replicate (Z.to_nat C) true, tb') /\
    ratelimit.tokens tb' = 0 /\ ratelimit.lastRefill tb' = t0 /\
    forall nows : list time.Time,
      Forall (fun now => t0 <= now /\ (now - t0) * rate < 10 ^ 9) nows ->
      props.allows nows tb' = (replicate (length nows) false, tb').
Proof.
  intros HC Hrate tb.
  exists (ratelimit.mkTokenBucket C 0 rate t0).
  split; [| split; [reflexivity | split; [reflexivity |]]].
  - unfold tb, ratelimit.NewTokenBucket.
    pose proof (allows_same_instant (Z.to_nat C) C 0 rate t0
                  ltac:(lia) ltac:(lia)) as H.
    replace (0 + Z.of_nat (Z.to_nat C)) with C in H by lia. exact H.
  - intros nows Hnows. apply allows_empty; [reflexivity |].
    eapply Forall_impl; [exact Hnows |].
    intros now [Hn Hlt]. now apply tokensToAdd_before_first_token.
Qed.

Lemma bucket_saturation_witness :
  let tb := ratelimit.NewTokenBucket 0 3 2 in
  exists tb',
    props.allows [0; 0; 0] tb = ([true; true; true], tb') /\
    props.allows [0; 250000000; 499999999] tb' = ([false; false; false], tb').
Proof.
  intros tb.
  destruct (bucket_saturation 3 2 0) as (tb' & HA & _ & _ & HD).
  - vm_compute. intuition congruence.
  - lia.
  - exists tb'. split; [exact HA |].
    apply (HD [0; 250000000; 499999999]).
    repeat constructor; lia.
Defined.

(* ===================================================================== *)
(** * Properties: the registry of per-IP buckets *)
(* ===================================================================== *)

Section RegistryFacts.

Import ratelimit props.

Local Ltac range :=
  unfold Int64.in_range, Int64.MinInt64, Int64.MaxInt64 in *; simpl; lia.

(** [Allow] written over the components of its steps. *)
Lemma TwoTierAllow_unfold c ip trl :
  let r := Allow (atGlobal c) (globalBucket trl) in
  let gb := getOrCreateIPBucket (atCreate c) ip (set_global r.2 trl) in
  let a := Allow (atIP c) gb.1 in
  let trl2 := set_ipBuckets (<[ip := a.2]> (ipBuckets gb.2)) gb.2 in
  TwoTierAllow c ip trl =
    if negb r.1 then (false, set_global r.2 trl)
    else if negb a.1 then (false, returnGlobalToken trl2)
    else (true, trl2).
Proof.
  cbv zeta. unfold TwoTierAllow.
  destruct (Allow (atGlobal c) (globalBucket trl)) as [okG g]. cbn [fst snd].
  destruct (negb okG); [reflexivity |].
  destruct (getOrCreateIPBucket (atCreate c) ip (set_global g trl)) as [b trl1].
  cbn [fst snd].
  destruct (Allow (atIP c) b) as [okIP b']. cbn [fst snd].
  now destruct (negb okIP).
Qed.

Lemma refill_fields now tb :
  capacity (refill now tb) = capacity tb /\
  refillRate (refill now tb) = refillRate tb.
Proof. unfold refill. now destruct (0 <? tokensToAdd now tb). Qed.

Lemma Allow_fields now tb :
  capacity (Allow now tb).2 = capacity tb /\
  refillRate (Allow now tb).2 = refillRate tb.
Proof.
  unfold Allow. destruct (refill_fields now tb) as [Hc Hr].
  now destruct (0 <? tokens (refill now tb)).
Qed.

Lemma returnGlobalToken_registry trl :
  ipBuckets (returnGlobalToken trl) = ipBuckets trl /\
  perIPCapacity (returnGlobalToken trl) = perIPCapacity trl /\
  perIPRate (returnGlobalToken trl) = perIPRate trl /\
  capacity (globalBucket (returnGlobalToken trl)) = capacity (globalBucket trl) /\
  refillRate (globalBucket (returnGlobalToken trl))
    = refillRate (globalBucket trl).
Proof.
  unfold returnGlobalToken.
  now destruct (tokens (globalBucket trl) <? capacity (globalBucket trl)).
Qed.

Lemma getOrCreateIPBucket_registry now ip trl :
  let gb := getOrCreateIPBucket now ip trl in
  ipBuckets gb.2 !! ip = Some gb.1 /\
  (forall ip', ip' <> ip -> ipBuckets gb.2 !! ip' = ipBuckets trl !! ip') /\
  perIPCapacity gb.2 = perIPCapacity trl /\ perIPRate gb.2 = perIPRate trl /\
  globalBucket gb.2 = globalBucket trl /\
  gb.1 = match ipBuckets trl !! ip with
         | Some b => b
         | None => NewTokenBucket now (perIPCapacity trl) (perIPRate trl)
         end.
Proof.
  cbv zeta. unfold getOrCreateIPBucket.
  destruct (ipBuckets trl !! ip) as [b |] eqn:Hb; cbn [fst snd].
  - repeat split; auto.
  - cbn [set_ipBuckets ipBuckets perIPCapacity perIPRate globalBucket].
    rewrite lookup_insert_eq. repeat split; auto.
    intros ip' Hne. now rewrite lookup_insert_ne.
Qed.

(** The registry after a request: the entry of the client is the bucket
    its [Allow] left (unless the global bucket denied), every other entry
    is as before. *)
Lemma TwoTierAllow_registry c ip trl :
  let r := TwoTierAllow c ip trl in
  (forall ip', ip' <> ip -> ipBuckets r.2 !! ip' = ipBuckets trl !! ip') /\
  perIPCapacity r.2 = perIPCapacity trl /\ perIPRate r.2 = perIPRate trl /\
  capacity (globalBucket r.2) = capacity (globalBucket trl) /\
  refillRate (globalBucket r.2) = refillRate (globalBucket trl) /\
  ipBuckets r.2 !! ip =
    if (Allow (atGlobal c) (globalBucket trl)).1
    then Some (Allow (atIP c)
                 match ipBuckets trl !! ip with
                 | Some b => b
                 | None => NewTokenBucket (atCreate c) (perIPCapacity trl)
                             (perIPRate trl)
                 end).2
    else ipBuckets trl !! ip.
Proof.
  cbv zeta. rewrite TwoTierAllow_unfold. cbv zeta.
  destruct (Allow_fields (atGlobal c) (globalBucket trl)) as [HcG HrG].
  destruct (Allow (atGlobal c) (globalBucket trl)) as [okG g]. cbn [fst snd] in *.
  destruct okG; cbn [negb fst snd].
  2:{ repeat split; auto. }
  destruct (getOrCreateIPBucket_registry (atCreate c) ip (set_global g trl))
    as (Hip & Hother & HP & Hpr & HG & Hb).
  cbv zeta in *.
  destruct (getOrCreateIPBucket (atCreate c) ip (set_global g trl)) as [b trl1].
  cbn [fst snd] in *. cbn [set_global ipBuckets perIPCapacity perIPRate globalBucket] in *.
  set (trl2 := set_ipBuckets (<[ip := (Allow (atIP c) b).2]> (ipBuckets trl1)) trl1).
  assert (H2 :
    (forall ip', ip' <> ip -> ipBuckets trl2 !! ip' = ipBuckets trl !! ip') /\
    perIPCapacity trl2 = perIPCapacity trl /\ perIPRate trl2 = perIPRate trl /\
    capacity (globalBucket trl2) = capacity (globalBucket trl) /\
    refillRate (globalBucket trl2) = refillRate (globalBucket trl) /\
    ipBuckets trl2 !! ip = Some (Allow (atIP c) b).2).
  { unfold trl2. cbn [set_ipBuckets ipBuckets perIPCapacity perIPRate globalBucket].
    rewrite lookup_insert_eq, HG. repeat split; auto.
    intros ip' Hne. rewrite lookup_insert_ne by congruence. now apply Hother. }
  rewrite <- Hb.
  destruct (returnGlobalToken_registry trl2) as (R1 & R2 & R3 & R4 & R5).
  destruct H2 as (A1 & A2 & A3 & A4 & A5 & A6).
  destruct (Allow (atIP c) b).1; cbn [negb fst snd].
  - repeat split; auto.
  - rewrite R1, R2, R3, R4, R5. repeat split; auto.
Qed.

(** The global bucket after a request. *)
Lemma TwoTierAllow_globalBucket c ip trl :
  int64_bucket (globalBucket trl) ->
  tokens (globalBucket trl) <= capacity (globalBucket trl) ->
  let r := TwoTierAllow c ip trl in
  let g := refill (atGlobal c) (globalBucket trl) in
  globalBucket r.2 = set_tokens (tokens g - (if r.1 then 1 else 0)) g.
Proof.
  intros Hint Hle. cbv zeta. rewrite TwoTierAllow_unfold. cbv zeta.
  destruct (Allow_after_refill (atGlobal c) (globalBucket trl) Hint) as [Hyes Hno].
  cbv zeta in Hyes, Hno.
  destruct (refill_le_capacity (atGlobal c) (globalBucket trl) Hle) as [Hrle Hrc].
  pose proof (refill_tokens_in_range (atGlobal c) (globalBucket trl) Hint) as Hrr.
  pose proof (refill_int64 (atGlobal c) (globalBucket trl)) as Hri.
  set (g := refill (atGlobal c) (globalBucket trl)) in *.
  assert (Heta : forall n, n = tokens g -> set_tokens n g = g).
  { intros n ->. now destruct g. }
  destruct (Z.lt_ge_cases 0 (tokens g)) as [Hpos | Hnpos].
  - rewrite (Hyes Hpos). cbn [fst snd negb].
    destruct (getOrCreateIPBucket_registry (atCreate c) ip
                (set_global (set_tokens (tokens g - 1) g) trl))
      as (_ & _ & _ & _ & HG & _).
    cbv zeta in HG.
    destruct (getOrCreateIPBucket (atCreate c) ip
                (set_global (set_tokens (tokens g - 1) g) trl)) as [b trl1].
    cbn [fst snd] in *. cbn [set_global globalBucket] in HG.
    destruct (Allow (atIP c) b).1; cbn [negb fst snd].
    + cbn [set_ipBuckets globalBucket]. now rewrite HG.
    + rewrite returnGlobalToken_after_admit;
        cbn [set_ipBuckets globalBucket set_global]; rewrite HG;
        cbn [set_tokens capacity tokens]; try range; try lia.
      * unfold set_tokens. cbn. f_equal. lia.
      * destruct Hint as (Hc & _). rewrite <- Hrc in Hc. exact Hc.
  - rewrite (Hno ltac:(lia)). cbn [fst snd negb set_global globalBucket].
    symmetry. apply Heta. lia.
Qed.

End RegistryFacts.
Section SweepFacts.

Import ratelimit props.

Variable cutoff : time.Time.

Local Abbreviation visit :=
  (fun (m : gmap string TokenBucket) (kv : string * TokenBucket) =>
     if time.Before (lastRefill kv.2) cutoff then delete kv.1 m else m).

Lemma visit_absent l (m : gmap string TokenBucket) k :
  m !! k = None -> foldl visit m l !! k = None.
Proof.
  revert m. induction l as [| [k1 b1] l IH]; intros m Hm; [exact Hm |].
  cbn [foldl]. apply IH. cbn [fst snd].
  destruct (time.Before (lastRefill b1) cutoff); [| exact Hm].
  destruct (decide (k1 = k)) as [-> | Hne].
  - apply lookup_delete_eq.
  - now rewrite lookup_delete_ne.
Qed.

Lemma visit_stale l (m : gmap string TokenBucket) k b :
  (k, b) ∈ l -> time.Before (lastRefill b) cutoff = true ->
  foldl visit m l !! k = None.
Proof.
  revert m. induction l as [| [k1 b1] l IH]; intros m Hin Hst.
  - now apply elem_of_nil in Hin.
  - cbn [foldl]. apply elem_of_cons in Hin as [Heq | Hin].
    + injection Heq as <- <-. apply visit_absent. cbn [fst snd].
      rewrite Hst. apply lookup_delete_eq.
    + now apply IH.
Qed.

Lemma visit_fresh l (m : gmap string TokenBucket) k :
  (forall b, (k, b) ∈ l -> time.Before (lastRefill b) cutoff = false) ->
  foldl visit m l !! k = m !! k.
Proof.
  revert m. induction l as [| [k1 b1] l IH]; intros m Hall; [reflexivity |].
  cbn [foldl]. rewrite IH.
  - cbn [fst snd].
    destruct (time.Before (lastRefill b1) cutoff) eqn:Hb; [| reflexivity].
    destruct (decide (k1 = k)) as [-> | Hne].
    + rewrite (Hall b1) in Hb by apply list_elem_of_here. discriminate.
    + now rewrite lookup_delete_ne.
  - intros b Hin. apply Hall. now apply list_elem_of_further.
Qed.

End SweepFacts.

Section CleanupFacts.

Import ratelimit props.

Lemma cleanupIPBuckets_lookup now trl ip :
  ipBuckets (cleanupIPBuckets now trl) !! ip =
    match ipBuckets trl !! ip with
    | Some b =>
        if time.Before (lastRefill b) (time.Add now (-30 * time.Minute))
        then None else Some b
    | None => None
    end.
Proof.
  unfold cleanupIPBuckets. cbn [set_ipBuckets ipBuckets].
  destruct (ipBuckets trl !! ip) as [b |] eqn:Hb.
  - destruct (time.Before (lastRefill b) _) eqn:Hst.
    + apply (visit_stale _ _ _ ip b); [| exact Hst].
      now apply elem_of_map_to_list.
    + rewrite visit_fresh; [exact Hb |].
      intros b' Hin. apply elem_of_map_to_list in Hin.
      rewrite Hb in Hin. now injection Hin as <-.
  - now apply visit_absent.
Qed.

Lemma cleanupIPBuckets_fields now trl :
  globalBucket (cleanupIPBuckets now trl) = globalBucket trl /\
  perIPCapacity (cleanupIPBuckets now trl) = perIPCapacity trl /\
  perIPRate (cleanupIPBuckets now trl) = perIPRate trl.
Proof. now unfold cleanupIPBuckets. Qed.

Lemma cutoff_in_range now :
  Int64.in_range (now - 30 * time.Minute) ->
  time.Add now (-30 * time.Minute) = now - 30 * time.Minute.
Proof.
  intros H. unfold time.Add, Int64.add.
  replace (now + -30 * time.Minute) with (now - 30 * time.Minute) by lia.
  now apply wrap_in_range.
Qed.

End CleanupFacts.

(** X1.  A request of one client never touches what the limiter holds for
    another: the bucket of every other client is what it was (and is still
    absent when it was absent), no entry of the registry is removed, and the
    capacities and rates the limiter was built with stay as they are. *)
Theorem request_leaves_other_clients
    (c : ratelimit.Clock) (ip ip' : string) (trl : ratelimit.TwoTierRateLimiter) :
  ip' <> ip ->
  let trl' := (ratelimit.TwoTierAllow c ip trl).2 in
  ratelimit.ipBuckets trl' !! ip' = ratelimit.ipBuckets trl !! ip' /\
  (forall k, is_Some (ratelimit.ipBuckets trl !! k) ->
             is_Some (ratelimit.ipBuckets trl' !! k)) /\
  ratelimit.perIPCapacity trl' = ratelimit.perIPCapacity trl /\
  ratelimit.perIPRate trl' = ratelimit.perIPRate trl /\
  ratelimit.capacity (ratelimit.globalBucket trl')
    = ratelimit.capacity (ratelimit.globalBucket trl) /\
  ratelimit.refillRate (ratelimit.globalBucket trl')
    = ratelimit.refillRate (ratelimit.globalBucket trl).
Proof.
  intros Hne trl'.
  destruct (TwoTierAllow_registry c ip trl) as (Hother & HP & Hpr & HC & HR & Hip).
  fold trl' in Hother, HP, Hpr, HC, HR, Hip.
  repeat split; auto.
  intros k Hk. destruct (decide (k = ip)) as [-> | Hk'].
  - rewrite Hip. destruct (ratelimit.Allow _ _).1; [eauto | exact Hk].
  - now rewrite Hother.
Qed.

Lemma request_leaves_other_clients_witness :
  let trl := ratelimit.NewTwoTierRateLimiter 0 10 10 2 2 in
  let trl1 := (ratelimit.TwoTierAllow (ratelimit.instant 0) "10.0.0.1" trl).2 in
  let trl2 := (ratelimit.TwoTierAllow (ratelimit.instant 5) "10.0.0.2" trl1).2 in
  ratelimit.ipBuckets trl2 !! "10.0.0.1"
    = Some (ratelimit.mkTokenBucket 2 1 2 0).
Proof.
  intros trl trl1 trl2.
  destruct (request_leaves_other_clients (ratelimit.instant 5)
              "10.0.0.2" "10.0.0.1" trl1) as (H & _).
  - discriminate.
  - fold trl2 in H. rewrite H. vm_compute. reflexivity.
Defined.

(** X2.  What a request costs the global bucket: after the refill of the
    call, exactly one token when the request is admitted and nothing when it
    is denied, by either tier. *)
Theorem request_takes_global_token_iff_admitted
    (c : ratelimit.Clock) (ip : string) (trl : ratelimit.TwoTierRateLimiter) :
  props.int64_bucket (ratelimit.globalBucket trl) ->
  ratelimit.tokens (ratelimit.globalBucket trl)
    <= ratelimit.capacity (ratelimit.globalBucket trl) ->
  let r := ratelimit.TwoTierAllow c ip trl in
  let g := ratelimit.refill (ratelimit.atGlobal c) (ratelimit.globalBucket trl) in
  ratelimit.globalBucket r.2
    = ratelimit.set_tokens (ratelimit.tokens g - (if r.1 then 1 else 0)) g /\
  (r.1 = true -> 0 < ratelimit.tokens g).
Proof.
  intros Hint Hle r g. split; [now apply TwoTierAllow_globalBucket |].
  subst r. rewrite TwoTierAllow_unfold. cbv zeta.
  destruct (Allow_after_refill (ratelimit.atGlobal c) (ratelimit.globalBucket trl) Hint)
    as [_ Hno].
  cbv zeta in Hno. fold g in Hno.
  destruct (Z.lt_ge_cases 0 (ratelimit.tokens g)) as [Hpos | Hnpos]; [auto |].
  rewrite (Hno ltac:(lia)). cbn. discriminate.
Qed.

Lemma request_takes_global_token_iff_admitted_witness :
  let trl := ratelimit.NewTwoTierRateLimiter 0 10 10 1 1 in
  let c := ratelimit.instant 0 in
  let r1 := ratelimit.TwoTierAllow c "10.0.0.1" trl in
  let r2 := ratelimit.TwoTierAllow c "10.0.0.1" r1.2 in
  (r1.1 = true /\ ratelimit.tokens (ratelimit.globalBucket r1.2) = 9) /\
  (r2.1 = false /\ ratelimit.tokens (ratelimit.globalBucket r2.2) = 9).
Proof.
  intros trl c r1 r2. split.
  - destruct (request_takes_global_token_iff_admitted c "10.0.0.1" trl) as [H _].
    + vm_compute. intuition congruence.
    + vm_compute. congruence.
    + fold r1 in H. rewrite H. vm_compute. split; reflexivity.
  - destruct (request_takes_global_token_iff_admitted c "10.0.0.1" r1.2) as [H _].
    + vm_compute. intuition congruence.
    + vm_compute. congruence.
    + fold r2 in H. rewrite H. vm_compute. split; reflexivity.
Defined.
Section LimiterRuns.

Import ratelimit props.

Local Ltac range :=
  unfold Int64.in_range, Int64.MinInt64, Int64.MaxInt64 in *; simpl; lia.

(** The bucket [Allow] asks for the client. *)
Local Abbreviation bucketOf c ip trl :=
  (match ipBuckets trl !! ip with
   | Some b => b
   | None => NewTokenBucket (atCreate c) (perIPCapacity trl) (perIPRate trl)
   end).

(** A request is admitted when both buckets admit it. *)
Lemma TwoTierAllow_answer c ip trl :
  (TwoTierAllow c ip trl).1 =
    (Allow (atGlobal c) (globalBucket trl)).1
    && (Allow (atIP c) (bucketOf c ip trl)).1.
Proof.
  rewrite TwoTierAllow_unfold. cbv zeta.
  destruct (Allow (atGlobal c) (globalBucket trl)) as [okG g]. cbn [fst snd].
  destruct okG; cbn [negb andb]; [| reflexivity].
  destruct (getOrCreateIPBucket_registry (atCreate c) ip (set_global g trl))
    as (_ & _ & _ & _ & _ & Hb).
  cbv zeta in Hb. cbn [set_global ipBuckets perIPCapacity perIPRate] in Hb.
  rewrite Hb. now destruct (Allow (atIP c) _).1.
Qed.

Lemma NewTokenBucket_int64 now C r :
  Int64.in_range now -> Int64.in_range C -> Int64.in_range r ->
  int64_bucket (NewTokenBucket now C r).
Proof. intros; unfold int64_bucket; cbn; auto. Qed.

Lemma TwoTierAllow_inv G P c ip trl :
  int64_clock c -> limiter_inv G P trl ->
  limiter_inv G P (TwoTierAllow c ip trl).2.
Proof.
  intros (HcG & HcC & HcI) (Hg & HGc & HGt & HPr & HP & Hprr & Hm).
  destruct (TwoTierAllow_registry c ip trl)
    as (Hother & HP' & Hpr' & HC' & HR' & Hip).
  cbv zeta in *.
  assert (HGle : tokens (globalBucket trl) <= capacity (globalBucket trl)) by lia.
  pose proof (TwoTierAllow_globalBucket c ip trl Hg HGle) as HG'.
  cbv zeta in HG'.
  pose proof (refill_int64 (atGlobal c) (globalBucket trl) Hg HcG) as Hri.
  destruct (refill_le_capacity (atGlobal c) (globalBucket trl) HGle) as [Hrle Hrc].
  destruct (Allow_after_refill (atGlobal c) (globalBucket trl) Hg) as [_ Hno].
  cbv zeta in Hno.
  set (g := refill (atGlobal c) (globalBucket trl)) in *.
  assert (Hpos : (TwoTierAllow c ip trl).1 = true -> 0 < tokens g).
  { rewrite TwoTierAllow_answer. intros Hok.
    destruct (Z.lt_ge_cases 0 (tokens g)) as [Hlt | Hge]; [exact Hlt |].
    rewrite (Hno ltac:(lia)) in Hok. discriminate. }
  unfold limiter_inv. rewrite HG', HP', Hpr'.
  split; [| split; [| split; [| split; [| split; [| split]]]]]; try assumption.
  - destruct Hri as (R1 & R2 & R3 & R4).
    unfold int64_bucket. cbn [set_tokens capacity tokens refillRate lastRefill].
    split; [exact R1 | split; [| split; [exact R3 | exact R4]]].
    destruct (TwoTierAllow c ip trl).1; [specialize (Hpos eq_refl) |]; range.
  - cbn [set_tokens capacity]. lia.
  - cbn [set_tokens tokens]. destruct (TwoTierAllow c ip trl).1; lia.
  - intros k b Hk. destruct (decide (k = ip)) as [-> | Hne].
    2:{ rewrite Hother in Hk by assumption. exact (Hm k b Hk). }
    rewrite Hip in Hk.
    destruct (Allow (atGlobal c) (globalBucket trl)).1; [| exact (Hm ip b Hk)].
    injection Hk as <-.
    assert (Hb0 : int64_bucket (bucketOf c ip trl) /\
                  capacity (bucketOf c ip trl) = P /\
                  tokens (bucketOf c ip trl) <= P).
    { destruct (ipBuckets trl !! ip) as [b0 |] eqn:Hb0.
      - exact (Hm ip b0 Hb0).
      - split; [now apply NewTokenBucket_int64 |]. cbn. lia. }
    destruct Hb0 as (I1 & I2 & I3).
    destruct (Allow_fields (atIP c) (bucketOf c ip trl)) as [Hcap _].
    split; [now apply Allow_int64 |]. split; [congruence |].
    pose proof (Allow_le_capacity (atIP c) (bucketOf c ip trl) I1 ltac:(lia)) as Hle.
    cbn [snd] in *. lia.
Qed.

Lemma cleanupIPBuckets_inv G P now trl :
  limiter_inv G P trl -> limiter_inv G P (cleanupIPBuckets now trl).
Proof.
  intros (Hg & HGc & HGt & HPr & HP & Hprr & Hm).
  destruct (cleanupIPBuckets_fields now trl) as (EG & EP & Epr).
  unfold limiter_inv. rewrite EG, EP, Epr.
  split; [| split; [| split; [| split; [| split; [| split]]]]]; try assumption.
  intros k b Hk. rewrite cleanupIPBuckets_lookup in Hk.
  destruct (ipBuckets trl !! k) as [b0 |] eqn:Hb0; [| discriminate].
  destruct (time.Before _ _); [discriminate |]. injection Hk as <-.
  exact (Hm k b0 Hb0).
Qed.

Lemma NewTwoTierRateLimiter_inv t G gr P pr :
  Int64.in_range t -> Int64.in_range G -> Int64.in_range gr ->
  Int64.in_range P -> Int64.in_range pr ->
  limiter_inv G P (NewTwoTierRateLimiter t G gr P pr).
Proof.
  intros Ht HG Hgr HP Hpr. unfold limiter_inv.
  cbn [NewTwoTierRateLimiter globalBucket ipBuckets perIPCapacity perIPRate].
  split; [now apply NewTokenBucket_int64 |].
  split; [reflexivity |]. split; [cbn; lia |].
  split; [exact HP |]. split; [reflexivity |]. split; [exact Hpr |].
  apply map_Forall_empty.
Qed.

Lemma step_inv G P evs trl :
  Forall int64_event evs -> limiter_inv G P trl ->
  limiter_inv G P (foldl step trl evs).
Proof.
  intros Hev. revert trl.
  induction Hev as [| ev evs Hc _ IH]; intros trl Hinv; [exact Hinv |].
  cbn [foldl]. apply IH. destruct ev as [c ip | now]; cbn [step].
  - now apply TwoTierAllow_inv.
  - now apply cleanupIPBuckets_inv.
Qed.

(** ** Requests made at one instant *)

Lemma admitted_cons req ok reqs oks :
  admitted (req :: reqs) (ok :: oks)
  = ((if ok then 1 else 0) + admitted reqs oks)%nat.
Proof.
  unfold admitted. cbn [zip zip_with]. rewrite filter_cons.
  destruct (decide ((req, ok).2 = true)) as [H | H]; cbn [snd] in H.
  - subst ok. reflexivity.
  - destruct ok; [congruence | reflexivity].
Qed.

Lemma admittedOf_cons ip c ip0 ok reqs oks :
  admittedOf ip ((c, ip0) :: reqs) (ok :: oks)
  = ((if decide (ip0 = ip) then if ok then 1 else 0 else 0)
     + admittedOf ip reqs oks)%nat.
Proof.
  unfold admittedOf. cbn [zip zip_with]. rewrite filter_cons.
  destruct (decide (((c, ip0), ok).1.2 = ip /\ ((c, ip0), ok).2 = true))
    as [[H1 H2] | H]; cbn [fst snd] in *.
  - subst. now rewrite decide_True.
  - destruct (decide (ip0 = ip)) as [-> | Hne]; [| reflexivity].
    destruct ok; [tauto | reflexivity].
Qed.

Lemma serve_cons c ip reqs trl :
  serve ((c, ip) :: reqs) trl =
    ((TwoTierAllow c ip trl).1 :: (serve reqs (TwoTierAllow c ip trl).2).1,
     (serve reqs (TwoTierAllow c ip trl).2).2).
Proof.
  cbn [serve]. destruct (TwoTierAllow c ip trl) as [ok trl1]. cbn [fst snd].
  now destruct (serve reqs trl1).
Qed.

Section Instant.

Variables (G gr P pr : Z) (t : time.Time).
Hypothesis HG : 0 <= G <= Int64.MaxInt64.
Hypothesis HP : 0 <= P <= Int64.MaxInt64.
Hypothesis Hgr : Int64.in_range gr.
Hypothesis Ht : Int64.in_range t.

Local Abbreviation in_burst := (props.in_burst G gr P pr t).

Lemma in_burst_available g trl ip :
  in_burst g trl -> 0 <= available ip trl <= P.
Proof.
  intros (_ & _ & HcP & _ & Hm). unfold available.
  destruct (ipBuckets trl !! ip) as [b |] eqn:Hb; [| lia].
  now destruct (Hm ip b Hb).
Qed.

Lemma in_burst_step g trl ip :
  in_burst g trl ->
  let r := TwoTierAllow (instant t) ip trl in
  let n := if r.1 then 1 else 0 in
  r.1 = (0 <? g) && (0 <? available ip trl) /\
  in_burst (g - n) r.2 /\
  available ip r.2 = available ip trl - n /\
  forall ip', ip' <> ip -> available ip' r.2 = available ip' trl.
Proof.
  intros Hb. pose proof (in_burst_available g trl ip Hb) as Hav.
  destruct Hb as (Hglob & Hg & HcP & Hpr & Hm). cbv zeta.
  destruct (TwoTierAllow_registry (instant t) ip trl)
    as (Hother & HP' & Hpr' & _ & _ & Hip).
  cbv zeta in *. cbn [instant atGlobal atCreate atIP] in *.
  assert (Hint : int64_bucket (globalBucket trl)).
  { rewrite Hglob. repeat split; cbn; try apply Hgr; try apply Ht; range. }
  assert (Hle : tokens (globalBucket trl) <= capacity (globalBucket trl)).
  { rewrite Hglob. cbn. lia. }
  pose proof (TwoTierAllow_globalBucket (instant t) ip trl Hint Hle) as HG'.
  cbv zeta in HG'. cbn [instant atGlobal] in HG'.
  assert (Hrefill : refill t (globalBucket trl) = globalBucket trl).
  { apply refill_no_accrual, tokensToAdd_same_instant. now rewrite Hglob. }
  rewrite Hrefill, Hglob in HG'. cbn [set_tokens capacity tokens refillRate lastRefill] in HG'.
  assert (HokG : (Allow t (globalBucket trl)).1 = (0 <? g)).
  { rewrite Hglob, Allow_same_instant by (reflexivity || (cbn; range)).
    cbn [tokens]. now destruct (0 <? g). }
  set (b0 := match ipBuckets trl !! ip with
             | Some b => b
             | None => NewTokenBucket t (perIPCapacity trl) (perIPRate trl)
             end) in *.
  assert (Hb0 : b0 = mkTokenBucket P (available ip trl) pr t).
  { unfold b0, available. destruct (ipBuckets trl !! ip) as [b |] eqn:Hb.
    - now destruct (Hm ip b Hb).
    - now rewrite HcP, Hpr. }
  assert (HA : Allow t b0 =
               if 0 <? available ip trl
               then (true, mkTokenBucket P (available ip trl - 1) pr t)
               else (false, b0)).
  { rewrite Hb0, Allow_same_instant by (reflexivity || (cbn; range)).
    cbn [tokens]. now destruct (0 <? available ip trl). }
  assert (Hans : (TwoTierAllow (instant t) ip trl).1
                 = (0 <? g) && (0 <? available ip trl)).
  { rewrite TwoTierAllow_answer. cbn [instant atGlobal atCreate atIP].
    fold b0. rewrite HokG, HA. now destruct (0 <? available ip trl). }
  rewrite HokG, HA in Hip.
  split; [exact Hans |].
  assert (Hav' : available ip (TwoTierAllow (instant t) ip trl).2
                 = available ip trl
                   - (if (TwoTierAllow (instant t) ip trl).1 then 1 else 0)).
  { unfold available at 1. rewrite Hip, Hans.
    destruct (Z.ltb_spec 0 g); cbn [andb].
    - destruct (Z.ltb_spec 0 (available ip trl)); cbn [fst snd tokens].
      + reflexivity.
      + rewrite Hb0. cbn. lia.
    - rewrite HP'. fold (available ip trl). lia. }
  split; [| split; [exact Hav' |]].
  - unfold in_burst. rewrite HG', HP', Hpr'.
    split; [reflexivity |]. split.
    { destruct (TwoTierAllow (instant t) ip trl).1 eqn:Hok; [| lia].
      symmetry in Hans. apply andb_true_iff in Hans as [Hans _].
      apply Z.ltb_lt in Hans. lia. }
    split; [assumption |]. split; [assumption |].
    intros k b Hk. destruct (decide (k = ip)) as [-> | Hne].
    2:{ rewrite Hother in Hk by assumption. exact (Hm k b Hk). }
    rewrite Hip in Hk.
    destruct (Z.ltb_spec 0 g); [| exact (Hm ip b Hk)].
    destruct (Z.ltb_spec 0 (available ip trl)); cbn [fst snd] in Hk;
      injection Hk as <-.
    + cbn. split; [reflexivity | lia].
    + rewrite Hb0. cbn. split; [reflexivity | lia].
  - intros ip' Hne. unfold available. now rewrite Hother, HP'.
Qed.

Lemma in_burst_serve ips g trl :
  in_burst g trl ->
  let reqs := (fun ip => (instant t, ip)) <$> ips in
  let res := serve reqs trl in
  length res.1 = length ips /\
  in_burst (g - Z.of_nat (admitted reqs res.1)) res.2 /\
  forall ip, available ip res.2
             = available ip trl - Z.of_nat (admittedOf ip reqs res.1).
Proof.
  revert g trl. induction ips as [| ip0 ips IH]; intros g trl Hb.
  - cbn. split; [reflexivity |]. split.
    + now replace (g - Z.of_nat 0) with g by lia.
    + intros ip. unfold admittedOf. cbn. lia.
  - cbv zeta. rewrite fmap_cons, serve_cons. cbn [fst snd].
    destruct (in_burst_step g trl ip0 Hb) as (Hans & Hb' & Hav & Hoth).
    cbv zeta in Hb', Hav.
    destruct (IH _ _ Hb') as (Hlen & Hb'' & Hav'').
    cbv zeta in Hlen, Hb'', Hav''.
    split; [cbn [length]; now rewrite Hlen |].
    rewrite admitted_cons. split.
    + replace (g - Z.of_nat _) with
        (g - (if (TwoTierAllow (instant t) ip0 trl).1 then 1 else 0)
           - Z.of_nat (admitted ((fun ip => (instant t, ip)) <$> ips)
                         (serve ((fun ip => (instant t, ip)) <$> ips)
                            (TwoTierAllow (instant t) ip0 trl).2).1));
        [exact Hb'' |].
      destruct (TwoTierAllow (instant t) ip0 trl).1; lia.
    + intros ip. rewrite admittedOf_cons, Hav''.
      destruct (decide (ip0 = ip)) as [-> | Hne].
      * rewrite Hav. destruct (TwoTierAllow (instant t) ip trl).1; lia.
      * rewrite Hoth by congruence. lia.
Qed.

End Instant.

(** ** A tier without capacity *)

Lemma Allow_no_capacity now tb :
  tokens tb <= capacity tb -> capacity tb <= 0 ->
  (Allow now tb).1 = false /\
  tokens (Allow now tb).2 <= capacity (Allow now tb).2 /\
  capacity (Allow now tb).2 <= 0.
Proof.
  intros Hle Hcap. destruct (refill_le_capacity now tb Hle) as [Hrle Hrc].
  unfold Allow. destruct (Z.ltb_spec 0 (tokens (refill now tb))); [lia |].
  cbn [fst snd]. repeat split; lia.
Qed.

Lemma TwoTierAllow_no_capacity c ip trl :
  no_capacity trl ->
  (TwoTierAllow c ip trl).1 = false /\ no_capacity (TwoTierAllow c ip trl).2.
Proof.
  intros Hno. split.
  - rewrite TwoTierAllow_answer. destruct Hno as [[Hle Hcap] | [HP Hm]].
    + destruct (Allow_no_capacity (atGlobal c) _ Hle Hcap) as (-> & _).
      reflexivity.
    + apply andb_false_iff. right.
      apply Allow_no_capacity.
      * destruct (ipBuckets trl !! ip) as [b |] eqn:Hb; [apply (Hm ip b Hb) |].
        cbn. lia.
      * destruct (ipBuckets trl !! ip) as [b |] eqn:Hb; [apply (Hm ip b Hb) |].
        exact HP.
  - destruct (TwoTierAllow_registry c ip trl)
      as (Hother & HP' & Hpr' & HC' & HR' & Hip).
    cbv zeta in *.
    destruct Hno as [[Hle Hcap] | [HP Hm]]; [left | right].
    + rewrite TwoTierAllow_unfold. cbv zeta.
      destruct (Allow_no_capacity (atGlobal c) _ Hle Hcap) as (-> & H1 & H2).
      cbn [negb snd set_global globalBucket]. split; assumption.
    + rewrite HP'. split; [exact HP |].
      intros k b Hk. destruct (decide (k = ip)) as [-> | Hne].
      2:{ rewrite Hother in Hk by assumption. exact (Hm k b Hk). }
      rewrite Hip in Hk.
      destruct (Allow (atGlobal c) (globalBucket trl)).1; [| exact (Hm ip b Hk)].
      injection Hk as <-.
      apply Allow_no_capacity.
      * destruct (ipBuckets trl !! ip) as [b |] eqn:Hb; [apply (Hm ip b Hb) |].
        cbn. lia.
      * destruct (ipBuckets trl !! ip) as [b |] eqn:Hb; [apply (Hm ip b Hb) |].
        exact HP.
Qed.

Lemma cleanupIPBuckets_no_capacity now trl :
  no_capacity trl -> no_capacity (cleanupIPBuckets now trl).
Proof.
  destruct (cleanupIPBuckets_fields now trl) as (HG & HP & _).
  intros [[Hle Hcap] | [HP' Hm]]; [left | right].
  - now rewrite HG.
  - rewrite HP. split; [exact HP' |].
    intros k b Hk. rewrite cleanupIPBuckets_lookup in Hk.
    destruct (ipBuckets trl !! k) as [b0 |] eqn:Hb0; [| discriminate].
    destruct (time.Before _ _); [discriminate |]. injection Hk as <-.
    exact (Hm k b0 Hb0).
Qed.

Lemma serve_no_capacity reqs trl :
  no_capacity trl -> (serve reqs trl).1 = replicate (length reqs) false.
Proof.
  revert trl. induction reqs as [| [c ip] reqs IH]; intros trl Hno; [reflexivity |].
  rewrite serve_cons. cbn [fst length replicate].
  destruct (TwoTierAllow_no_capacity c ip trl Hno) as [-> Hno'].
  now rewrite IH.
Qed.

End LimiterRuns.
Section RequestFacts.

Import ratelimit props.

(** The answer, the global bucket and the client's bucket after a
    request depend on the limiter only through its global bucket, the
    client's bucket and the per-IP parameters. *)
Lemma TwoTierAllow_globalBucket_form c ip trl :
  let r := Allow (atGlobal c) (globalBucket trl) in
  let a := Allow (atIP c)
             match ipBuckets trl !! ip with
             | Some b => b
             | None => NewTokenBucket (atCreate c) (perIPCapacity trl)
                         (perIPRate trl)
             end in
  globalBucket (TwoTierAllow c ip trl).2 =
    if r.1 && negb a.1
    then (if tokens r.2 <? capacity r.2
          then set_tokens (Int64.add (tokens r.2) 1) r.2 else r.2)
    else r.2.
Proof.
  cbv zeta. rewrite TwoTierAllow_unfold. cbv zeta.
  destruct (Allow (atGlobal c) (globalBucket trl)) as [okG g]. cbn [fst snd].
  destruct okG; cbn [negb andb]; [| reflexivity].
  destruct (getOrCreateIPBucket_registry (atCreate c) ip (set_global g trl))
    as (_ & _ & _ & _ & HG & Hb).
  cbv zeta in HG, Hb.
  cbn [set_global ipBuckets perIPCapacity perIPRate globalBucket] in HG, Hb.
  rewrite <- Hb.
  destruct (Allow (atIP c) _).1; cbn [negb fst snd].
  - cbn [set_ipBuckets globalBucket]. exact HG.
  - unfold returnGlobalToken. cbn [set_ipBuckets globalBucket]. rewrite HG.
    now destruct (tokens g <? capacity g).
Qed.

Lemma TwoTierAllow_ext c ip trl1 trl2 :
  globalBucket trl1 = globalBucket trl2 ->
  perIPCapacity trl1 = perIPCapacity trl2 ->
  perIPRate trl1 = perIPRate trl2 ->
  ipBuckets trl1 !! ip = ipBuckets trl2 !! ip ->
  (TwoTierAllow c ip trl1).1 = (TwoTierAllow c ip trl2).1 /\
  globalBucket (TwoTierAllow c ip trl1).2
    = globalBucket (TwoTierAllow c ip trl2).2 /\
  ipBuckets (TwoTierAllow c ip trl1).2 !! ip
    = ipBuckets (TwoTierAllow c ip trl2).2 !! ip.
Proof.
  intros HG HP Hpr Hip.
  destruct (TwoTierAllow_registry c ip trl1) as (_ & _ & _ & _ & _ & H1).
  destruct (TwoTierAllow_registry c ip trl2) as (_ & _ & _ & _ & _ & H2).
  cbv zeta in H1, H2.
  rewrite !TwoTierAllow_answer, (TwoTierAllow_globalBucket_form c ip trl1),
    (TwoTierAllow_globalBucket_form c ip trl2), H1, H2.
  cbv zeta. now rewrite HG, HP, Hpr, Hip.
Qed.

Lemma Before_cutoff now t :
  Int64.in_range (now - 30 * time.Minute) ->
  time.Before t (time.Add now (-30 * time.Minute)) = true
  <-> 30 * time.Minute < now - t.
Proof.
  intros H. rewrite cutoff_in_range by assumption.
  unfold time.Before. rewrite Z.ltb_lt. lia.
Qed.

End RequestFacts.

(** X3.  No bucket of the limiter ever holds more tokens than its
    capacity: after any sequence of requests (of any clients, at any clock
    readings) and cleanup sweeps, the global bucket has capacity [G] and at
    most [G] tokens, and every per-IP bucket in the registry has capacity
    [P] and at most [P] tokens.  (The lower bound [0 <= tokens] can fail:
    see C2.) *)
Theorem tokens_never_exceed_capacity
    (t : time.Time) (G gr P pr : Z) (evs : list props.event) :
  Int64.in_range t -> Int64.in_range G -> Int64.in_range gr ->
  Int64.in_range P -> Int64.in_range pr ->
  Forall props.int64_event evs ->
  let trl := foldl props.step (ratelimit.NewTwoTierRateLimiter t G gr P pr) evs in
  ratelimit.capacity (ratelimit.globalBucket trl) = G /\
  ratelimit.tokens (ratelimit.globalBucket trl) <= G /\
  forall ip b, ratelimit.ipBuckets trl !! ip = Some b ->
    ratelimit.capacity b = P /\ ratelimit.tokens b <= P.
Proof.
  intros Ht HG Hgr HP Hpr Hev trl.
  destruct (step_inv G P evs _ Hev
              (NewTwoTierRateLimiter_inv t G gr P pr Ht HG Hgr HP Hpr))
    as (_ & Hc & Hle & _ & _ & _ & Hm).
  fold trl in Hc, Hle, Hm.
  split; [exact Hc |]. split; [exact Hle |].
  intros ip b Hb. exact (proj2 (Hm ip b Hb)).
Qed.

Lemma tokens_never_exceed_capacity_witness :
  let evs := [props.Request (ratelimit.instant 0) "10.0.0.1";
              props.Request (ratelimit.instant 2500000000) "10.0.0.1";
              props.Cleanup 600000000000;
              props.Request (ratelimit.instant 7200000000000) "10.0.0.2"] in
  let trl := foldl props.step (ratelimit.NewTwoTierRateLimiter 0 10 10 3 3) evs in
  ratelimit.tokens (ratelimit.globalBucket trl) <= 10.
Proof.
  intros evs trl.
  assert (R : forall z, Int64.in_rangeb z = true -> Int64.in_range z)
    by (intros z; apply in_rangeb_spec).
  destruct (tokens_never_exceed_capacity 0 10 10 3 3 evs) as (_ & H & _).
  - now apply R.
  - now apply R.
  - now apply R.
  - now apply R.
  - now apply R.
  - repeat constructor; now apply R.
  - exact H.
Defined.

(** X4.  Requests of any clients served one after another (no call of
    [Allow] begins before the one before it has returned), all at the
    instant the limiter was built with global capacity [G] and per-IP
    capacity [P]: at most [G] of them are admitted in all and at most [P]
    for any one client, the global bucket is left with [G] minus the number
    admitted, and each client with [P] minus the number of its own admitted
    requests.  The next request, served after them, is admitted exactly
    when both counts allow it.  (Calls that overlap are not covered: a
    token taken from the global bucket and not yet returned can deny
    another client.) *)
Theorem burst_admits_within_both_limits
    (G gr P pr : Z) (t : time.Time) (ips : list string) :
  0 <= G <= Int64.MaxInt64 -> 0 <= P <= Int64.MaxInt64 ->
  Int64.in_range gr -> Int64.in_range t ->
  let reqs := (fun ip => (ratelimit.instant t, ip)) <$> ips in
  let res := props.serve reqs (ratelimit.NewTwoTierRateLimiter t G gr P pr) in
  length res.1 = length ips /\
  Z.of_nat (props.admitted reqs res.1) <= G /\
  ratelimit.tokens (ratelimit.globalBucket res.2)
    = G - Z.of_nat (props.admitted reqs res.1) /\
  (forall ip,
      Z.of_nat (props.admittedOf ip reqs res.1) <= P /\
      props.available ip res.2 = P - Z.of_nat (props.admittedOf ip reqs res.1)) /\
  (forall ip,
      (ratelimit.TwoTierAllow (ratelimit.instant t) ip res.2).1 = true <->
      Z.of_nat (props.admitted reqs res.1) < G /\
      Z.of_nat (props.admittedOf ip reqs res.1) < P).
Proof.
  intros HG HP Hgr Ht reqs res.
  assert (H0 : props.in_burst G gr P pr t G
                 (ratelimit.NewTwoTierRateLimiter t G gr P pr)).
  { unfold props.in_burst. cbn. repeat split; try lia.
    all: rewrite lookup_empty in H; discriminate. }
  destruct (in_burst_serve G gr P pr t HG HP Hgr Ht ips G _ H0)
    as (Hlen & Hb & Hav).
  cbv zeta in Hlen, Hb, Hav. fold reqs in Hlen, Hb, Hav. fold res in Hlen, Hb, Hav.
  assert (HavP : forall ip,
             props.available ip res.2
             = P - Z.of_nat (props.admittedOf ip reqs res.1)).
  { intros ip. rewrite Hav. unfold props.available. cbn.
    now rewrite lookup_empty. }
  pose proof Hb as (Hglob & Hg & _).
  split; [exact Hlen |]. split; [lia |]. split; [now rewrite Hglob |].
  split.
  - intros ip. split; [| apply HavP].
    pose proof (in_burst_available G gr P pr t HP _ _ ip Hb) as Hr.
    rewrite HavP in Hr. lia.
  - intros ip.
    destruct (in_burst_step G gr P pr t HG HP Hgr Ht _ _ ip Hb) as (-> & _).
    rewrite andb_true_iff, !Z.ltb_lt, HavP. lia.
Qed.

Lemma burst_admits_within_both_limits_witness :
  let ips := ["10.0.0.1"; "10.0.0.2"; "10.0.0.1"; "10.0.0.1"; "10.0.0.2";
              "10.0.0.3"] in
  let reqs := (fun ip => (ratelimit.instant 0, ip)) <$> ips in
  let res := props.serve reqs (ratelimit.NewTwoTierRateLimiter 0 4 4 2 2) in
  res.1 = [true; true; true; false; true; false] /\
  ratelimit.tokens (ratelimit.globalBucket res.2) = 0.
Proof.
  intros ips reqs res.
  assert (R : forall z, Int64.in_rangeb z = true -> Int64.in_range z)
    by (intros z; apply in_rangeb_spec).
  destruct (burst_admits_within_both_limits 4 4 2 2 0 ips)
    as (_ & _ & Htok & _).
  - unfold Int64.MaxInt64. lia.
  - unfold Int64.MaxInt64. lia.
  - now apply R.
  - now apply R.
  - fold reqs in Htok. fold res in Htok.
    split; [vm_compute; reflexivity |].
    rewrite Htok. vm_compute. reflexivity.
Defined.

(** X5.  A limiter built with a global capacity or a per-IP capacity
    that is zero or negative admits nothing, ever: after any requests and
    cleanup sweeps, at any clock readings, every request is denied. *)
Theorem limiter_without_capacity_denies_all
    (t : time.Time) (G gr P pr : Z) (evs : list props.event)
    (c : ratelimit.Clock) (ip : string) :
  G <= 0 \/ P <= 0 ->
  (ratelimit.TwoTierAllow c ip
     (foldl props.step (ratelimit.NewTwoTierRateLimiter t G gr P pr) evs)).1
  = false.
Proof.
  intros Hcap.
  assert (H0 : props.no_capacity (ratelimit.NewTwoTierRateLimiter t G gr P pr)).
  { destruct Hcap as [HG | HP]; [left | right]; cbn.
    - lia.
    - split; [exact HP | apply map_Forall_empty]. }
  assert (H : forall evs trl, props.no_capacity trl ->
                props.no_capacity (foldl props.step trl evs)).
  { clear. intros evs. induction evs as [| ev evs IH]; intros trl Hno; [exact Hno |].
    cbn [foldl]. apply IH. destruct ev as [c ip | now]; cbn [props.step].
    - now apply TwoTierAllow_no_capacity.
    - now apply cleanupIPBuckets_no_capacity. }
  now apply TwoTierAllow_no_capacity, H.
Qed.

Lemma limiter_without_capacity_denies_all_witness :
  (ratelimit.TwoTierAllow (ratelimit.instant 3600000000000) "10.0.0.1"
     (foldl props.step (ratelimit.NewTwoTierRateLimiter 0 100 100 0 0)
        [props.Request (ratelimit.instant 1000000000) "10.0.0.1";
         props.Cleanup 1800000000000])).1
  = false.
Proof.
  apply limiter_without_capacity_denies_all. right. lia.
Defined.

(** X6.  A tick of the cleanup ticker at the clock reading [now] removes
    from the registry exactly the buckets whose last refill is more than
    30 minutes old: every bucket that is left was there, unchanged, and was
    refilled within the last 30 minutes.  The global bucket and the
    per-IP parameters are not touched. *)
Theorem cleanup_removes_idle_buckets
    (now : time.Time) (trl : ratelimit.TwoTierRateLimiter) :
  Int64.in_range (now - 30 * time.Minute) ->
  let trl' := ratelimit.cleanupIPBuckets now trl in
  ratelimit.globalBucket trl' = ratelimit.globalBucket trl /\
  ratelimit.perIPCapacity trl' = ratelimit.perIPCapacity trl /\
  ratelimit.perIPRate trl' = ratelimit.perIPRate trl /\
  forall ip b,
    ratelimit.ipBuckets trl' !! ip = Some b <->
    ratelimit.ipBuckets trl !! ip = Some b /\
    now - ratelimit.lastRefill b <= 30 * time.Minute.
Proof.
  intros Hr trl'.
  destruct (cleanupIPBuckets_fields now trl) as (HG & HP & Hpr).
  repeat split; try assumption.
  - unfold trl' in H. rewrite cleanupIPBuckets_lookup in H.
    destruct (ratelimit.ipBuckets trl !! ip) as [b0 |]; [| discriminate].
    now destruct (time.Before _ _).
  - unfold trl' in H. rewrite cleanupIPBuckets_lookup in H.
    destruct (ratelimit.ipBuckets trl !! ip) as [b0 |]; [| discriminate].
    destruct (time.Before _ _) eqn:Hb; [discriminate |].
    injection H as <-.
    destruct (Z.le_gt_cases (now - ratelimit.lastRefill b0) (30 * time.Minute))
      as [Hle | Hgt]; [lia |].
    apply (Before_cutoff now _ Hr) in Hgt. congruence.
  - intros [Hb Hle]. unfold trl'. rewrite cleanupIPBuckets_lookup, Hb.
    destruct (time.Before _ _) eqn:HB; [| reflexivity].
    apply (Before_cutoff now _ Hr) in HB. lia.
Qed.

Lemma cleanup_removes_idle_buckets_witness :
  let trl0 := ratelimit.NewTwoTierRateLimiter 0 10 10 3 3 in
  let trl1 := (ratelimit.TwoTierAllow (ratelimit.instant 0) "10.0.0.1" trl0).2 in
  let trl2 :=
    (ratelimit.TwoTierAllow (ratelimit.instant 1200000000000) "10.0.0.2" trl1).2 in
  let trl' := ratelimit.cleanupIPBuckets 2400000000000 trl2 in
  ratelimit.ipBuckets trl' !! "10.0.0.1" = None /\
  ratelimit.ipBuckets trl' !! "10.0.0.2"
    = Some (ratelimit.mkTokenBucket 3 2 3 1200000000000).
Proof.
  intros trl0 trl1 trl2 trl'.
  destruct (cleanup_removes_idle_buckets 2400000000000 trl2)
    as (_ & _ & _ & H).
  - apply in_rangeb_spec. reflexivity.
  - fold trl' in H. split.
    + destruct (ratelimit.ipBuckets trl' !! "10.0.0.1") as [b |] eqn:Hb;
        [| reflexivity].
      apply H in Hb as [Hb Hle]. vm_compute in Hb. injection Hb as <-.
      vm_compute in Hle. now destruct Hle.
    + apply H. split; vm_compute; [reflexivity | discriminate].
Defined.

(** X7.  A cleanup sweep is invisible to a client whose bucket it keeps
    (or who has none): the client's next request gets the same answer and
    leaves the same global bucket and the same bucket of the client as
    without the sweep.  A client whose bucket the sweep removes is served
    as a client never seen before: from a new bucket with the full per-IP
    capacity. *)
Theorem cleanup_then_request
    (now : time.Time) (c : ratelimit.Clock) (ip : string)
    (trl : ratelimit.TwoTierRateLimiter) :
  Int64.in_range (now - 30 * time.Minute) ->
  let same r1 r2 :=
    r1.1 = r2.1 /\
    ratelimit.globalBucket r1.2 = ratelimit.globalBucket r2.2 /\
    ratelimit.ipBuckets r1.2 !! ip = ratelimit.ipBuckets r2.2 !! ip in
  let swept := ratelimit.TwoTierAllow c ip (ratelimit.cleanupIPBuckets now trl) in
  ((forall b, ratelimit.ipBuckets trl !! ip = Some b ->
              now - ratelimit.lastRefill b <= 30 * time.Minute) ->
   same swept (ratelimit.TwoTierAllow c ip trl)) /\
  (forall b, ratelimit.ipBuckets trl !! ip = Some b ->
             30 * time.Minute < now - ratelimit.lastRefill b ->
   same swept
     (ratelimit.TwoTierAllow c ip
        (ratelimit.set_ipBuckets (delete ip (ratelimit.ipBuckets trl)) trl))).
Proof.
  intros Hr same swept.
  destruct (cleanupIPBuckets_fields now trl) as (HG & HP & Hpr).
  split.
  - intros Hlive. apply TwoTierAllow_ext; try assumption.
    rewrite cleanupIPBuckets_lookup.
    destruct (ratelimit.ipBuckets trl !! ip) as [b |]; [| reflexivity].
    destruct (time.Before _ _) eqn:HB; [| reflexivity].
    apply (Before_cutoff now _ Hr) in HB. specialize (Hlive b eq_refl). lia.
  - intros b Hb Hidle. apply TwoTierAllow_ext; try assumption.
    rewrite cleanupIPBuckets_lookup, Hb.
    cbn [ratelimit.set_ipBuckets ratelimit.ipBuckets].
    rewrite lookup_delete_eq.
    apply (Before_cutoff now _ Hr) in Hidle. now rewrite Hidle.
Qed.

Lemma cleanup_then_request_witness :
  let trl0 := ratelimit.NewTwoTierRateLimiter 0 10 10 1 0 in
  let trl1 := (ratelimit.TwoTierAllow (ratelimit.instant 0) "10.0.0.1" trl0).2 in
  let later := ratelimit.instant 2400000000000 in
  (ratelimit.TwoTierAllow later "10.0.0.1" trl1).1 = false /\
  (ratelimit.TwoTierAllow later "10.0.0.1"
     (ratelimit.cleanupIPBuckets 2400000000000 trl1)).1 = true /\
  (ratelimit.TwoTierAllow later "10.0.0.2"
     (ratelimit.cleanupIPBuckets 2400000000000 trl1)).1
  = (ratelimit.TwoTierAllow later "10.0.0.2" trl1).1.
Proof.
  intros trl0 trl1 later.
  split; [vm_compute; reflexivity |]. split.
  - destruct (cleanup_then_request 2400000000000 later "10.0.0.1" trl1)
      as [_ H]; [apply in_rangeb_spec; reflexivity |].
    destruct (H (ratelimit.mkTokenBucket 1 0 0 0)) as (-> & _).
    + vm_compute. reflexivity.
    + vm_compute. reflexivity.
    + vm_compute. reflexivity.
  - destruct (cleanup_then_request 2400000000000 later "10.0.0.2" trl1)
      as [H _]; [apply in_rangeb_spec; reflexivity |].
    destruct H as (-> & _); [| reflexivity].
    intros b Hb. vm_compute in Hb. discriminate.
Defined.

(* ===================================================================== *)
(** * Properties: counting advertisers *)
(* ===================================================================== *)

Section CountFacts.

Import models domainAnalysis props.

(** One line of an ads.txt file as an advertiser with count 1. *)
Local Abbreviation one :=
  (fun e : AdsTxtEntry.t => AdvertiserInfo.mk (AdsTxtEntry.ExchangeDomain e) 1).

Lemma CountAdvertisers_addCount entries :
  parser.CountAdvertisers entries = foldl addCount ∅ (one <$> entries).
Proof. unfold parser.CountAdvertisers. now rewrite foldl_fmap. Qed.

Lemma countFor_one d entries :
  countFor d (one <$> entries) = Z.of_nat (occurrences d entries).
Proof.
  unfold countFor, occurrences.
  induction entries as [| e entries IH]; [reflexivity |].
  rewrite fmap_cons, !filter_cons. cbn [AdvertiserInfo.Domain].
  destruct (decide (AdsTxtEntry.ExchangeDomain e = d)) as [He | He].
  - rewrite fmap_cons, zsum_cons, IH. cbn [AdvertiserInfo.Count length]. lia.
  - exact IH.
Qed.

Lemma Exists_one d entries :
  Exists (fun a => AdvertiserInfo.Domain a = d) (one <$> entries)
  <-> occurrences d entries <> 0%nat.
Proof.
  unfold occurrences.
  induction entries as [| e entries IH].
  - cbn. split; [intros H; inversion H | congruence].
  - rewrite fmap_cons, Exists_cons, filter_cons, IH. cbn [AdvertiserInfo.Domain].
    destruct (decide (AdsTxtEntry.ExchangeDomain e = d)) as [He | He];
      cbn [length]; intuition congruence.
Qed.

Lemma occurrences_le d entries : (occurrences d entries <= length entries)%nat.
Proof. apply length_filter. Qed.

Lemma CountAdvertisers_lookup entries d :
  Z.of_nat (length entries) <= Int64.MaxInt64 ->
  parser.CountAdvertisers entries !! d =
    if decide (occurrences d entries = 0%nat) then None
    else Some (Z.of_nat (occurrences d entries)).
Proof.
  intros Hlen. rewrite CountAdvertisers_addCount, foldl_addCount_empty.
  pose proof (occurrences_le d entries) as Hle.
  destruct (decide (Exists _ _)) as [HE | HE]; rewrite Exists_one in HE.
  - rewrite decide_False by assumption. rewrite countFor_one.
    f_equal. apply wrap_in_range.
    unfold Int64.in_range, Int64.MinInt64, Int64.MaxInt64 in *. lia.
  - rewrite decide_True; [reflexivity |].
    destruct (decide (occurrences d entries = 0%nat)); tauto.
Qed.

Lemma insert_total (m : gmap string Z) k x :
  zsum (snd <$> map_to_list (<[k := x]> m))
  = zsum (snd <$> map_to_list m) - default 0 (m !! k) + x.
Proof.
  destruct (m !! k) as [old |] eqn:E; cbn [default].
  - rewrite <- insert_delete_eq.
    rewrite (zsum_Permutation _ _
               (fmap_Permutation snd _ _
                  (map_to_list_insert (delete k m) k x (lookup_delete_eq m k)))).
    rewrite <- (zsum_Permutation _ _
                  (fmap_Permutation snd _ _ (map_to_list_delete m k old E))).
    rewrite !fmap_cons, !zsum_cons. cbn [snd]. unfold id. lia.
  - rewrite (zsum_Permutation _ _
               (fmap_Permutation snd _ _ (map_to_list_insert m k x E))).
    rewrite fmap_cons, zsum_cons. cbn [snd]. lia.
Qed.

Lemma CountAdvertisers_total entries :
  Z.of_nat (length entries) <= Int64.MaxInt64 ->
  zsum (snd <$> map_to_list (parser.CountAdvertisers entries))
  = Z.of_nat (length entries).
Proof.
  induction entries as [| e entries IH] using rev_ind; intros Hlen.
  - reflexivity.
  - rewrite length_app in Hlen. cbn [length] in Hlen.
    unfold parser.CountAdvertisers. rewrite foldl_snoc.
    fold (parser.CountAdvertisers entries). cbv zeta.
    rewrite insert_total, IH by lia.
    rewrite CountAdvertisers_lookup by lia.
    pose proof (occurrences_le (AdsTxtEntry.ExchangeDomain e) entries) as Hle.
    rewrite length_app. cbn [length].
    destruct (decide _); cbn [default from_option]; unfold id, Int64.add;
      rewrite wrap_in_range
        by (unfold Int64.in_range, Int64.MinInt64, Int64.MaxInt64 in *; lia);
      lia.
Qed.

(** What [buildAnalysis] returns, over the map of counts. *)
Lemma buildAnalysis_spec d domain entries :
  let l := map_to_list (countAdvertisers d entries) in
  buildAnalysis d domain entries
  = DomainAnalysis.mk domain (Int64.wrap (zsum (snd <$> l)))
      (sortSlice (entry <$> l)) false (clock d).
Proof. cbv zeta. unfold buildAnalysis. now rewrite rangeCounts_spec. Qed.

Lemma zsum_entries (l : list (string * Z)) :
  zsum (AdvertiserInfo.Count <$> sortSlice (entry <$> l)) = zsum (snd <$> l).
Proof.
  rewrite (zsum_Permutation _ _
             (fmap_Permutation AdvertiserInfo.Count _ _
                (sortSlice_Permutation (entry <$> l)))).
  now rewrite <- list_fmap_compose.
Qed.

Lemma buildAnalysis_consistent d domain entries :
  consistent (buildAnalysis d domain entries).
Proof.
  rewrite buildAnalysis_spec. unfold consistent.
  cbn [DomainAnalysis.TotalAdvertisers DomainAnalysis.Advertisers].
  now rewrite zsum_entries.
Qed.

#[local] Existing Instance entry_inj.

Lemma entries_sorted (m : gmap string Z) :
  StronglySorted ordered (sortSlice (entry <$> map_to_list m)).
Proof.
  apply sorted_NoDup_ordered; [| apply sortSlice_sorted].
  rewrite sortSlice_Permutation.
  apply (NoDup_fmap_2 entry), NoDup_map_to_list.
Qed.

Lemma entries_elem (m : gmap string Z) x c :
  AdvertiserInfo.mk x c ∈ sortSlice (entry <$> map_to_list m)
  <-> m !! x = Some c.
Proof.
  rewrite sortSlice_Permutation, list_elem_of_fmap. split.
  - intros ([k v] & Heq & Hin). injection Heq as -> ->.
    now apply elem_of_map_to_list.
  - intros Hm. exists (x, c). split; [reflexivity |].
    now apply elem_of_map_to_list.
Qed.

Lemma AnalyzeDomain_consistent d dom a :
  (forall cached, cacheGet d dom = inl cached -> consistent cached) ->
  AnalyzeDomain d dom = inl a -> consistent a.
Proof.
  intros Hc. unfold AnalyzeDomain.
  destruct (cacheGet d dom) as [cached | e].
  - intros [= <-]. exact (Hc cached eq_refl).
  - destruct (fetch d dom) as [content | e']; [| discriminate].
    destruct (parse d content) as [entries | e'']; [| discriminate].
    intros [= <-]. apply buildAnalysis_consistent.
Qed.

Lemma worker_Success d dom :
  DomainResult.Success (worker d dom) = true
  <-> exists a, AnalyzeDomain d dom = inl a.
Proof.
  unfold worker. destruct (AnalyzeDomain d dom) as [a | e]; cbn.
  - split; eauto.
  - split; [discriminate | intros [a Ha]; discriminate].
Qed.

Lemma worker_consistent d dom :
  (forall cached, cacheGet d dom = inl cached -> consistent cached) ->
  DomainResult.Success (worker d dom) = true ->
  DomainResult.TotalAdvertisers (worker d dom)
  = Int64.wrap (zsum (AdvertiserInfo.Count
                        <$> DomainResult.Advertisers (worker d dom))).
Proof.
  intros Hc. pose proof (AnalyzeDomain_consistent d dom) as H.
  unfold worker. destruct (AnalyzeDomain d dom) as [a | e]; cbn.
  - intros _. exact (H a Hc eq_refl).
  - discriminate.
Qed.

(** The total of the listed counts is, modulo [2 ^ 64], the total of the
    totals of results that are each consistent. *)
Lemma listed_totals_wrap l :
  Forall (fun r => DomainResult.TotalAdvertisers r
                   = Int64.wrap (zsum (AdvertiserInfo.Count
                                         <$> DomainResult.Advertisers r)))
         (succeeded l) ->
  Int64.wrap (zsum (AdvertiserInfo.Count <$> listed l))
  = Int64.wrap (zsum (DomainResult.TotalAdvertisers <$> succeeded l)).
Proof.
  induction l as [| r l IH]; [reflexivity |].
  rewrite listed_cons, succeeded_cons.
  destruct (DomainResult.Success r); [| exact IH].
  intros H. apply Forall_cons in H as [Hr Hl].
  rewrite fmap_app, zsum_app, fmap_cons, zsum_cons, Hr.
  rewrite wrap_add_l, <- wrap_add_r, (IH Hl), wrap_add_r. reflexivity.
Qed.

Lemma listed_Permutation l1 l2 : l1 ≡ₚ l2 -> listed l1 ≡ₚ listed l2.
Proof.
  induction 1 as [| r l1 l2 _ IH | r1 r2 l | l1 l2 l3 _ IH1 _ IH2].
  - reflexivity.
  - rewrite !listed_cons. destruct (DomainResult.Success r); [| exact IH].
    now rewrite IH.
  - rewrite !listed_cons.
    destruct (DomainResult.Success r1), (DomainResult.Success r2);
      try reflexivity.
    rewrite !app_assoc. f_equiv. apply Permutation_app_comm.
  - now rewrite IH1.
Qed.

Lemma succeeded_Permutation l1 l2 : l1 ≡ₚ l2 -> succeeded l1 ≡ₚ succeeded l2.
Proof. intros H. unfold succeeded. now rewrite H. Qed.

Lemma countFor_Permutation d l1 l2 : l1 ≡ₚ l2 -> countFor d l1 = countFor d l2.
Proof.
  intros H. unfold countFor. apply zsum_Permutation.
  now rewrite H.
Qed.

Lemma foldl_addCount_Permutation l1 l2 :
  l1 ≡ₚ l2 -> foldl addCount ∅ l1 = foldl addCount ∅ l2.
Proof.
  intros H. apply map_eq. intros d. rewrite !foldl_addCount_empty.
  rewrite (countFor_Permutation d l1 l2 H).
  destruct (decide (Exists _ l1)) as [H1 | H1];
    destruct (decide (Exists _ l2)) as [H2 | H2]; try reflexivity; exfalso.
  - apply H2. now rewrite <- H.
  - apply H1. now rewrite H.
Qed.

(** The response of the aggregator depends on the order of arrival only
    in the order of its results. *)
Lemma aggregateResults_Permutation l1 l2 total now :
  l1 ≡ₚ l2 -> Z.of_nat (length l1) <= Int64.MaxInt64 ->
  let r1 := aggregateResults l1 total now in
  let r2 := aggregateResults l2 total now in
  BatchAnalysisResponse.Results r1 ≡ₚ BatchAnalysisResponse.Results r2 /\
  BatchAnalysisResponse.Summary r1 = BatchAnalysisResponse.Summary r2 /\
  BatchAnalysisResponse.Advertisers r1 = BatchAnalysisResponse.Advertisers r2 /\
  BatchAnalysisResponse.TotalAdvertisers r1
    = BatchAnalysisResponse.TotalAdvertisers r2 /\
  BatchAnalysisResponse.Timestamp r1 = BatchAnalysisResponse.Timestamp r2.
Proof.
  intros Hp Hlen. cbv zeta.
  destruct (aggregateResults_spec l1 total now) as (R1 & T1 & A1 & N1 & C1).
  destruct (aggregateResults_spec l2 total now) as (R2 & T2 & A2 & N2 & C2).
  cbv zeta in *.
  rewrite R1, R2, A1, A2, N1, N2, C1, C2.
  split; [exact Hp |].
  pose proof (listed_Permutation l1 l2 Hp) as HL.
  split; [| split; [| split; [| reflexivity]]].
  - assert (Hlen2 : Z.of_nat (length l2) <= Int64.MaxInt64) by now rewrite <- Hp.
    destruct (aggregate_counts l1 (mkAgg [] ∅ (BatchSummary.mk total 0 0)))
      as [HS1 HF1]; cbn; try lia.
    destruct (aggregate_counts l2 (mkAgg [] ∅ (BatchSummary.mk total 0 0)))
      as [HS2 HF2]; cbn; try lia.
    cbn in HS1, HF1, HS2, HF2.
    unfold aggregateResults in *.
    destruct (rangeCounts (map_to_list (advertiserCounts (foldl aggStep _ l1)))).
    destruct (rangeCounts (map_to_list (advertiserCounts (foldl aggStep _ l2)))).
    cbn [BatchAnalysisResponse.Summary] in *.
    destruct (summary (foldl aggStep _ l1)) as [t1 s1 f1].
    destruct (summary (foldl aggStep _ l2)) as [t2 s2 f2].
    cbn in *. subst.
    rewrite (Permutation_length (succeeded_Permutation l1 l2 Hp)).
    rewrite (Permutation_length Hp). reflexivity.
  - now rewrite (foldl_addCount_Permutation _ _ HL).
  - now rewrite (zsum_Permutation _ _
                   (fmap_Permutation AdvertiserInfo.Count _ _ HL)).
Qed.

End CountFacts.
(** X8.  [CountAdvertisers] maps every exchange domain that occurs in the
    entries to the number of entries that name it, and holds no other key;
    its counts add up to the number of entries. *)
Theorem CountAdvertisers_counts_entries (entries : list models.AdsTxtEntry.t) :
  Z.of_nat (length entries) <= Int64.MaxInt64 ->
  let counts := parser.CountAdvertisers entries in
  (forall d c,
      counts !! d = Some c <->
      (0 < props.occurrences d entries)%nat /\
      c = Z.of_nat (props.occurrences d entries)) /\
  props.zsum (snd <$> map_to_list counts) = Z.of_nat (length entries).
Proof.
  intros Hlen counts. split; [| now apply CountAdvertisers_total].
  intros d c. unfold counts. rewrite CountAdvertisers_lookup by assumption.
  destruct (decide (props.occurrences d entries = 0%nat)) as [H0 | H0].
  - split; [discriminate | lia].
  - split; [intros [= <-]; split; [lia | reflexivity] | intros [_ ->]; reflexivity].
Qed.

Lemma CountAdvertisers_counts_entries_witness :
  let e d := models.AdsTxtEntry.mk d "pub-1" "DIRECT" "" in
  let counts :=
    parser.CountAdvertisers
      [e "google.com"; e "appnexus.com"; e "google.com"; e "rubicon.com";
       e "google.com"] in
  counts !! "google.com" = Some 3 /\ counts !! "openx.com" = None /\
  props.zsum (snd <$> map_to_list counts) = 5.
Proof.
  intros e counts.
  destruct (CountAdvertisers_counts_entries
              [e "google.com"; e "appnexus.com"; e "google.com"; e "rubicon.com";
               e "google.com"]) as [Hl Ht].
  - vm_compute. discriminate.
  - fold counts in Hl, Ht. split; [| split].
    + apply Hl. vm_compute. split; [lia | reflexivity].
    + destruct (counts !! "openx.com") as [c |] eqn:Hc; [| reflexivity].
      apply Hl in Hc as [Hc _]. vm_compute in Hc. lia.
    + exact Ht.
Defined.

(** X9.  The analysis [buildAnalysis] makes of a parsed file, with the
    parser's [CountAdvertisers]: its total is the number of entries of the
    file, its advertiser list has one item for each exchange domain of the
    file, with the number of entries that name it, these counts add up to
    the total, and the list is sorted by count descending, then by domain
    ascending; the analysis is marked as not cached. *)
Theorem fresh_analysis_counts_entries
    (d : domainAnalysis.Deps) (domain : string)
    (entries : list models.AdsTxtEntry.t) :
  domainAnalysis.countAdvertisers d = parser.CountAdvertisers ->
  Z.of_nat (length entries) <= Int64.MaxInt64 ->
  let a := domainAnalysis.buildAnalysis d domain entries in
  models.DomainAnalysis.Domain a = domain /\
  models.DomainAnalysis.Cached a = false /\
  models.DomainAnalysis.Timestamp a = domainAnalysis.clock d /\
  models.DomainAnalysis.TotalAdvertisers a = Z.of_nat (length entries) /\
  props.zsum (models.AdvertiserInfo.Count <$> models.DomainAnalysis.Advertisers a)
    = Z.of_nat (length entries) /\
  (forall x c,
      models.AdvertiserInfo.mk x c ∈ models.DomainAnalysis.Advertisers a <->
      (0 < props.occurrences x entries)%nat /\
      c = Z.of_nat (props.occurrences x entries)) /\
  StronglySorted props.ordered (models.DomainAnalysis.Advertisers a).
Proof.
  intros Hcount Hlen a. unfold a. rewrite buildAnalysis_spec. cbv zeta.
  rewrite Hcount.
  cbn [models.DomainAnalysis.Domain models.DomainAnalysis.Cached
       models.DomainAnalysis.Timestamp models.DomainAnalysis.TotalAdvertisers
       models.DomainAnalysis.Advertisers].
  rewrite zsum_entries, CountAdvertisers_total by assumption.
  split; [reflexivity |]. split; [reflexivity |]. split; [reflexivity |].
  split.
  { apply wrap_in_range.
    unfold Int64.in_range, Int64.MinInt64, Int64.MaxInt64 in *. lia. }
  split; [reflexivity |]. split; [| apply entries_sorted].
  intros x c. rewrite entries_elem, CountAdvertisers_lookup by assumption.
  destruct (decide (props.occurrences x entries = 0%nat)) as [H0 | H0].
  - split; [discriminate | lia].
  - split; [intros [= <-]; split; [lia | reflexivity] | intros [_ ->]; reflexivity].
Qed.

Lemma fresh_analysis_counts_entries_witness :
  let e x := models.AdsTxtEntry.mk x "pub-1" "DIRECT" "" in
  let d := domainAnalysis.mkDeps
             (fun _ => inr (models.errorString "cache service unavailable"))
             (fun _ => inl "content")
             (fun _ => inl [])
             parser.CountAdvertisers
             (fun _ _ => None)
             1700000000 in
  let a := domainAnalysis.buildAnalysis d "msn.com"
             [e "google.com"; e "appnexus.com"; e "google.com"; e "rubicon.com"] in
  models.DomainAnalysis.TotalAdvertisers a = 4 /\
  models.DomainAnalysis.Advertisers a
  = [models.AdvertiserInfo.mk "google.com" 2;
     models.AdvertiserInfo.mk "appnexus.com" 1;
     models.AdvertiserInfo.mk "rubicon.com" 1].
Proof.
  intros e d a.
  destruct (fresh_analysis_counts_entries d "msn.com"
              [e "google.com"; e "appnexus.com"; e "google.com"; e "rubicon.com"])
    as (_ & _ & _ & Htot & _).
  - reflexivity.
  - vm_compute. discriminate.
  - split; [exact Htot | vm_compute; reflexivity].
Defined.

(** X10.  In a batch whose cached analyses (if any) each carry the sum of
    their own counts as their total, every succeeded result does so too,
    the results computed from a fetched file included, and the aggregate
    total of the response is the sum, in Go's [int] arithmetic, of the
    totals of the succeeded results. *)
Theorem aggregate_total_is_sum_of_result_totals
    (s : domainAnalysis.Service) (deps : nat -> domainAnalysis.Deps)
    (sched : list models.DomainResult.t -> list models.DomainResult.t)
    (now : time.Time) (domains : list string) :
  (forall l, sched l ≡ₚ l) ->
  0 < domainAnalysis.maxConcurrent s ->
  (forall i dom cached,
      domains !! i = Some dom ->
      domainAnalysis.cacheGet (deps i) dom = inl cached ->
      props.consistent cached) ->
  exists resp,
    fst (domainAnalysis.AnalyzeDomains s deps sched now domains)
      = domainAnalysis.Returns (resp, None) /\
    Forall (fun r =>
              models.DomainResult.TotalAdvertisers r
              = Int64.wrap (props.zsum (models.AdvertiserInfo.Count
                                          <$> models.DomainResult.Advertisers r)))
           (props.succeeded (models.BatchAnalysisResponse.Results resp)) /\
    models.BatchAnalysisResponse.TotalAdvertisers resp
      = Int64.wrap
          (props.zsum (models.DomainResult.TotalAdvertisers
                         <$> props.succeeded
                               (models.BatchAnalysisResponse.Results resp))).
Proof.
  intros Hsched Hmax Hcache.
  destruct domains as [| dom0 l] eqn:Hd.
  { eexists. split; [reflexivity |]. cbn. split; [constructor | reflexivity]. }
  rewrite <- Hd in *.
  assert (Hne : domains <> []) by (rewrite Hd; discriminate). clear Hd.
  rewrite AnalyzeDomains_returns by assumption.
  eexists. split; [reflexivity |].
  destruct (aggregateResults_spec (sched (domainAnalysis.sent deps domains))
              (Z.of_nat (length domains)) now) as (HR & _ & _ & HT & _).
  cbv zeta in HR, HT. rewrite HR, HT.
  assert (HF : Forall (fun r =>
              models.DomainResult.TotalAdvertisers r
              = Int64.wrap (props.zsum (models.AdvertiserInfo.Count
                                          <$> models.DomainResult.Advertisers r)))
           (props.succeeded (sched (domainAnalysis.sent deps domains)))).
  { apply Forall_forall. intros r Hr.
    apply list_elem_of_filter in Hr as [Hok Hr].
    rewrite Hsched in Hr. unfold domainAnalysis.sent in Hr.
    apply elem_of_lookup_imap in Hr as (i & dom & -> & Hi).
    apply worker_consistent; [| exact Hok].
    intros cached. now apply Hcache. }
  split; [exact HF |]. now apply listed_totals_wrap.
Qed.

Lemma aggregate_total_is_sum_of_result_totals_witness :
  let e x := models.AdsTxtEntry.mk x "pub-1" "DIRECT" "" in
  let d := domainAnalysis.mkDeps
             (fun _ => inr (models.errorString "cache service unavailable"))
             (fun dom => if String.eqb dom "fail.com"
                         then inr (models.errorString "network timeout")
                         else inl "content")
             (fun _ => inl [e "google.com"; e "rubicon.com"; e "google.com"])
             parser.CountAdvertisers
             (fun _ _ => None)
             0 in
  exists resp,
    fst (domainAnalysis.AnalyzeDomains (domainAnalysis.mkService 5)
           (fun _ => d) reverse 0 ["a.com"; "fail.com"; "b.com"])
      = domainAnalysis.Returns (resp, None) /\
    models.BatchAnalysisResponse.TotalAdvertisers resp = 6.
Proof.
  intros e d.
  destruct (aggregate_total_is_sum_of_result_totals (domainAnalysis.mkService 5)
              (fun _ => d) reverse 0 ["a.com"; "fail.com"; "b.com"])
    as (resp & Hresp & _ & Htot).
  - apply reverse_Permutation.
  - reflexivity.
  - intros i dom cached _ Hc. discriminate.
  - exists resp. split; [exact Hresp |].
    vm_compute in Hresp. injection Hresp as <-. vm_compute. reflexivity.
Defined.

(** X11.  The order in which the workers' results arrive decides the
    order of [Results] and nothing else: two runs of the same batch, with
    the same outcome for every domain, return the same results up to
    order, the same summary, the same advertiser list (in the same order),
    the same total and the same timestamp. *)
Theorem batch_response_independent_of_arrival_order
    (s : domainAnalysis.Service) (deps : nat -> domainAnalysis.Deps)
    (sched1 sched2 : list models.DomainResult.t -> list models.DomainResult.t)
    (now : time.Time) (domains : list string) :
  (forall l, sched1 l ≡ₚ l) -> (forall l, sched2 l ≡ₚ l) ->
  0 < domainAnalysis.maxConcurrent s ->
  Z.of_nat (length domains) <= Int64.MaxInt64 ->
  exists r1 r2,
    fst (domainAnalysis.AnalyzeDomains s deps sched1 now domains)
      = domainAnalysis.Returns (r1, None) /\
    fst (domainAnalysis.AnalyzeDomains s deps sched2 now domains)
      = domainAnalysis.Returns (r2, None) /\
    models.BatchAnalysisResponse.Results r1
      ≡ₚ models.BatchAnalysisResponse.Results r2 /\
    models.BatchAnalysisResponse.Summary r1
      = models.BatchAnalysisResponse.Summary r2 /\
    models.BatchAnalysisResponse.Advertisers r1
      = models.BatchAnalysisResponse.Advertisers r2 /\
    models.BatchAnalysisResponse.TotalAdvertisers r1
      = models.BatchAnalysisResponse.TotalAdvertisers r2 /\
    models.BatchAnalysisResponse.Timestamp r1
      = models.BatchAnalysisResponse.Timestamp r2.
Proof.
  intros H1 H2 Hmax Hlen.
  destruct domains as [| dom0 l] eqn:Hd.
  { do 2 eexists. split; [reflexivity |]. split; [reflexivity |].
    cbn. repeat split; reflexivity. }
  rewrite <- Hd in *.
  assert (Hne : domains <> []) by (rewrite Hd; discriminate). clear Hd.
  rewrite !AnalyzeDomains_returns by assumption.
  do 2 eexists. split; [reflexivity |]. split; [reflexivity |].
  apply aggregateResults_Permutation.
  - now rewrite H1, H2.
  - now rewrite H1, sent_length.
Qed.

Lemma batch_response_independent_of_arrival_order_witness :
  let e x := models.AdsTxtEntry.mk x "pub-1" "DIRECT" "" in
  let d := domainAnalysis.mkDeps
             (fun _ => inr (models.errorString "cache service unavailable"))
             (fun dom => if String.eqb dom "fail.com"
                         then inr (models.errorString "network timeout")
                         else inl "content")
             (fun _ => inl [e "google.com"; e "rubicon.com"; e "google.com"])
             parser.CountAdvertisers
             (fun _ _ => None)
             0 in
  let run sched :=
    fst (domainAnalysis.AnalyzeDomains (domainAnalysis.mkService 5)
           (fun _ => d) sched 0 ["a.com"; "fail.com"; "b.com"]) in
  exists r1 r2,
    run id = domainAnalysis.Returns (r1, None) /\
    run reverse = domainAnalysis.Returns (r2, None) /\
    models.BatchAnalysisResponse.Advertisers r1
      = models.BatchAnalysisResponse.Advertisers r2 /\
    models.BatchAnalysisResponse.Results r1
      <> models.BatchAnalysisResponse.Results r2.
Proof.
  intros e d run.
  destruct (batch_response_independent_of_arrival_order
              (domainAnalysis.mkService 5) (fun _ => d) id reverse 0
              ["a.com"; "fail.com"; "b.com"])
    as (r1 & r2 & E1 & E2 & _ & _ & HA & _).
  - reflexivity.
  - apply reverse_Permutation.
  - reflexivity.
  - vm_compute. discriminate.
  - exists r1, r2. split; [exact E1 |]. split; [exact E2 |].
    split; [exact HA |].
    vm_compute in E1. injection E1 as <-.
    vm_compute in E2. injection E2 as <-.
    vm_compute. discriminate.
Defined.

(* ===================================================================== *)
(** * Properties: the status of a failed analysis *)
(* ===================================================================== *)

Section StatusFacts.

Import models.

Lemma prefix_app sub s q :
  String.prefix sub s = true -> String.prefix sub (s +:+ q) = true.
Proof.
  revert s. induction sub as [| a sub IH]; intros s H.
  - now destruct (s +:+ q).
  - destruct s as [| b s]; [discriminate |].
    change (String b s +:+ q) with (String b (s +:+ q)). cbn [String.prefix] in *.
    destruct (Ascii.ascii_dec a b); [now apply IH | discriminate].
Qed.

Lemma Contains_app_l s q sub :
  http.Contains s sub = true -> http.Contains (s +:+ q) sub = true.
Proof.
  induction s as [| a s IH]; cbn [http.Contains String.append];
    intros H; apply orb_true_iff in H as [H | H].
  - destruct sub; [| discriminate]. now destruct q.
  - discriminate.
  - apply orb_true_iff. left. exact (prefix_app sub (String a s) q H).
  - apply orb_true_iff. right. now apply IH.
Qed.

Lemma Contains_app_r p s sub :
  http.Contains s sub = true -> http.Contains (p +:+ s) sub = true.
Proof.
  intros H. induction p as [| a p IH]; [exact H |].
  cbn [http.Contains String.append]. apply orb_true_iff. now right.
Qed.

(** A keyword that occurs in the domain, in the message or in the cause
    of a [DomainError] occurs in its [Error()] string. *)
Lemma Contains_DomainError dom msg cause k :
  http.Contains dom k = true \/ http.Contains msg k = true
  \/ http.Contains (Error cause) k = true ->
  http.Contains (Error (NewDomainError dom msg cause)) k = true.
Proof.
  cbn [NewDomainError Error]. intros [H | [H | H]].
  - apply Contains_app_r, Contains_app_l, H.
  - do 3 apply Contains_app_r. apply Contains_app_l, H.
  - do 5 apply Contains_app_r. exact H.
Qed.

Lemma getStatusCodeForError_codes err :
  http.getStatusCodeForError err ∈ [400; 404; 408; 429; 500].
Proof.
  unfold http.getStatusCodeForError. cbv zeta.
  repeat (match goal with |- context [if ?b then _ else _] => destruct b end);
    unfold http.StatusNotFound, http.StatusRequestTimeout, http.StatusBadRequest,
      http.StatusTooManyRequests, http.StatusInternalServerError;
    set_solver.
Qed.

Lemma getStatusCodeForError_404 err :
  http.getStatusCodeForError err = 404
  <-> http.Contains (Error err) "not found" = true
      \/ http.Contains (Error err) "404" = true.
Proof.
  unfold http.getStatusCodeForError. cbv zeta.
  destruct (http.Contains (Error err) "not found"); cbn [orb];
    [unfold http.StatusNotFound; intuition |].
  destruct (http.Contains (Error err) "404");
    [unfold http.StatusNotFound; intuition |].
  repeat (match goal with |- context [if ?b then _ else _] => destruct b end);
    unfold http.StatusNotFound, http.StatusRequestTimeout, http.StatusBadRequest,
      http.StatusTooManyRequests, http.StatusInternalServerError;
    intuition discriminate.
Qed.

Lemma getStatusCodeForError_wrapped_404 dom msg cause :
  http.getStatusCodeForError cause = 404 ->
  http.getStatusCodeForError (NewDomainError dom msg cause) = 404.
Proof.
  rewrite !getStatusCodeForError_404. intros [H | H]; [left | right];
    apply Contains_DomainError; auto.
Qed.

End StatusFacts.

(** X12.  The status [getStatusCodeForError] gives to the error of a
    failed analysis, a [DomainError] around its cause.  The wrapping hides
    no keyword: one that occurs in the cause, in the message or in the
    domain name occurs in the error string.  So a cause classified 404 stays
    404 once wrapped, and a domain whose name holds "404" or "not found" is
    answered 404 whatever made its analysis fail.  A cause that holds
    "timeout" is answered 408, unless the error string also holds
    "not found" or "404", and then 404; one that holds "invalid domain" is
    answered 400, unless the error string holds one of the keywords before
    it, and one that holds "rate limit" 429, likewise.  The answer is 500
    exactly when the error string holds none of the five keywords. *)
Theorem status_of_wrapped_error (dom msg : string) (cause : models.error) :
  let err := models.NewDomainError dom msg cause in
  let has := http.Contains (models.Error err) in
  (forall k,
      http.Contains dom k = true \/ http.Contains msg k = true
      \/ http.Contains (models.Error cause) k = true ->
      has k = true) /\
  (http.getStatusCodeForError cause = 404 ->
   http.getStatusCodeForError err = 404) /\
  (http.Contains dom "404" = true \/ http.Contains dom "not found" = true ->
   http.getStatusCodeForError err = 404) /\
  (http.Contains (models.Error cause) "timeout" = true ->
   http.getStatusCodeForError err
   = if has "not found" || has "404" then 404 else 408) /\
  (http.Contains (models.Error cause) "invalid domain" = true ->
   http.getStatusCodeForError err
   = if has "not found" || has "404" then 404
     else if has "timeout" then 408 else 400) /\
  (http.Contains (models.Error cause) "rate limit" = true ->
   http.getStatusCodeForError err
   = if has "not found" || has "404" then 404
     else if has "timeout" then 408
     else if has "invalid domain" then 400 else 429) /\
  (http.getStatusCodeForError err = 500 <->
   has "not found" = false /\ has "404" = false /\ has "timeout" = false /\
   has "invalid domain" = false /\ has "rate limit" = false).
Proof.
  intros err has.
  assert (Hhide : forall k,
             http.Contains dom k = true \/ http.Contains msg k = true
             \/ http.Contains (models.Error cause) k = true -> has k = true)
    by (intros k; apply Contains_DomainError).
  split; [exact Hhide |].
  split; [apply getStatusCodeForError_wrapped_404 |].
  split.
  { rewrite getStatusCodeForError_404. intros [H | H]; [right | left];
      apply Contains_DomainError; auto. }
  unfold http.getStatusCodeForError. cbv zeta. fold has.
  unfold http.StatusNotFound, http.StatusRequestTimeout, http.StatusBadRequest,
    http.StatusTooManyRequests, http.StatusInternalServerError.
  split; [| split; [| split]].
  - intros H. rewrite (Hhide "timeout") by auto. reflexivity.
  - intros H. rewrite (Hhide "invalid domain") by auto. reflexivity.
  - intros H. rewrite (Hhide "rate limit") by auto. reflexivity.
  - destruct (has "not found"), (has "404"), (has "timeout"),
      (has "invalid domain"), (has "rate limit"); cbn [orb];
      split; try discriminate; try (intros (? & ? & ? & ? & ?); discriminate);
      intuition.
Qed.

Lemma status_of_wrapped_error_witness :
  http.getStatusCodeForError
    (models.NewDomainError "example.com" "failed to fetch ads.txt"
       models.ErrDomainNotFound) = 404 /\
  http.getStatusCodeForError
    (models.NewDomainError "example.com" "failed to fetch ads.txt"
       models.ErrFetchTimeout) = 408 /\
  http.getStatusCodeForError
    (models.NewDomainError "news404.com" "failed to fetch ads.txt"
       models.ErrFetchTimeout) = 404 /\
  http.getStatusCodeForError
    (models.NewDomainError "example.com" "failed to fetch ads.txt"
       models.ErrInvalidDomain) = 400 /\
  http.getStatusCodeForError
    (models.NewDomainError "example.com" "failed to fetch ads.txt"
       models.ErrRateLimitExceeded) = 429 /\
  http.getStatusCodeForError
    (models.NewDomainError "example.com" "failed to parse ads.txt"
       models.ErrInvalidAdsTxtFormat) = 500.
Proof.
  split; [| split; [| split; [| split; [| split]]]].
  - destruct (status_of_wrapped_error "example.com" "failed to fetch ads.txt"
                models.ErrDomainNotFound) as (_ & H & _).
    apply H. vm_compute. reflexivity.
  - destruct (status_of_wrapped_error "example.com" "failed to fetch ads.txt"
                models.ErrFetchTimeout) as (_ & _ & _ & H & _).
    rewrite H by (vm_compute; reflexivity). vm_compute. reflexivity.
  - destruct (status_of_wrapped_error "news404.com" "failed to fetch ads.txt"
                models.ErrFetchTimeout) as (_ & _ & H & _).
    apply H. left. vm_compute. reflexivity.
  - destruct (status_of_wrapped_error "example.com" "failed to fetch ads.txt"
                models.ErrInvalidDomain) as (_ & _ & _ & _ & H & _).
    rewrite H by (vm_compute; reflexivity). vm_compute. reflexivity.
  - destruct (status_of_wrapped_error "example.com" "failed to fetch ads.txt"
                models.ErrRateLimitExceeded) as (_ & _ & _ & _ & _ & H & _).
    rewrite H by (vm_compute; reflexivity). vm_compute. reflexivity.
  - destruct (status_of_wrapped_error "example.com" "failed to parse ads.txt"
                models.ErrInvalidAdsTxtFormat) as (_ & _ & _ & _ & _ & _ & H).
    apply H. vm_compute. repeat split.
Defined.

(** X13.  The single-domain handler over [AnalyzeDomain].  Without a
    domain it answers 400 "domain is required" and calls nothing.  With one
    it calls [AnalyzeDomain] once, on that domain: a cached analysis is
    answered 200 and marked as cached; an analysis computed from a fetched
    file is answered 200; every failure, of the fetcher or of the parser,
    is answered with the error "analysis failed", the error string of the
    [DomainError] as its message and the status of that string, which is
    404 when the fetcher reports [ErrDomainNotFound].  The status is
    always one of 200, 400, 404, 408, 429 and 500. *)
Theorem single_domain_handler
    (d : domainAnalysis.Deps) (now : time.Time) (domain : string) :
  let svc : http.DomainAnalysisService :=
    {| http.AnalyzeDomain := domainAnalysis.AnalyzeDomain d |} in
  let w := http.AnalyzeSingleDomain now domain in
  let failure msg cause :=
    http.mkReply
      (http.getStatusCodeForError (models.NewDomainError domain msg cause))
      (inr (http.mkErrorResponse "analysis failed"
              ("domain " +:+ domain +:+ ": " +:+ msg +:+ ": "
               +:+ models.Error cause) now))
      [domain] in
  (domain = "" ->
   w = http.mkReply 400
         (inr (http.mkErrorResponse "domain is required" "" now)) []) /\
  (domain <> "" -> http.analyzed w = [domain]) /\
  (domain <> "" ->
   forall cached, domainAnalysis.cacheGet d domain = inl cached ->
     w = http.mkReply 200
           (inl (models.DomainAnalysis.mk
                   (models.DomainAnalysis.Domain cached)
                   (models.DomainAnalysis.TotalAdvertisers cached)
                   (models.DomainAnalysis.Advertisers cached)
                   true
                   (models.DomainAnalysis.Timestamp cached)))
           [domain]) /\
  (domain <> "" ->
   forall miss cause,
     domainAnalysis.cacheGet d domain = inr miss ->
     domainAnalysis.fetch d domain = inr cause ->
     w = failure "failed to fetch ads.txt" cause /\
     (cause = models.ErrDomainNotFound -> http.replyStatus w = 404)) /\
  (domain <> "" ->
   forall miss content cause,
     domainAnalysis.cacheGet d domain = inr miss ->
     domainAnalysis.fetch d domain = inl content ->
     domainAnalysis.parse d content = inr cause ->
     w = failure "failed to parse ads.txt" cause) /\
  (domain <> "" ->
   forall miss content entries,
     domainAnalysis.cacheGet d domain = inr miss ->
     domainAnalysis.fetch d domain = inl content ->
     domainAnalysis.parse d content = inl entries ->
     w = http.mkReply 200
           (inl (domainAnalysis.buildAnalysis d domain entries)) [domain]) /\
  (domain <> "" ->
   forall e, domainAnalysis.AnalyzeDomain d domain = inr e ->
     w = http.mkReply (http.getStatusCodeForError e)
           (inr (http.mkErrorResponse "analysis failed" (models.Error e) now))
           [domain]) /\
  http.replyStatus w ∈ [200; 400; 404; 408; 429; 500].
Proof.
  intros svc w failure. unfold w, failure, http.AnalyzeSingleDomain.
  destruct (String.eqb_spec domain "") as [-> | Hne].
  { split; [reflexivity |]. repeat (split; [congruence |]).
    cbn. set_solver. }
  split; [congruence |].
  cbn [http.AnalyzeDomain svc].
  split; [| split; [| split; [| split; [| split; [| split]]]]].
  - intros _. unfold domainAnalysis.AnalyzeDomain.
    now destruct (domainAnalysis.cacheGet d domain);
      [| destruct (domainAnalysis.fetch d domain);
         [destruct (domainAnalysis.parse d _) |]].
  - intros _ cached Hc. unfold domainAnalysis.AnalyzeDomain. now rewrite Hc.
  - intros _ miss cause Hm Hf.
    unfold domainAnalysis.AnalyzeDomain. rewrite Hm, Hf.
    split; [reflexivity |].
    intros ->. cbn [http.replyStatus].
    apply getStatusCodeForError_wrapped_404. vm_compute. reflexivity.
  - intros _ miss content cause Hm Hf Hp.
    unfold domainAnalysis.AnalyzeDomain. now rewrite Hm, Hf, Hp.
  - intros _ miss content entries Hm Hf Hp.
    unfold domainAnalysis.AnalyzeDomain. now rewrite Hm, Hf, Hp.
  - intros _ e He. now rewrite He.
  - destruct (domainAnalysis.AnalyzeDomain d domain) as [a | e];
      cbn [http.replyStatus].
    + unfold http.StatusOK. set_solver.
    + apply list_elem_of_further, getStatusCodeForError_codes.
Qed.

Lemma single_domain_handler_witness :
  let d := domainAnalysis.mkDeps
             (fun _ => inr models.ErrCacheUnavailable)
             (fun dom => if String.eqb dom "missing.com"
                         then inr models.ErrDomainNotFound
                         else if String.eqb dom "empty.com"
                         then inl "# nothing"
                         else inl "google.com, pub-1, DIRECT")
             (fun content => if String.eqb content "# nothing"
                             then inr models.ErrInvalidAdsTxtFormat
                             else inl [models.AdsTxtEntry.mk "google.com"
                                         "pub-1" "DIRECT" ""])
             parser.CountAdvertisers
             (fun _ _ => None)
             1700000000 in
  let svc : http.DomainAnalysisService :=
    {| http.AnalyzeDomain := domainAnalysis.AnalyzeDomain d |} in
  http.AnalyzeSingleDomain 5 ""
    = http.mkReply 400
        (inr (http.mkErrorResponse "domain is required" "" 5)) [] /\
  http.replyStatus (http.AnalyzeSingleDomain 5 "missing.com") = 404 /\
  http.AnalyzeSingleDomain 5 "empty.com"
    = http.mkReply 500
        (inr (http.mkErrorResponse "analysis failed"
                "domain empty.com: failed to parse ads.txt: invalid ads.txt format"
                5))
        ["empty.com"] /\
  http.replyStatus (http.AnalyzeSingleDomain 5 "msn.com") = 200.
Proof.
  intros d svc. split; [| split; [| split]].
  - destruct (single_domain_handler d 5 "") as (H & _). now apply H.
  - destruct (single_domain_handler d 5 "missing.com")
      as (_ & _ & _ & H & _).
    destruct (H ltac:(discriminate) models.ErrCacheUnavailable
                models.ErrDomainNotFound eq_refl eq_refl) as [_ H404].
    now apply H404.
  - destruct (single_domain_handler d 5 "empty.com")
      as (_ & _ & _ & _ & H & _).
    exact (H ltac:(discriminate) models.ErrCacheUnavailable
             "# nothing" models.ErrInvalidAdsTxtFormat
             eq_refl eq_refl eq_refl).
  - destruct (single_domain_handler d 5 "msn.com")
      as (_ & _ & _ & _ & _ & H & _).
    exact (f_equal http.replyStatus
             (H ltac:(discriminate) models.ErrCacheUnavailable
                "google.com, pub-1, DIRECT"
                [models.AdsTxtEntry.mk "google.com" "pub-1" "DIRECT" ""]
                eq_refl eq_refl eq_refl)).
Defined.

(* ===================================================================== *)
(** * Properties: the batch handler over the service *)
(* ===================================================================== *)

Section BatchStatusFacts.

Import models domainAnalysis props.

Lemma filter_length_all {A} (P : A -> Prop) `{!forall x, Decision (P x)} l :
  length (filter P l) = length l <-> Forall P l.
Proof.
  induction l as [| x l IH]; [split; [constructor | reflexivity] |].
  rewrite filter_cons, Forall_cons.
  pose proof (length_filter P l) as Hle.
  destruct (decide (P x)) as [Hx | Hx]; cbn [length].
  - rewrite <- IH. split; [intros [= E]; auto | intros [_ E]; now rewrite E].
  - split; [lia | tauto].
Qed.

Lemma filter_length_none {A} (P : A -> Prop) `{!forall x, Decision (P x)} l :
  length (filter P l) = 0%nat <-> Forall (fun x => ~ P x) l.
Proof.
  induction l as [| x l IH]; [split; [constructor | reflexivity] |].
  rewrite filter_cons, Forall_cons.
  destruct (decide (P x)) as [Hx | Hx]; cbn [length].
  - split; [discriminate | tauto].
  - rewrite IH. tauto.
Qed.

Lemma Forall_sent (Q : DomainResult.t -> Prop) deps domains :
  Forall Q (sent deps domains)
  <-> forall i dom, domains !! i = Some dom -> Q (worker (deps i) dom).
Proof.
  rewrite Forall_lookup. unfold sent. split.
  - intros H i dom Hi. apply (H i). now rewrite list_lookup_imap, Hi.
  - intros H i r Hr. rewrite list_lookup_imap in Hr.
    destruct (domains !! i) as [dom |] eqn:Hi; [| discriminate].
    injection Hr as <-. now apply H.
Qed.

(** The counts of the summary over what the workers sent. *)
Lemma summary_counts deps sched domains now :
  (forall l, sched l ≡ₚ l) ->
  Z.of_nat (length domains) <= Int64.MaxInt64 ->
  let resp := aggregateResults (sched (sent deps domains))
                (Z.of_nat (length domains)) now in
  let n := length (succeeded (sent deps domains)) in
  BatchSummary.Succeeded (BatchAnalysisResponse.Summary resp) = Z.of_nat n /\
  BatchSummary.Failed (BatchAnalysisResponse.Summary resp)
    = Z.of_nat (length domains) - Z.of_nat n.
Proof.
  intros Hsched Hlen. cbv zeta.
  pose proof (sent_length deps domains) as Hsl.
  destruct (aggregate_counts (sched (sent deps domains))
              (mkAgg [] ∅ (BatchSummary.mk (Z.of_nat (length domains)) 0 0)))
    as [HS HF]; cbn; try lia.
  { rewrite Hsched, Hsl. lia. }
  cbn in HS, HF.
  unfold aggregateResults.
  destruct (rangeCounts _) as [adv tot]. cbn [BatchAnalysisResponse.Summary].
  rewrite HS, HF.
  rewrite (Permutation_length (succeeded_Permutation _ _ (Hsched _))).
  rewrite Hsched, Hsl. lia.
Qed.

End BatchStatusFacts.

(** X14.  The batch handler over [AnalyzeDomains], for a request of 1 to
    100 domains: the service is called once, with the domains of the
    request; the response carries one result for each of them; and the
    status tells how the analyses went: 200 exactly when every one
    succeeded, 400 exactly when every one failed, 207 exactly when some
    succeeded and some failed.  It is never 500. *)
Theorem batch_status_reflects_outcomes
    (s : domainAnalysis.Service) (deps : nat -> domainAnalysis.Deps)
    (sched : list models.DomainResult.t -> list models.DomainResult.t)
    (clk now : time.Time) (request : models.BatchAnalysisRequest.t)
    (svc : http.AnalysisService) :
  let domains := models.BatchAnalysisRequest.Domains request in
  (forall l, sched l ≡ₚ l) ->
  (1 <= length domains <= 100)%nat ->
  fst (domainAnalysis.AnalyzeDomains s deps sched clk domains)
    = domainAnalysis.Returns (http.AnalyzeDomains domains) ->
  let w := http.AnalyzeBatchDomains now (inl request) in
  let all_ok := forall i dom, domains !! i = Some dom -> props.analysed deps i dom in
  let all_failed :=
    forall i dom, domains !! i = Some dom -> ~ props.analysed deps i dom in
  http.serviceCalls w = [domains] /\
  (exists resp,
      http.payload w = http.BatchBody resp /\
      models.BatchAnalysisResponse.Results resp
        ≡ₚ domainAnalysis.sent deps domains) /\
  (http.statusCode w = 200 <-> all_ok) /\
  (http.statusCode w = 400 <-> all_failed) /\
  (http.statusCode w = 207 <-> ~ all_ok /\ ~ all_failed) /\
  http.statusCode w <> 500.
Proof.
  intros domains Hsched Hlen Hsvc w all_ok all_failed.
  assert (Hne : domains <> []) by (intros E; rewrite E in Hlen; cbn in Hlen; lia).
  assert (Hmax : 0 < domainAnalysis.maxConcurrent s).
  { unfold domainAnalysis.AnalyzeDomains in Hsvc.
    destruct (Nat.eqb_spec (length domains) 0) as [E | _]; [lia |].
    destruct (Z.ltb_spec (domainAnalysis.maxConcurrent s) 0); [discriminate |].
    destruct (Z.eqb_spec (domainAnalysis.maxConcurrent s) 0); [discriminate | lia]. }
  rewrite AnalyzeDomains_returns in Hsvc by assumption.
  cbn [fst] in Hsvc. injection Hsvc as Hsvc.
  subst w. unfold http.AnalyzeBatchDomains. fold domains.
  destruct (Nat.eqb_spec (length domains) 0) as [E | _]; [lia |].
  destruct (Nat.ltb_spec 100 (length domains)) as [E | _]; [lia |].
  rewrite <- Hsvc.
  cbn [http.serviceCalls http.payload http.statusCode].
  destruct (summary_counts deps sched domains clk Hsched) as [HS HF].
  { unfold Int64.MaxInt64. lia. }
  cbv zeta in HS, HF.
  destruct (aggregateResults_spec (sched (domainAnalysis.sent deps domains))
              (Z.of_nat (length domains)) clk) as (HR & _).
  set (resp := domainAnalysis.aggregateResults _ _ _) in *.
  pose proof (sent_length deps domains) as Hsl.
  pose proof (succeeded_length (domainAnalysis.sent deps domains)) as Hle.
  set (n := length (props.succeeded (domainAnalysis.sent deps domains))) in *.
  assert (Hall : n = length domains <-> all_ok).
  { unfold n, props.succeeded. rewrite <- Hsl, filter_length_all, Forall_sent.
    unfold all_ok, props.analysed. split; intros H i dom Hi.
    - now apply worker_Success, H.
    - now apply worker_Success, H. }
  assert (Hnone : n = 0%nat <-> all_failed).
  { unfold n, props.succeeded. rewrite filter_length_none, Forall_sent.
    unfold all_failed, props.analysed. split; intros H i dom Hi.
    - rewrite <- worker_Success. now apply H.
    - rewrite worker_Success. now apply H. }
  split; [reflexivity |].
  split; [exists resp; split; [reflexivity | now rewrite HR] |].
  unfold http.getBatchStatusCode. rewrite HS, HF.
  unfold http.StatusOK, http.StatusBadRequest, http.StatusMultiStatus.
  rewrite <- Hall, <- Hnone.
  destruct (Z.eqb_spec (Z.of_nat (length domains) - Z.of_nat n) 0);
    [| destruct (Z.eqb_spec (Z.of_nat n) 0)];
    repeat split; intros; try lia; try discriminate.
Qed.

Lemma batch_status_reflects_outcomes_witness :
  let d := domainAnalysis.mkDeps
             (fun _ => inr models.ErrCacheUnavailable)
             (fun dom => if String.eqb dom "fail.com"
                         then inr models.ErrFetchTimeout
                         else inl "google.com, pub-1, DIRECT")
             (fun _ => inl [models.AdsTxtEntry.mk "google.com" "pub-1" "DIRECT" ""])
             parser.CountAdvertisers
             (fun _ _ => None)
             1700000000 in
  let s := domainAnalysis.mkService 5 in
  let svc : http.AnalysisService :=
    {| http.AnalyzeDomains := fun domains =>
         match fst (domainAnalysis.AnalyzeDomains s (fun _ => d) reverse
                      1700000000 domains) with
         | domainAnalysis.Returns r => r
         | _ => (models.BatchAnalysisResponse.mk []
                   (models.BatchSummary.mk 0 0 0) [] 0 0, None)
         end |} in
  let status domains :=
    http.statusCode
      (http.AnalyzeBatchDomains 1700000001
         (inl (models.BatchAnalysisRequest.mk domains))) in
  status ["a.com"; "b.com"] = 200 /\
  status ["fail.com"] = 400 /\
  status ["a.com"; "fail.com"] = 207.
Proof.
  intros d s svc status.
  pose proof (fun domains =>
    batch_status_reflects_outcomes s (fun _ => d) reverse 1700000000 1700000001
      (models.BatchAnalysisRequest.mk domains) svc) as H.
  cbv zeta in H. cbn [models.BatchAnalysisRequest.Domains] in H.
  split; [| split].
  - destruct (H ["a.com"; "b.com"]) as (_ & _ & H200 & _).
    + apply reverse_Permutation.
    + cbn. lia.
    + vm_compute. reflexivity.
    + apply H200. intros i dom Hi.
      destruct i as [| [| i]]; cbn in Hi; try discriminate Hi;
        injection Hi as <-; apply (proj1 (worker_Success _ _));
        vm_compute; reflexivity.
  - destruct (H ["fail.com"]) as (_ & _ & _ & H400 & _).
    + apply reverse_Permutation.
    + cbn. lia.
    + vm_compute. reflexivity.
    + apply H400. intros i dom Hi.
      destruct i as [| i]; cbn in Hi; try discriminate Hi.
      injection Hi as <-. intros Ha. apply worker_Success in Ha.
      vm_compute in Ha. discriminate Ha.
  - destruct (H ["a.com"; "fail.com"]) as (_ & _ & _ & _ & H207 & _).
    + apply reverse_Permutation.
    + cbn. lia.
    + vm_compute. reflexivity.
    + apply H207. split.
      * intros Hall. pose proof (Hall 1%nat "fail.com" eq_refl) as Ha.
        apply worker_Success in Ha. vm_compute in Ha. discriminate Ha.
      * intros Hnone. apply (Hnone 0%nat "a.com" eq_refl).
        apply (proj1 (worker_Success _ _)). vm_compute. reflexivity.
Defined.

(* ===================================================================== *)
(** * Properties: the caches *)
(* ===================================================================== *)

Section SweepOfMap.

Context {V : Type} (stale : V -> bool).

Local Abbreviation drop :=
  (fun (m : gmap string V) (kv : string * V) =>
     if stale kv.2 then delete kv.1 m else m).

Lemma drop_absent l (m : gmap string V) k :
  m !! k = None -> foldl drop m l !! k = None.
Proof.
  revert m. induction l as [| [k1 v1] l IH]; intros m Hm; [exact Hm |].
  cbn [foldl]. apply IH. cbn [fst snd].
  destruct (stale v1); [| exact Hm].
  destruct (decide (k1 = k)) as [-> | Hne].
  - apply lookup_delete_eq.
  - now rewrite lookup_delete_ne.
Qed.

Lemma drop_stale l (m : gmap string V) k v :
  (k, v) ∈ l -> stale v = true -> foldl drop m l !! k = None.
Proof.
  revert m. induction l as [| [k1 v1] l IH]; intros m Hin Hst.
  - now apply elem_of_nil in Hin.
  - cbn [foldl]. apply elem_of_cons in Hin as [Heq | Hin].
    + injection Heq as <- <-. apply drop_absent. cbn [fst snd].
      rewrite Hst. apply lookup_delete_eq.
    + now apply IH.
Qed.

Lemma drop_fresh l (m : gmap string V) k :
  (forall v, (k, v) ∈ l -> stale v = false) ->
  foldl drop m l !! k = m !! k.
Proof.
  revert m. induction l as [| [k1 v1] l IH]; intros m Hall; [reflexivity |].
  cbn [foldl]. rewrite IH.
  - cbn [fst snd]. destruct (stale v1) eqn:Hs; [| reflexivity].
    destruct (decide (k1 = k)) as [-> | Hne].
    + rewrite (Hall v1) in Hs by apply list_elem_of_here. discriminate.
    + now rewrite lookup_delete_ne.
  - intros v Hin. apply Hall. now apply list_elem_of_further.
Qed.

Lemma drop_lookup (m : gmap string V) k :
  foldl drop m (map_to_list m) !! k =
    match m !! k with
    | Some v => if stale v then None else Some v
    | None => None
    end.
Proof.
  destruct (m !! k) as [v |] eqn:Hk.
  - destruct (stale v) eqn:Hs.
    + apply (drop_stale _ _ k v); [| exact Hs]. now apply elem_of_map_to_list.
    + rewrite drop_fresh; [exact Hk |].
      intros v' Hin. apply elem_of_map_to_list in Hin.
      rewrite Hk in Hin. now injection Hin as <-.
  - now apply drop_absent.
Qed.

End SweepOfMap.

Section CacheFacts.

Import models.

Lemma cleanupExpired_lookup now (m : cache.MemoryCache) key :
  cache.cleanupExpired now m !! key =
    match m !! key with
    | Some e => if time.After now (cache.expiresAt e) then None else Some e
    | None => None
    end.
Proof.
  unfold cache.cleanupExpired.
  exact (drop_lookup (fun e => time.After now (cache.expiresAt e)) m key).
Qed.

Lemma Add_in_range now ttl :
  Int64.in_range (now + ttl) -> time.Add now ttl = now + ttl.
Proof. intros H. unfold time.Add, Int64.add. now apply wrap_in_range. Qed.

Lemma Get_insert later key key' e (m : cache.MemoryCache) :
  cache.Get later key' (<[key := e]> m) =
    if decide (key' = key)
    then (if time.After later (cache.expiresAt e)
          then inr ErrCacheUnavailable else inl (cache.entryValue e))
    else cache.Get later key' m.
Proof.
  unfold cache.Get, cache.MemoryCache in *.
  destruct (decide (key' = key)) as [-> | Hne].
  - now rewrite lookup_insert_eq.
  - now rewrite lookup_insert_ne.
Qed.

Lemma cacheKey_inj a b :
  domainCache.cacheKey a = domainCache.cacheKey b -> a = b.
Proof. unfold domainCache.cacheKey. simpl. now intros [= H]. Qed.

End CacheFacts.

Section WiredFacts.

Import models.

(** The result of the wired [AnalyzeDomain] is that of
    [domainAnalysis.AnalyzeDomain] with the collaborators read off the
    cache. *)
Lemma main_AnalyzeDomain_result w c domain m :
  (main.AnalyzeDomain w c domain m).1
  = domainAnalysis.AnalyzeDomain (main.deps w c m) domain.
Proof.
  unfold main.AnalyzeDomain, domainAnalysis.AnalyzeDomain.
  cbn [main.deps domainAnalysis.cacheGet domainAnalysis.fetch
       domainAnalysis.parse].
  destruct (domainCache.Get _ _ _ _) as [cached | e]; [reflexivity |].
  destruct (main.fetch w domain) as [content | e']; [| reflexivity].
  now destruct (main.parse w content).
Qed.

(** A call that returns an analysis not marked as cached has stored it. *)
Lemma main_AnalyzeDomain_stores w c domain m a m1 :
  0 < domainCache.ttl (main.domainCacheService w) ->
  main.AnalyzeDomain w c domain m = (inl a, m1) ->
  DomainAnalysis.Cached a = false ->
  m1 = <[domainCache.cacheKey domain :=
           cache.mkEntry (cache.AnalysisPtr a)
             (time.Add (main.atSet c)
                (domainCache.ttl (main.domainCacheService w)))]> m.
Proof.
  intros Httl. unfold main.AnalyzeDomain.
  destruct (domainCache.Get _ _ _ _) as [cached | e].
  { intros [= <- <-]. discriminate. }
  destruct (main.fetch w domain) as [content | e']; [| discriminate].
  destruct (main.parse w content) as [entries | e'']; [| discriminate].
  intros [= <- <-] _.
  unfold domainCache.Set_, cache.Set_. cbn [Z.eqb].
  destruct (Z.leb_spec (domainCache.ttl (main.domainCacheService w)) 0);
    [lia | reflexivity].
Qed.

End WiredFacts.

(** X15.  An entry of the in-memory cache lives for its TTL.  [Set] with
    a TTL that is not positive is an error and stores nothing.  With a
    positive TTL it stores the value: [Get] on the key returns it up to and
    including the instant of expiry, and [ErrCacheUnavailable] after; other
    keys read as before; after [Delete] the key is unavailable. *)
Theorem memory_cache_entry_lives_for_its_ttl
    (durationString : time.Duration -> string) (now : time.Time) (key : string)
    (v : cache.value) (ttl : time.Duration) (m : cache.MemoryCache) :
  Int64.in_range (now + ttl) ->
  let r := cache.Set_ durationString now key v ttl m in
  (ttl <= 0 -> r.1 <> None /\ r.2 = m) /\
  (0 < ttl ->
   r.1 = None /\
   (forall later, later <= now + ttl -> cache.Get later key r.2 = inl v) /\
   (forall later, now + ttl < later ->
      cache.Get later key r.2 = inr models.ErrCacheUnavailable) /\
   (forall later key', key' <> key ->
      cache.Get later key' r.2 = cache.Get later key' m) /\
   (forall later,
      cache.Get later key (cache.Delete key r.2).2
      = inr models.ErrCacheUnavailable)).
Proof.
  intros Hr r. subst r. unfold cache.Set_.
  destruct (Z.leb_spec ttl 0) as [Hle | Hgt]; cbn [fst snd].
  - split; [intros _; split; [discriminate | reflexivity] | lia].
  - split; [lia |]. intros _. split; [reflexivity |].
    rewrite Add_in_range by assumption.
    split; [| split; [| split]].
    + intros later Hl. rewrite Get_insert, decide_True by reflexivity.
      cbn [cache.expiresAt cache.entryValue]. unfold time.After.
      destruct (Z.ltb_spec (now + ttl) later); [lia | reflexivity].
    + intros later Hl. rewrite Get_insert, decide_True by reflexivity.
      cbn [cache.expiresAt cache.entryValue]. unfold time.After.
      destruct (Z.ltb_spec (now + ttl) later); [reflexivity | lia].
    + intros later key' Hne. now rewrite Get_insert, decide_False.
    + intros later. unfold cache.Delete, cache.Get, cache.MemoryCache in *.
      cbn [snd]. now rewrite lookup_delete_eq.
Qed.

Lemma memory_cache_entry_lives_for_its_ttl_witness :
  let ds (_ : time.Duration) := "0s" in
  let v := cache.JSON "cached" in
  let m := (cache.Set_ ds 1000 "k" v 500 cache.NewMemoryCache).2 in
  cache.Get 1500 "k" m = inl v /\
  cache.Get 1501 "k" m = inr models.ErrCacheUnavailable /\
  (cache.Set_ ds 1000 "k" v 0 cache.NewMemoryCache).2 = cache.NewMemoryCache.
Proof.
  intros ds v m.
  destruct (memory_cache_entry_lives_for_its_ttl ds 1000 "k" v 500
              cache.NewMemoryCache) as [_ H].
  - apply in_rangeb_spec. reflexivity.
  - destruct (H ltac:(lia)) as (_ & Hin & Hout & _).
    split; [apply Hin; lia |]. split; [apply Hout; lia |].
    destruct (memory_cache_entry_lives_for_its_ttl ds 1000 "k" v 0
                cache.NewMemoryCache) as [H0 _].
    + apply in_rangeb_spec. reflexivity.
    + apply H0. lia.
Defined.

(** X16.  A sweep of [cleanupExpired] removes exactly the entries that
    have expired at the time of the sweep, and no reader can tell: at any
    later clock reading, [Get] on any key returns what it would have
    returned without the sweep.  The sweep never makes the cache larger. *)
Theorem expired_sweep_is_invisible
    (now later : time.Time) (key : string) (m : cache.MemoryCache) :
  now <= later ->
  cache.Get later key (cache.cleanupExpired now m) = cache.Get later key m /\
  (forall k e,
      cache.cleanupExpired now m !! k = Some e <->
      m !! k = Some e /\ now <= cache.expiresAt e) /\
  cache.Size (cache.cleanupExpired now m) <= cache.Size m.
Proof.
  intros Hle.
  assert (Hchar : forall k e,
             cache.cleanupExpired now m !! k = Some e <->
             m !! k = Some e /\ now <= cache.expiresAt e).
  { intros k e. rewrite cleanupExpired_lookup. unfold time.After.
    destruct (m !! k) as [e0 |]; [| intuition discriminate].
    destruct (Z.ltb_spec (cache.expiresAt e0) now).
    - split; [discriminate | intros [[= ->] ?]; lia].
    - split; [intros [= ->]; auto | intros [[= ->] ?]; reflexivity]. }
  split; [| split; [exact Hchar |]].
  - unfold cache.Get. rewrite cleanupExpired_lookup. unfold time.After.
    destruct (m !! key) as [e |]; [| reflexivity].
    destruct (Z.ltb_spec (cache.expiresAt e) now); [| reflexivity].
    destruct (Z.ltb_spec (cache.expiresAt e) later); [reflexivity | lia].
  - unfold cache.Size. apply inj_le, map_subseteq_size, map_subseteq_spec.
    intros k e He. now apply Hchar in He.
Qed.

Lemma expired_sweep_is_invisible_witness :
  let ds (_ : time.Duration) := "0s" in
  let m1 := (cache.Set_ ds 0 "old" (cache.JSON "a") 100 cache.NewMemoryCache).2 in
  let m2 := (cache.Set_ ds 50 "new" (cache.JSON "b") 100 m1).2 in
  cache.cleanupExpired 120 m2 !! "old" = None /\
  cache.Get 130 "new" (cache.cleanupExpired 120 m2) = inl (cache.JSON "b") /\
  cache.Get 130 "old" (cache.cleanupExpired 120 m2) = cache.Get 130 "old" m2.
Proof.
  intros ds m1 m2.
  destruct (expired_sweep_is_invisible 120 130 "new" m2) as (Hnew & Hchar & _);
    [lia |].
  destruct (expired_sweep_is_invisible 120 130 "old" m2) as (Hold & _);
    [lia |].
  split; [| split; [rewrite Hnew; vm_compute; reflexivity | exact Hold]].
  destruct (cache.cleanupExpired 120 m2 !! "old") as [e |] eqn:He;
    [| reflexivity].
  apply Hchar in He as [He Hexp]. vm_compute in He. injection He as <-.
  vm_compute in Hexp. now destruct Hexp.
Defined.

(** X17.  The domain cache keeps one entry per domain, under the key
    "domain:" followed by the domain, for the TTL of the call or, when that
    is 0, its default TTL.  When the effective TTL is not positive [Set] is
    an error and nothing is stored.  Otherwise [Get] on the domain returns
    the analysis until it expires and [ErrCacheUnavailable] after, and the
    entries of other domains are not touched. *)
Theorem domain_cache_round_trip
    (durationString : time.Duration -> string)
    (unmarshal : string -> models.DomainAnalysis.t + models.error)
    (d : domainCache.t) (now : time.Time) (domain : string)
    (analysis : models.DomainAnalysis.t) (ttl : time.Duration)
    (m : cache.MemoryCache) :
  let effective := if ttl =? 0 then domainCache.ttl d else ttl in
  Int64.in_range (now + effective) ->
  let r := domainCache.Set_ durationString d now domain analysis ttl m in
  (effective <= 0 -> r.1 <> None /\ r.2 = m) /\
  (0 < effective ->
   r.1 = None /\
   (forall later, later <= now + effective ->
      domainCache.Get unmarshal later domain r.2 = inl analysis) /\
   (forall later, now + effective < later ->
      domainCache.Get unmarshal later domain r.2
      = inr models.ErrCacheUnavailable) /\
   (forall later other, other <> domain ->
      domainCache.Get unmarshal later other r.2
      = domainCache.Get unmarshal later other m)).
Proof.
  intros effective Hr r. subst r. unfold domainCache.Set_. fold effective.
  unfold cache.Set_.
  destruct (Z.leb_spec effective 0) as [Hle | Hgt]; cbn [fst snd].
  - split; [intros _; split; [discriminate | reflexivity] | lia].
  - split; [lia |]. intros _. split; [reflexivity |].
    rewrite Add_in_range by assumption. unfold domainCache.Get.
    split; [| split].
    + intros later Hl. rewrite Get_insert, decide_True by reflexivity.
      cbn [cache.expiresAt cache.entryValue]. unfold time.After.
      destruct (Z.ltb_spec (now + effective) later); [lia | reflexivity].
    + intros later Hl. rewrite Get_insert, decide_True by reflexivity.
      cbn [cache.expiresAt cache.entryValue]. unfold time.After.
      destruct (Z.ltb_spec (now + effective) later); [reflexivity | lia].
    + intros later other Hne. rewrite Get_insert, decide_False; [reflexivity |].
      intros E. now apply cacheKey_inj in E.
Qed.

Lemma domain_cache_round_trip_witness :
  let ds (_ : time.Duration) := "0s" in
  let unmarshal (_ : string) : models.DomainAnalysis.t + models.error :=
    inr (models.errorString "unexpected end of JSON input") in
  let a := models.DomainAnalysis.mk "msn.com" 2
             [models.AdvertiserInfo.mk "google.com" 2] false 0 in
  let m := (domainCache.Set_ ds (domainCache.New 3600000000000) 0 "msn.com" a 0
              cache.NewMemoryCache).2 in
  domainCache.Get unmarshal 3600000000000 "msn.com" m = inl a /\
  domainCache.Get unmarshal 3600000000001 "msn.com" m
    = inr models.ErrCacheUnavailable /\
  (domainCache.Set_ ds (domainCache.New 0) 0 "msn.com" a 0
     cache.NewMemoryCache).2 = cache.NewMemoryCache.
Proof.
  intros ds unmarshal a m.
  destruct (domain_cache_round_trip ds unmarshal (domainCache.New 3600000000000)
              0 "msn.com" a 0 cache.NewMemoryCache) as [_ H].
  - apply in_rangeb_spec. reflexivity.
  - destruct (H ltac:(reflexivity)) as (_ & Hin & Hout & _).
    split; [apply Hin; cbn; lia |]. split; [apply Hout; cbn; lia |].
    destruct (domain_cache_round_trip ds unmarshal (domainCache.New 0)
                0 "msn.com" a 0 cache.NewMemoryCache) as [H0 _].
    + apply in_rangeb_spec. reflexivity.
    + apply H0. cbn. lia.
Defined.

(** X18.  With the in-memory cache and a positive default TTL, an
    analysis that was computed is served from the cache afterwards: a call
    on the same domain made before the entry expires returns the same
    domain, total, advertiser list and timestamp, marked as cached, whatever
    the fetcher and the parser would answer then, and the hit changes the
    cached object itself, which is marked as cached from then on.  In every
    case the result of the wired [AnalyzeDomain] is that of
    [domainAnalysis.AnalyzeDomain] with the collaborators read off the
    cache. *)
Theorem computed_analysis_is_served_from_cache
    (w w' : main.Wiring) (c1 c2 : main.Clock) (domain : string)
    (m m1 : cache.MemoryCache) (a : models.DomainAnalysis.t) :
  let ttl := domainCache.ttl (main.domainCacheService w) in
  0 < ttl ->
  Int64.in_range (main.atSet c1 + ttl) ->
  main.AnalyzeDomain w c1 domain m = (inl a, m1) ->
  models.DomainAnalysis.Cached a = false ->
  main.atGet c2 <= main.atSet c1 + ttl ->
  (main.AnalyzeDomain w c1 domain m).1
    = domainAnalysis.AnalyzeDomain (main.deps w c1 m) domain /\
  let served :=
    models.DomainAnalysis.mk
      (models.DomainAnalysis.Domain a)
      (models.DomainAnalysis.TotalAdvertisers a)
      (models.DomainAnalysis.Advertisers a)
      true
      (models.DomainAnalysis.Timestamp a) in
  (main.AnalyzeDomain w' c2 domain m1).1 = inl served /\
  (main.AnalyzeDomain w' c2 domain m1).2 !! domainCache.cacheKey domain
    = Some (cache.mkEntry (cache.AnalysisPtr served) (main.atSet c1 + ttl)).
Proof.
  intros ttl Httl Hr Hfirst Hfresh Hsoon.
  split; [apply main_AnalyzeDomain_result |].
  rewrite (main_AnalyzeDomain_stores w c1 domain m a m1 Httl Hfirst Hfresh).
  fold ttl. rewrite Add_in_range by assumption.
  unfold main.AnalyzeDomain, domainCache.Get.
  rewrite Get_insert, decide_True by reflexivity.
  cbn [cache.expiresAt cache.entryValue]. unfold time.After.
  destruct (Z.ltb_spec (main.atSet c1 + ttl) (main.atGet c2)); [lia |].
  cbn [fst snd]. split; [reflexivity |].
  unfold main.markCached, cache.MemoryCache in *.
  now rewrite lookup_insert_eq, lookup_insert_eq.
Qed.

Lemma computed_analysis_is_served_from_cache_witness :
  let entries := [models.AdsTxtEntry.mk "google.com" "pub-1" "DIRECT" ""] in
  let w := main.mkWiring (domainCache.New 3600000000000)
             (fun _ => inl "google.com, pub-1, DIRECT")
             (fun _ => inl entries)
             (fun _ => inr (models.errorString "unexpected end of JSON input"))
             (fun _ => "0s") in
  let down := main.mkWiring (domainCache.New 3600000000000)
                (fun _ => inr models.ErrFetchTimeout)
                (fun _ => inr models.ErrInvalidAdsTxtFormat)
                (fun _ => inr (models.errorString "unexpected end of JSON input"))
                (fun _ => "0s") in
  let first := main.AnalyzeDomain w (main.mkClock 10 20 30) "msn.com"
                 cache.NewMemoryCache in
  (main.AnalyzeDomain down (main.mkClock 1000 1010 1020) "msn.com" first.2).1
  = inl (models.DomainAnalysis.mk "msn.com" 1
           [models.AdvertiserInfo.mk "google.com" 1] true 20).
Proof.
  intros entries w down first.
  destruct (computed_analysis_is_served_from_cache w down
              (main.mkClock 10 20 30) (main.mkClock 1000 1010 1020) "msn.com"
              cache.NewMemoryCache first.2
              (models.DomainAnalysis.mk "msn.com" 1
                 [models.AdvertiserInfo.mk "google.com" 1] false 20))
    as (_ & H & _).
  - reflexivity.
  - apply in_rangeb_spec. reflexivity.
  - vm_compute. reflexivity.
  - reflexivity.
  - vm_compute. discriminate.
  - exact H.
Defined.

(** X19.  A default TTL that is zero or negative switches the cache off
    without a word: every [Set] of [AnalyzeDomain] fails (and is only
    logged), so that a cache that starts empty stays empty through any
    calls, and no analysis is ever returned as cached. *)
Theorem non_positive_ttl_disables_cache
    (w : main.Wiring) (calls : list (main.Clock * string))
    (c : main.Clock) (domain : string) :
  domainCache.ttl (main.domainCacheService w) <= 0 ->
  let m := foldl (fun m (call : main.Clock * string) =>
                    (main.AnalyzeDomain w call.1 call.2 m).2)
                 cache.NewMemoryCache calls in
  m = cache.NewMemoryCache /\
  forall a, (main.AnalyzeDomain w c domain m).1 = inl a ->
            models.DomainAnalysis.Cached a = false.
Proof.
  intros Httl.
  assert (Hstep : forall c domain,
             main.AnalyzeDomain w c domain cache.NewMemoryCache
             = (domainAnalysis.AnalyzeDomain
                  (main.deps w c cache.NewMemoryCache) domain,
                cache.NewMemoryCache)).
  { intros c0 dom. rewrite <- main_AnalyzeDomain_result.
    unfold main.AnalyzeDomain, domainCache.Get, cache.Get, cache.NewMemoryCache,
      cache.MemoryCache.
    rewrite lookup_empty.
    destruct (main.fetch w dom) as [content | e]; [| reflexivity].
    destruct (main.parse w content) as [entries | e]; [| reflexivity].
    cbn [fst snd]. f_equal.
    unfold domainCache.Set_, cache.Set_. cbn [Z.eqb].
    destruct (Z.leb_spec (domainCache.ttl (main.domainCacheService w)) 0);
      [reflexivity | lia]. }
  assert (Hrun : foldl (fun m (call : main.Clock * string) =>
                          (main.AnalyzeDomain w call.1 call.2 m).2)
                       cache.NewMemoryCache calls = cache.NewMemoryCache).
  { induction calls as [| [c0 dom] calls IH] using rev_ind; [reflexivity |].
    rewrite foldl_snoc, IH. cbn [fst snd]. now rewrite Hstep. }
  cbv zeta. rewrite Hrun. split; [reflexivity |].
  intros a. rewrite Hstep. cbn [fst].
  unfold domainAnalysis.AnalyzeDomain.
  cbn [main.deps domainAnalysis.cacheGet domainAnalysis.fetch
       domainAnalysis.parse].
  unfold domainCache.Get, cache.Get, cache.NewMemoryCache, cache.MemoryCache.
  rewrite lookup_empty.
  destruct (main.fetch w domain) as [content | e]; [| discriminate].
  destruct (main.parse w content) as [entries | e]; [| discriminate].
  intros [= <-]. now rewrite buildAnalysis_spec.
Qed.

Lemma non_positive_ttl_disables_cache_witness :
  let entries := [models.AdsTxtEntry.mk "google.com" "pub-1" "DIRECT" ""] in
  let w := main.mkWiring (domainCache.New 0)
             (fun _ => inl "google.com, pub-1, DIRECT")
             (fun _ => inl entries)
             (fun _ => inr (models.errorString "unexpected end of JSON input"))
             (fun _ => "0s") in
  let first := main.AnalyzeDomain w (main.mkClock 10 20 30) "msn.com"
                 cache.NewMemoryCache in
  first.2 = cache.NewMemoryCache /\
  (main.AnalyzeDomain w (main.mkClock 40 50 60) "msn.com" first.2).1
  = inl (models.DomainAnalysis.mk "msn.com" 1
           [models.AdvertiserInfo.mk "google.com" 1] false 50).
Proof.
  intros entries w first.
  destruct (non_positive_ttl_disables_cache w
              [(main.mkClock 10 20 30, "msn.com")]
              (main.mkClock 40 50 60) "msn.com") as [Hm _].
  - cbn. lia.
  - cbn [foldl fst snd] in Hm. fold first in Hm.
    split; [exact Hm |]. rewrite Hm. vm_compute. reflexivity.
Defined.

(* ===================================================================== *)
(** * Properties: accrual over whole seconds *)
(* ===================================================================== *)

Section WholeSecondFacts.

Import ratelimit props.

Local Abbreviation fexp := (fexp Float64.prec Float64.emax).

Lemma shr_1_double m :
  0 <= m ->
  shr_1 {| shr_m := 2 * m; shr_r := false; shr_s := false |}
  = {| shr_m := m; shr_r := false; shr_s := false |}.
Proof. destruct m as [| p | p]; intros H; [reflexivity | reflexivity | lia]. Qed.

(** Shifting out bits that are all zero loses nothing. *)
Lemma iter_shr_1_exact p m :
  0 <= m ->
  SpecFloat.iter_pos shr_1 p
    {| shr_m := m * 2 ^ Z.pos p; shr_r := false; shr_s := false |}
  = {| shr_m := m; shr_r := false; shr_s := false |}.
Proof.
  revert m. induction p as [p IH | p IH |]; intros m Hm;
    cbn [SpecFloat.iter_pos].
  - assert (Hp : 0 < 2 ^ Z.pos p) by (apply Z.pow_pos_nonneg; lia).
    replace (m * 2 ^ Z.pos p~1) with (2 * (m * 2 ^ Z.pos p * 2 ^ Z.pos p)).
    2:{ replace (Z.pos p~1) with (1 + Z.pos p + Z.pos p) by lia.
        rewrite !Z.pow_add_r by lia. lia. }
    rewrite shr_1_double by nia. rewrite IH by nia. now apply IH.
  - assert (Hp : 0 < 2 ^ Z.pos p) by (apply Z.pow_pos_nonneg; lia).
    replace (m * 2 ^ Z.pos p~0) with (m * 2 ^ Z.pos p * 2 ^ Z.pos p).
    2:{ replace (Z.pos p~0) with (Z.pos p + Z.pos p) by lia.
        rewrite !Z.pow_add_r by lia. lia. }
    rewrite IH by nia. now apply IH.
  - replace (m * 2 ^ 1) with (2 * m) by lia. now apply shr_1_double.
Qed.

(** A mantissa of 53 bits followed by zero bits rounds to itself, with the
    exponent moved up by the number of these bits. *)
Lemma binary_round_aux_shift s m n e :
  Z.pos (digits2_pos m) = 53 -> 0 <= n -> -1074 <= e + n <= 971 ->
  binary_round_aux Float64.prec Float64.emax s (Z.pos m * 2 ^ n) e loc_Exact
  = S754_finite s m (e + n).
Proof.
  intros Hd Hn He. destruct n as [| p | p]; [| | lia].
  { rewrite Z.mul_1_r, Z.add_0_r. apply binary_round_aux_exact; [exact Hd | lia]. }
  assert (Hp : 0 < 2 ^ Z.pos p) by (apply Z.pow_pos_nonneg; lia).
  assert (HdM : Zdigits2 (Z.pos m * 2 ^ Z.pos p) = 53 + Z.pos p).
  { destruct (digits2_pos_bounds m) as [Hlo Hhi]. rewrite Hd in Hlo, Hhi.
    destruct (Z.pos m * 2 ^ Z.pos p) as [| q | q] eqn:Eq; [lia | | lia].
    cbn [Zdigits2]. apply digits2_pos_unique. rewrite <- Eq.
    replace (53 + Z.pos p - 1) with (53 - 1 + Z.pos p) by lia.
    rewrite !Z.pow_add_r by lia. nia. }
  assert (Hn1 : fexp (Zdigits2 (Z.pos m * 2 ^ Z.pos p) + e) - e = Z.pos p).
  { rewrite HdM. unfold SpecFloat.fexp, emin, Float64.prec, Float64.emax. lia. }
  assert (Hn2 : fexp (Zdigits2 (Z.pos m) + (e + Z.pos p)) - (e + Z.pos p) = 0).
  { cbn [Zdigits2]. rewrite Hd.
    unfold SpecFloat.fexp, emin, Float64.prec, Float64.emax. lia. }
  unfold binary_round_aux, shr_fexp. rewrite Hn1.
  cbn [shr shr_record_of_loc]. rewrite iter_shr_1_exact by lia.
  cbn [shr_m shr_r shr_s loc_of_shr_record round_nearest_even]. rewrite Hn2.
  cbn [shr shr_record_of_loc shr_m].
  destruct (Z.leb_spec (e + Z.pos p) (Float64.emax - Float64.prec)) as [_ | H];
    [reflexivity | unfold Float64.prec, Float64.emax in H; lia].
Qed.

(** The product of two integers that fits in 53 bits is computed
    exactly. *)
Lemma mul_of_int_exact a b :
  0 < a < 2 ^ 53 -> 0 <= b -> a * b < 2 ^ 53 ->
  Float64.mul (Float64.of_int a) (Float64.of_int b) = Float64.of_int (a * b).
Proof.
  intros Ha Hb Hab.
  destruct a as [| pa | pa]; try lia.
  destruct (of_int_exact pa ltac:(lia)) as (ma & ka & Hfa & Hka & Hkar & Hma & Hda).
  destruct b as [| pb | pb]; try lia.
  { rewrite Z.mul_0_r, Hfa. reflexivity. }
  destruct (of_int_exact pb ltac:(nia)) as (mb & kb & Hfb & Hkb & Hkbr & Hmb & Hdb).
  change (Z.pos pa * Z.pos pb) with (Z.pos (pa * pb)) in *.
  destruct (of_int_exact (pa * pb) Hab) as (mv & kv & Hfv & Hkv & Hkvr & Hmv & Hdv).
  rewrite Hfa, Hfb, Hfv. unfold Float64.mul, SFmul. cbn [xorb].
  destruct (digits2_pos_bounds pa) as [Halo Hahi].
  destruct (digits2_pos_bounds pb) as [Hblo Hbhi].
  destruct (digits2_pos_bounds (pa * pb)) as [Hvlo Hvhi].
  set (da := Z.pos (digits2_pos pa)) in *.
  set (db := Z.pos (digits2_pos pb)) in *.
  set (dv := Z.pos (digits2_pos (pa * pb))) in *.
  assert (Hda1 : 1 <= da) by (unfold da; lia).
  assert (Hdb1 : 1 <= db) by (unfold db; lia).
  assert (Hdv1 : 1 <= dv) by (unfold dv; lia).
  assert (Hbits : da + db - 2 < dv).
  { assert (H : 2 ^ (da + db - 2) < 2 ^ dv).
    { replace (da + db - 2) with ((da - 1) + (db - 1)) by lia.
      rewrite Z.pow_add_r by lia.
      assert (2 ^ (da - 1) * 2 ^ (db - 1) <= Z.pos pa * Z.pos pb)
        by (apply Z.mul_le_mono_nonneg; try lia; apply Z.pow_nonneg; lia).
      change (Z.pos pa * Z.pos pb) with (Z.pos (pa * pb)) in *. lia. }
    apply Z.pow_lt_mono_r_iff in H; lia. }
  set (n := ka + kb - kv).
  assert (Hn : 0 <= n) by (unfold n; lia).
  replace (Z.pos (ma * mb)) with (Z.pos mv * 2 ^ n).
  2:{ assert (E : 2 ^ ka * 2 ^ kb = 2 ^ kv * 2 ^ n)
        by (rewrite <- !Z.pow_add_r by lia; f_equal; unfold n; lia).
      rewrite Pos2Z.inj_mul, Hma, Hmb, Hmv, Pos2Z.inj_mul.
      rewrite <- Z.mul_assoc, <- E. ring. }
  rewrite binary_round_aux_shift by (try assumption; unfold n; lia).
  f_equal. unfold n. lia.
Qed.

Lemma to_int64_of_int v :
  0 <= v < 2 ^ 53 -> Float64.to_int64 (Float64.of_int v) = v.
Proof.
  intros Hv. destruct v as [| p | p]; [reflexivity | | lia].
  destruct (of_int_exact p ltac:(lia)) as (m & k & Hf & _ & Hk & Hm & _).
  rewrite Hf. apply to_int64_fits.
  - cbn [Float64.trunc]. f_equal.
    destruct (Z.leb_spec 0 (- k)) as [H | H].
    + replace k with 0 in * by lia. cbn in Hm |- *. lia.
    + rewrite Z.opp_involutive, Hm.
      apply Z.div_mul. apply Z.pow_nonzero; lia.
  - unfold Int64.in_range, Int64.MinInt64, Int64.MaxInt64. lia.
Qed.

(** A whole number of seconds is read exactly. *)
Lemma Seconds_whole k :
  0 < k < 2 ^ 53 -> time.Seconds (k * time.Second) = Float64.of_int k.
Proof.
  intros Hk. unfold time.Seconds. cbv zeta.
  rewrite Z.quot_mul, Z.rem_mul by (unfold time.Second; lia).
  change (Float64.div (Float64.of_int 0) (Float64.of_int (10 ^ 9)))
    with (S754_zero false).
  destruct k as [| p | p]; try lia.
  destruct (of_int_exact p ltac:(lia)) as (m & j & -> & _).
  reflexivity.
Qed.

Lemma Sub_whole now t0 k :
  0 <= k -> k * time.Second <= Int64.MaxInt64 ->
  now - t0 = k * time.Second -> time.Sub now t0 = k * time.Second.
Proof.
  intros Hk Hmax Hd. unfold time.Sub, Int64.sub. rewrite Hd.
  rewrite wrap_in_range
    by (unfold Int64.in_range, Int64.MinInt64, Int64.MaxInt64, time.Second in *; lia).
  destruct (Z.ltb_spec (k * time.Second) 0);
    [unfold time.Second in *; lia |].
  destruct (Z.ltb_spec now t0); [unfold time.Second in *; lia |].
  now rewrite andb_false_r.
Qed.

(** After [k] whole seconds exactly [k * refillRate] tokens have
    accrued. *)
Lemma tokensToAdd_whole_seconds now tb k :
  0 < k -> k * time.Second <= Int64.MaxInt64 ->
  now - lastRefill tb = k * time.Second ->
  0 <= refillRate tb -> k * refillRate tb < 2 ^ 53 ->
  tokensToAdd now tb = k * refillRate tb.
Proof.
  intros Hk Hmax Hd Hr Hkr.
  assert (Hk53 : k < 2 ^ 53) by (unfold time.Second, Int64.MaxInt64 in Hmax; lia).
  unfold tokensToAdd, accrued.
  rewrite (Sub_whole now (lastRefill tb) k) by (try assumption; lia).
  rewrite Seconds_whole by lia.
  rewrite mul_of_int_exact by lia.
  apply to_int64_of_int. nia.
Qed.

(** A bucket with [m] tokens, refilled at this instant, admits [m] calls
    made at this instant and denies the next. *)
Lemma allows_drains (m : nat) C rate t :
  Z.of_nat m <= Int64.MaxInt64 ->
  allows (replicate (m + 1) t) (mkTokenBucket C (Z.of_nat m) rate t)
  = (replicate m true ++ [false], mkTokenBucket C 0 rate t).
Proof.
  intros Hmax. induction m as [| m IH].
  - cbn [Nat.add replicate allows app].
    rewrite Allow_same_instant by (vm_compute; intuition congruence).
    reflexivity.
  - cbn [Nat.add replicate allows app].
    rewrite Allow_same_instant
      by (try reflexivity;
          unfold Int64.in_range, Int64.MinInt64, Int64.MaxInt64 in *; simpl; lia).
    cbn [tokens].
    destruct (Z.ltb_spec 0 (Z.of_nat (S m))); [| lia].
    unfold set_tokens. cbn [capacity tokens refillRate lastRefill].
    replace (Z.of_nat (S m) - 1) with (Z.of_nat m) by lia.
    rewrite IH by lia. reflexivity.
Qed.

(** A call sees the bucket through [refill]: refilling first, at the
    instant of the call, changes nothing. *)
Lemma Allow_refilled now tb :
  lastRefill (refill now tb) = now ->
  Allow now (refill now tb) = Allow now tb.
Proof.
  intros H. unfold Allow at 1.
  now rewrite (refill_no_accrual now (refill now tb))
    by (now apply tokensToAdd_same_instant).
Qed.

End WholeSecondFacts.

(** X20.  Whole seconds accrue exactly.  For a bucket last refilled [k]
    whole seconds ago ([k >= 1]), with a refill rate of at least 1 and
    [k * refillRate] below [2 ^ 53], the floating-point arithmetic of
    [refill] loses nothing: [tokensToAdd] is exactly [k * refillRate], and
    the refilled bucket holds [n = min(capacity, tokens + k * refillRate)]
    tokens with its last refill at [now].  So [n + 1] calls made at that
    instant are answered by [n] admissions and then a denial, and leave
    the bucket empty. *)
Theorem refill_after_whole_seconds
    (now : time.Time) (tb : ratelimit.TokenBucket) (k : Z) :
  0 <= ratelimit.tokens tb <= ratelimit.capacity tb ->
  1 <= ratelimit.refillRate tb -> 1 <= k ->
  k * time.Second <= Int64.MaxInt64 ->
  now - ratelimit.lastRefill tb = k * time.Second ->
  k * ratelimit.refillRate tb < 2 ^ 53 ->
  ratelimit.tokens tb + k * ratelimit.refillRate tb <= Int64.MaxInt64 ->
  let n := Z.min (ratelimit.capacity tb)
             (ratelimit.tokens tb + k * ratelimit.refillRate tb) in
  ratelimit.tokensToAdd now tb = k * ratelimit.refillRate tb /\
  ratelimit.refill now tb
    = ratelimit.mkTokenBucket (ratelimit.capacity tb) n
        (ratelimit.refillRate tb) now /\
  props.allows (replicate (Z.to_nat n + 1) now) tb
    = (replicate (Z.to_nat n) true ++ [false],
       ratelimit.mkTokenBucket (ratelimit.capacity tb) 0
         (ratelimit.refillRate tb) now).
Proof.
  intros Ht Hr Hk Hmax Hd Hkr Hsum n.
  pose proof (tokensToAdd_whole_seconds now tb k ltac:(lia) Hmax Hd
                ltac:(lia) Hkr) as Hadd.
  assert (Hrefill : ratelimit.refill now tb
            = ratelimit.mkTokenBucket (ratelimit.capacity tb) n
                (ratelimit.refillRate tb) now).
  { unfold ratelimit.refill. cbv zeta. rewrite Hadd.
    destruct (Z.ltb_spec 0 (k * ratelimit.refillRate tb)); [| nia].
    unfold Int64.add. rewrite wrap_in_range
      by (unfold Int64.in_range, Int64.MinInt64, Int64.MaxInt64 in *; lia).
    now rewrite min_spec. }
  split; [exact Hadd |]. split; [exact Hrefill |].
  assert (Hn : 0 <= n <= Int64.MaxInt64) by (unfold n; nia).
  rewrite Nat.add_1_r. cbn [replicate props.allows].
  rewrite <- Allow_refilled by (now rewrite Hrefill).
  rewrite Hrefill.
  change (let '(ok, tb0) := ratelimit.Allow now ?b in
          let '(oks, tb1) := props.allows ?l tb0 in (ok :: oks, tb1))
    with (props.allows (now :: l) b).
  pose proof (allows_drains (Z.to_nat n) (ratelimit.capacity tb)
                (ratelimit.refillRate tb) now ltac:(lia)) as H.
  rewrite Nat.add_1_r, Z2Nat.id in H by lia. exact H.
Qed.

Lemma refill_after_whole_seconds_witness :
  let tb := ratelimit.mkTokenBucket 10 0 3 1000000000 in
  ratelimit.tokensToAdd 3000000000 tb = 6 /\
  props.allows (replicate 7 3000000000) tb
    = ([true; true; true; true; true; true; false],
       ratelimit.mkTokenBucket 10 0 3 3000000000).
Proof.
  intros tb.
  destruct (refill_after_whole_seconds 3000000000 tb 2) as (Hadd & _ & Hall).
  - simpl. lia.
  - simpl. lia.
  - lia.
  - unfold time.Second, Int64.MaxInt64. lia.
  - reflexivity.
  - simpl. lia.
  - unfold Int64.MaxInt64. simpl. lia.
  - split; [exact Hadd | exact Hall].
Defined.

(* ===================================================================== *)
(** * Properties: the error of the accrued amount *)
(* ===================================================================== *)

Section NormalRounding.

Local Abbreviation fexp := (fexp Float64.prec Float64.emax).




End NormalRounding.

Section AccrualError.

Import Reals Lra.
Import ratelimit.

Local Open Scope R_scope.

(** The value of a positive finite number. *)
Local Abbreviation F m e := (IZR (Z.pos m) * powerRZ 2 e).






















End AccrualError.



